(** * express-zod-openapi: schema-to-OpenAPI conversion and the typed router

    A shallow embedding of [src/openapi.ts] (schema conversion and document
    generation) and [src/router.ts] (the typed router and its validating
    wrapper), with the properties stated about them. *)

From Stdlib Require Import List String Ascii ZArith Bool Arith Lia.
From Stdlib Require Import DecimalString.
From Stdlib Require DecimalPos DecimalZ DecimalNat.
Import ListNotations.
Local Open Scope string_scope.
Set Warnings "-register-all".

(** ** JavaScript values and plain objects *)

(** The JSON-like values that the code builds and passes around.  Numbers
    are the integers (status codes, enum members); [JUndefined] is the
    JavaScript [undefined]. *)
Inductive Json : Type :=
| JUndefined
| JNull
| JBool (b : bool)
| JNum (n : Z)
| JStr (s : string)
| JArr (items : list Json)
| JObj (props : list (string * Json)).

(** JavaScript truthiness, as used by [if (x)], [!x] and [x ? a : b]. *)
Definition js_truthy (v : Json) : bool :=
  match v with
  | JUndefined | JNull => false
  | JBool b => b
  | JNum n => negb (n =? 0)%Z
  | JStr s => negb (s =? "")
  | JArr _ | JObj _ => true
  end.

(** An optional string ([string | undefined]) is truthy when it is present
    and not empty. *)
Definition str_truthy (s : option string) : option string :=
  match s with
  | Some x => if x =? "" then None else Some x
  | None => None
  end.

Module Obj.
Section Props.
Context {A : Type}.

(** A plain object used as a string-keyed table: its own properties, in
    insertion order (that keys which are array indices come first is not
    modelled).  What a plain object inherits from [Object.prototype] is not
    among them; see [inherited] below. *)
Definition t := list (string * A).

(** [o[k]] *)
Fixpoint get (o : t) (k : string) : option A :=
  match o with
  | [] => None
  | (k', v) :: rest => if k' =? k then Some v else get rest k
  end.

(** [o[k] = v]: an existing property keeps its place, a new one is added
    at the end. *)
Fixpoint set (o : t) (k : string) (v : A) : t :=
  match o with
  | [] => [(k, v)]
  | (k', v') :: rest =>
      if k' =? k then (k', v) :: rest else (k', v') :: set rest k v
  end.

(** [Object.keys(o)] *)
Definition keys (o : t) : list string := map fst o.

(** How many own properties are called [k]. *)
Definition count (o : t) (k : string) : nat :=
  List.length (filter (fun kv => fst kv =? k) o).
End Props.
Arguments t : clear implicits.
End Obj.

(** [!o[k]] is false exactly when the property is there and truthy.  This
    reads the own properties only: it is used for the paths object, where a
    key that is a property name of [Object.prototype] (none of which begins
    with a slash) is outside the model. *)
Definition prop_truthy (o : Obj.t Json) (k : string) : bool :=
  match Obj.get o k with
  | Some v => js_truthy v
  | None => false
  end.

(** The property names every plain object inherits from [Object.prototype].
    Each of them holds a function, and [__proto__] the prototype object
    itself: a truthy value. *)
Definition object_prototype_names : list string :=
  ["constructor"; "__defineGetter__"; "__defineSetter__"; "hasOwnProperty";
   "__lookupGetter__"; "__lookupSetter__"; "isPrototypeOf";
   "propertyIsEnumerable"; "toString"; "valueOf"; "__proto__";
   "toLocaleString"].

Definition inherited (k : string) : bool :=
  existsb (String.eqb k) object_prototype_names.

(** [!o[k]] on a plain object whose keys may be any string, as the component
    table is: an own property is read first, and a name that is not an own
    property reads what [Object.prototype] holds under it. *)
Definition entry_truthy (o : Obj.t Json) (k : string) : bool :=
  match Obj.get o k with
  | Some v => js_truthy v
  | None => inherited k
  end.

(** ** Zod schemas *)

(** What the converter reads off any schema node: [_def.description] and
    [_openApi?.name]. *)
Record ZodMeta : Type := mkMeta {
  def_description : option string;
  openApi_name : option string
}.

Definition no_meta : ZodMeta := mkMeta None None.

(** The first-party schema kinds of the validation library that the
    converter has no case for. *)
Inductive ZodOtherKind : Type :=
| ZodNaN | ZodBigInt | ZodDate | ZodSymbol | ZodUndefined | ZodNull
| ZodAny | ZodUnknown | ZodNever | ZodVoid | ZodTuple | ZodRecord
| ZodMap | ZodSet | ZodFunction | ZodLazy | ZodIntersection
| ZodDiscriminatedUnion | ZodPromise | ZodBranded | ZodPipeline
| ZodReadonly | ZodCatch.

(** A schema value, by its [_def.typeName].  [shape] holds the entries of
    [def.shape()] and [values] of a native enum the entries of
    [def.values], both in [Object.entries] order. *)
Inductive ZodType : Type :=
| ZodString (m : ZodMeta)
| ZodNumber (m : ZodMeta)
| ZodBoolean (m : ZodMeta)
| ZodArray (m : ZodMeta) (type : ZodType)
| ZodObject (m : ZodMeta) (shape : list (string * ZodType))
| ZodUnion (m : ZodMeta) (options : list ZodType)
| ZodLiteral (m : ZodMeta) (value : Json)
| ZodEnum (m : ZodMeta) (values : list string)
| ZodNativeEnum (m : ZodMeta) (values : option (list (string * Json)))
| ZodOptional (m : ZodMeta) (innerType : ZodType)
| ZodNullable (m : ZodMeta) (innerType : ZodType)
| ZodDefault (m : ZodMeta) (innerType : ZodType)
| ZodEffects (m : ZodMeta) (schema : ZodType)
| ZodOther (m : ZodMeta) (typeName : ZodOtherKind).

Definition meta (s : ZodType) : ZodMeta :=
  match s with
  | ZodString m | ZodNumber m | ZodBoolean m | ZodArray m _ | ZodObject m _
  | ZodUnion m _ | ZodLiteral m _ | ZodEnum m _ | ZodNativeEnum m _
  | ZodOptional m _ | ZodNullable m _ | ZodDefault m _ | ZodEffects m _
  | ZodOther m _ => m
  end.

Definition set_meta (m' : ZodMeta) (s : ZodType) : ZodType :=
  match s with
  | ZodString _ => ZodString m'
  | ZodNumber _ => ZodNumber m'
  | ZodBoolean _ => ZodBoolean m'
  | ZodArray _ t => ZodArray m' t
  | ZodObject _ sh => ZodObject m' sh
  | ZodUnion _ os => ZodUnion m' os
  | ZodLiteral _ v => ZodLiteral m' v
  | ZodEnum _ vs => ZodEnum m' vs
  | ZodNativeEnum _ vs => ZodNativeEnum m' vs
  | ZodOptional _ i => ZodOptional m' i
  | ZodNullable _ i => ZodNullable m' i
  | ZodDefault _ i => ZodDefault m' i
  | ZodEffects _ i => ZodEffects m' i
  | ZodOther _ k => ZodOther m' k
  end.

(** [withSchemaName(schema, name)]: records the reusable name on the schema
    object itself and returns it. *)
Definition withSchemaName (schema : ZodType) (name : string) : ZodType :=
  set_meta (mkMeta (def_description (meta schema)) (Some name)) schema.

(** Number of nodes of a schema. *)
Fixpoint size (s : ZodType) : nat :=
  match s with
  | ZodArray _ t => S (size t)
  | ZodObject _ shape =>
      S ((fix fields (l : list (string * ZodType)) : nat :=
            match l with
            | [] => 0
            | (_, v) :: rest => size v + fields rest
            end) shape)
  | ZodUnion _ options =>
      S ((fix opts (l : list ZodType) : nat :=
            match l with
            | [] => 0
            | o :: rest => size o + opts rest
            end) options)
  | ZodOptional _ i | ZodNullable _ i | ZodDefault _ i | ZodEffects _ i =>
      S (size i)
  | _ => 1
  end.

(** ** Unwrapping *)

Record Unwrapped : Type := mkUnwrapped {
  u_schema : ZodType;
  u_isNullable : bool;
  u_isOptional : bool;
  u_description : option string;
  u_openApiName : option string
}.

(** [if (!acc) acc = inner]: a falsy accumulator is replaced by what the
    inner schema carries. *)
Definition or_inner (acc inner : option string) : option string :=
  match str_truthy acc with
  | Some _ => acc
  | None => inner
  end.

(** The [while] loop of [unwrapZodType]; one recursive call per [continue]. *)
Fixpoint unwrap_loop (current : ZodType) (isNullable isOptional : bool)
    (description openApiName : option string) : Unwrapped :=
  match current with
  | ZodOptional _ inner =>
      unwrap_loop inner isNullable true
        (or_inner description (def_description (meta inner)))
        (or_inner openApiName (openApi_name (meta inner)))
  | ZodNullable _ inner =>
      unwrap_loop inner true isOptional
        (or_inner description (def_description (meta inner)))
        (or_inner openApiName (openApi_name (meta inner)))
  | ZodDefault _ inner =>
      unwrap_loop inner isNullable isOptional
        (or_inner description (def_description (meta inner)))
        (or_inner openApiName (openApi_name (meta inner)))
  | ZodEffects _ inner =>
      unwrap_loop inner isNullable isOptional
        (or_inner description (def_description (meta inner)))
        (or_inner openApiName (openApi_name (meta inner)))
  | _ => mkUnwrapped current isNullable isOptional description openApiName
  end.

Definition unwrapZodType (schema : ZodType) : Unwrapped :=
  unwrap_loop schema false false
    (def_description (meta schema)) (openApi_name (meta schema)).

(** ** Schema conversion *)

(** The contents of [context.components.schemas]: the one table shared by
    every conversion of a generation call. *)
Definition Schemas := Obj.t Json.

(** [if (description) r.description = description;
     if (isNullable) r.nullable = true] *)
Definition decorate (description : option string) (isNullable : bool)
    (r : Obj.t Json) : Obj.t Json :=
  let r1 := match str_truthy description with
            | Some d => Obj.set r "description" (JStr d)
            | None => r
            end in
  if isNullable then Obj.set r1 "nullable" (JBool true) else r1.

Definition is_enum_value (v : Json) : bool :=
  match v with
  | JStr _ | JNum _ => true
  | _ => false
  end.

(** [...(required.length ? { required } : {})] *)
Definition spread_required (required : list string) : Obj.t Json :=
  match required with
  | [] => []
  | _ :: _ => [("required", JArr (map JStr required))]
  end.

Section Convert.
(** The conversion of a nested schema, as a state transformer on the
    component table; [None] when it does not return. *)
Variable rec : ZodType -> Schemas -> option (Obj.t Json * Schemas).

(** The [for ... of Object.entries(shape)] loop of the object case. *)
Fixpoint convert_shape (entries : list (string * ZodType))
    (properties : Obj.t Json) (required : list string) (schemas : Schemas)
    : option (Obj.t Json * list string * Schemas) :=
  match entries with
  | [] => Some (properties, required, schemas)
  | (key, value) :: rest =>
      let unwrappedProp := unwrapZodType value in
      match rec (u_schema unwrappedProp) schemas with
      | None => None
      | Some (propSchema, schemas1) =>
          let propSchema' :=
            decorate (u_description unwrappedProp)
              (u_isNullable unwrappedProp) propSchema in
          convert_shape rest
            (Obj.set properties key (JObj propSchema'))
            (if u_isOptional unwrappedProp then required
             else (required ++ [key])%list)
            schemas1
      end
  end.

(** [options.map((o) => zodToOpenApiSchema(o, context))] *)
Fixpoint convert_options (options : list ZodType) (schemas : Schemas)
    : option (list Json * Schemas) :=
  match options with
  | [] => Some ([], schemas)
  | o :: rest =>
      match rec o schemas with
      | None => None
      | Some (r, schemas1) =>
          match convert_options rest schemas1 with
          | None => None
          | Some (rs, schemas2) => Some (JObj r :: rs, schemas2)
          end
      end
  end.

(** The [switch (def?.typeName)] of [zodToOpenApiSchema]. *)
Definition convert_base (baseSchema : ZodType) (schemas : Schemas)
    : option (Obj.t Json * Schemas) :=
  match baseSchema with
  | ZodString _ => Some ([("type", JStr "string")], schemas)
  | ZodNumber _ => Some ([("type", JStr "number")], schemas)
  | ZodBoolean _ => Some ([("type", JStr "boolean")], schemas)
  | ZodArray _ type =>
      match rec type schemas with
      | None => None
      | Some (items, schemas1) =>
          Some ([("type", JStr "array"); ("items", JObj items)], schemas1)
      end
  | ZodObject _ shape =>
      match convert_shape shape [] [] schemas with
      | None => None
      | Some (properties, required, schemas1) =>
          Some (([("type", JStr "object"); ("properties", JObj properties)]
                 ++ spread_required required)%list,
                schemas1)
      end
  | ZodUnion _ options =>
      match convert_options options schemas with
      | None => None
      | Some (rs, schemas1) => Some ([("oneOf", JArr rs)], schemas1)
      end
  | ZodLiteral _ value => Some ([("enum", JArr [value])], schemas)
  | ZodEnum _ values =>
      Some ([("type", JStr "string"); ("enum", JArr (map JStr values))],
            schemas)
  | ZodNativeEnum _ values =>
      let rawValues := match values with
                       | Some vs => map snd vs
                       | None => []
                       end in
      let enumValues := filter is_enum_value rawValues in
      let type := match enumValues with
                  | JNum _ :: _ => "number"
                  | _ => "string"
                  end in
      Some ([("type", JStr type); ("enum", JArr enumValues)], schemas)
  | _ => Some ([], schemas)
  end.
End Convert.

(** [zodToOpenApiSchema(schema, context, opts)], with a bound on the depth
    of nested calls.  [context] tells whether a context object is passed,
    [schemas] is the state of its component table before the call, and the
    result carries the table after it. *)
Fixpoint zodToOpenApiSchema_fuel (fuel : nat) (schema : ZodType)
    (context asComponent : bool) (schemas : Schemas)
    : option (Obj.t Json * Schemas) :=
  match fuel with
  | O => None
  | S fuel' =>
      let unwrapped := unwrapZodType schema in
      let baseSchema := u_schema unwrapped in
      let isNullable := u_isNullable unwrapped in
      let description := u_description unwrapped in
      let effectiveName := u_openApiName unwrapped in
      match context, str_truthy effectiveName, asComponent with
      | true, Some name, false =>
          let registered :=
            if entry_truthy schemas name then Some schemas
            else
              match zodToOpenApiSchema_fuel fuel' schema context true schemas with
              | None => None
              | Some (component, schemas1) =>
                  Some (Obj.set schemas1 name (JObj component))
              end in
          match registered with
          | None => None
          | Some schemas2 =>
              let ref := [("$ref", JStr ("#/components/schemas/" ++ name))] in
              Some (decorate description isNullable ref, schemas2)
          end
      | _, _, _ =>
          match convert_base
                  (fun s => zodToOpenApiSchema_fuel fuel' s context false)
                  baseSchema schemas with
          | None => None
          | Some (result, schemas1) =>
              Some (decorate description isNullable result, schemas1)
          end
      end
  end.

(** The conversion proper: the bound is taken large enough for the schema
    at hand: twice its size. *)
Definition zodToOpenApiSchema (schema : ZodType) (context asComponent : bool)
    (schemas : Schemas) : option (Obj.t Json * Schemas) :=
  zodToOpenApiSchema_fuel (2 * size schema) schema context asComponent schemas.

(** ** The typed router *)

Inductive HttpMethod : Type := GET | POST | PUT | PATCH | DELETE.

Definition method_name (m : HttpMethod) : string :=
  match m with
  | GET => "get"
  | POST => "post"
  | PUT => "put"
  | PATCH => "patch"
  | DELETE => "delete"
  end.

Record RequestSchemas : Type := mkRequestSchemas {
  rs_params : option ZodType;
  rs_query : option ZodType;
  rs_body : option ZodType;
  rs_headers : option ZodType
}.

(** [Record<number, ZodTypeAny>]: the entries of the object, keyed by the
    status code. *)
Definition ResponseSchemas := list (Z * ZodType).

Fixpoint response_schema (responses : ResponseSchemas) (status : Z)
    : option ZodType :=
  match responses with
  | [] => None
  | (k, s) :: rest =>
      if (k =? status)%Z then Some s else response_schema rest status
  end.

Record RouteMeta : Type := mkRouteMeta {
  summary : option string;
  description : option string;
  tags : option (list string)
}.

(** What the wrapper reads from the framework's request object. *)
Record Request : Type := mkRequest {
  req_params : Json;
  req_query : Json;
  req_body : Json;
  req_headers : Json
}.

Record ParsedRequest : Type := mkParsed {
  params : Json;
  query : Json;
  body : Json;
  headers : Json
}.

(** The framework's response object: the status code it holds and the JSON
    bodies written so far, each with the status it went out under. *)
Record Response : Type := mkResponse {
  statusCode : Z;
  sent : list (Z * Json)
}.

(** How a call ends: with a value, or by throwing (a rejected promise,
    once awaited, throws as well). *)
Inductive Completion (A : Type) : Type :=
| Normal (a : A)
| Throw (err : Json).
Arguments Normal {A} a.
Arguments Throw {A} err.

(** A user handler receives [{req, res, parsed}]; it may change the
    response object before it returns or throws. *)
Definition TypedHandler : Type :=
  Request -> ParsedRequest -> Response -> Completion Json * Response.

Record RouteDefinition : Type := mkRoute {
  method : HttpMethod;
  path : string;
  request : option RequestSchemas;
  responses : ResponseSchemas;
  route_meta : option RouteMeta;
  handler : TypedHandler
}.

Definition RegisteredRoute := RouteDefinition.

(** The second argument of the shorthand methods. *)
Record RouteOptions : Type := mkOptions {
  opt_request : option RequestSchemas;
  opt_responses : ResponseSchemas;
  opt_meta : option RouteMeta;
  opt_handler : TypedHandler
}.

(** *** The validating wrapper *)

(** What a wrapped call does besides writing to the response. *)
Inductive Event : Type :=
| Invoked (parsed : ParsedRequest)
| Next (err : option Json).

Record World : Type := mkWorld {
  res : Response;
  trace : list Event
}.

Definition Eff (A : Type) : Type := World -> Completion A * World.

Definition ret {A} (a : A) : Eff A := fun w => (Normal a, w).

Definition throw {A} (err : Json) : Eff A := fun w => (Throw err, w).

Definition bind {A B} (m : Eff A) (k : A -> Eff B) : Eff B :=
  fun w =>
    match m w with
    | (Normal a, w1) => k a w1
    | (Throw err, w1) => (Throw err, w1)
    end.

Definition try_catch (m : Eff unit) (h : Json -> Eff unit) : Eff unit :=
  fun w =>
    match m w with
    | (Normal a, w1) => (Normal a, w1)
    | (Throw err, w1) => h err w1
    end.

Declare Scope eff_scope.
Delimit Scope eff_scope with eff.
Notation "x <- m ;; k" := (bind m (fun x => k))
  (at level 61, m at next level, right associativity) : eff_scope.
Notation "m ;; k" := (bind m (fun _ => k))
  (at level 61, right associativity) : eff_scope.

Definition lift {A} (c : Completion A) : Eff A := fun w => (c, w).

Definition emit (e : Event) : Eff unit :=
  fun w => (Normal tt, mkWorld (res w) (trace w ++ [e])).

(** [next()] and [next(err)] *)
Definition next (err : option Json) : Eff unit := emit (Next err).

(** [res.status(code)] *)
Definition res_status (code : Z) : Eff unit :=
  fun w => (Normal tt, mkWorld (mkResponse code (sent (res w))) (trace w)).

(** [res.json(body)] *)
Definition res_json (body : Json) : Eff unit :=
  fun w =>
    (Normal tt,
     mkWorld (mkResponse (statusCode (res w))
                (sent (res w) ++ [(statusCode (res w), body)]))
       (trace w)).

Definition get_res : Eff Response := fun w => (Normal (res w), w).

(** [await handler({req, res, parsed})] *)
Definition call_handler (h : TypedHandler) (req : Request)
    (parsed : ParsedRequest) : Eff Json :=
  fun w =>
    let (c, res1) := h req parsed (res w) in
    (c, mkWorld res1 (trace w ++ [Invoked parsed])).

(** The keys of a response table that are status codes in the 2xx range,
    ascending. *)
Fixpoint insert_sorted (n : Z) (l : list Z) : list Z :=
  match l with
  | [] => [n]
  | m :: rest => if (n <=? m)%Z then n :: l else m :: insert_sorted n rest
  end.

Definition sort_ascending (l : list Z) : list Z :=
  fold_right insert_sorted [] l.

Definition first2xxSchema (responses : ResponseSchemas) : option ZodType :=
  let statusCodes :=
    sort_ascending
      (filter (fun n => (200 <=? n)%Z && (n <? 300)%Z) (map fst responses)) in
  match statusCodes with
  | first :: _ => response_schema responses first
  | [] => None
  end.

(** [a ?? b] on optional schemas *)
Definition or_else {A} (a b : option A) : option A :=
  match a with
  | Some _ => a
  | None => b
  end.

(** The status the wrapper answers with. *)
Definition eventual_status (r : Response) : Z :=
  if negb (statusCode r =? 0)%Z
     && (200 <=? statusCode r)%Z && (statusCode r <? 300)%Z
  then statusCode r
  else 200%Z.

(** The schema the wrapper validates the handler's result against. *)
Definition select_schema (responses : ResponseSchemas) (status : Z)
    : option ZodType :=
  or_else (response_schema responses status)
    (or_else (first2xxSchema responses) (response_schema responses 200)).

(** [o?.f] *)
Definition field {R A} (o : option R) (f : R -> option A) : option A :=
  match o with
  | Some r => f r
  | None => None
  end.

Section Wrapper.
(** [schema.parse(value)] of the validation library: the parsed value, or
    a thrown validation error. *)
Variable parse : ZodType -> Json -> Completion Json.

(** [schema ? schema.parse(input) : input] *)
Definition parse_field (schema : option ZodType) (input : Json) : Eff Json :=
  match schema with
  | Some s => lift (parse s input)
  | None => ret input
  end.

Local Open Scope eff_scope.

(** The [parsed] object literal: its four fields are evaluated in source
    order. *)
Definition parse_request (request : option RequestSchemas) (req : Request)
    : Eff ParsedRequest :=
  params <- parse_field (field request rs_params) (req_params req) ;;
  query <- parse_field (field request rs_query) (req_query req) ;;
  body <- parse_field (field request rs_body) (req_body req) ;;
  headers <- parse_field (field request rs_headers) (req_headers req) ;;
  ret (mkParsed params query body headers).

(** The function [register] installs for a route. *)
Definition wrapped (route : RegisteredRoute) (req : Request) : Eff unit :=
  try_catch
    (parsed <- parse_request (request route) req ;;
     result <- call_handler (handler route) req parsed ;;
     r <- get_res ;;
     let status := eventual_status r in
     let schema := select_schema (responses route) status in
     match schema with
     | Some s =>
         parsedResult <- lift (parse s result) ;;
         res_status status ;;
         res_json parsedResult
     | None =>
         match result with
         | JUndefined => next None
         | _ => res_status status ;; res_json result
         end
     end)
    (fun err => next (Some err)).

(** The host application: the handlers installed so far, per method and
    path. *)
Definition App := list (HttpMethod * string * (Request -> Eff unit)).

(** [register(appOrRouter)] on the routes of a router. *)
Definition register_routes (routes : list RegisteredRoute) (app : App) : App :=
  fold_left (fun a route => a ++ [(method route, path route, wrapped route)])%list
    routes app.
End Wrapper.

(** *** The router object *)

(** Arrays live in a store and are named by their address, so that two
    names for one array can be told from a copy. *)
Definition ArrayRef := nat.
Definition Store := list (list RegisteredRoute).

Definition read (st : Store) (a : ArrayRef) : list RegisteredRoute :=
  nth a st [].

Fixpoint write (st : Store) (a : ArrayRef) (v : list RegisteredRoute) : Store :=
  match st, a with
  | [], _ => []
  | _ :: rest, O => v :: rest
  | x :: rest, S a' => x :: write rest a' v
  end.

Definition alloc (st : Store) (v : list RegisteredRoute) : Store * ArrayRef :=
  ((st ++ [v])%list, List.length st).

(** A [TypedRouter] instance holds the address of its private [routes]
    array. *)
Record TypedRouter : Type := mkRouter { routes : ArrayRef }.

(** [new TypedRouter()] *)
Definition new_router (st : Store) : Store * TypedRouter :=
  let (st', a) := alloc st [] in (st', mkRouter a).

(** [route(def)]: [this.routes.push(def); return this] *)
Definition route (self : TypedRouter) (def : RouteDefinition) (st : Store)
    : Store * TypedRouter :=
  (write st (routes self) (read st (routes self) ++ [def])%list, self).

Definition shorthand (m : HttpMethod) (self : TypedRouter) (p : string)
    (options : RouteOptions) (st : Store) : Store * TypedRouter :=
  route self
    (mkRoute m p (opt_request options) (opt_responses options)
       (opt_meta options) (opt_handler options))
    st.

Definition get := shorthand GET.
Definition post := shorthand POST.
Definition put := shorthand PUT.
Definition patch := shorthand PATCH.
Definition delete := shorthand DELETE.

(** [getRoutes()]: [return [...this.routes]], a fresh array. *)
Definition getRoutes (self : TypedRouter) (st : Store) : Store * ArrayRef :=
  alloc st (read st (routes self)).

(** [register(appOrRouter)] *)
Definition register (parse : ZodType -> Json -> Completion Json)
    (self : TypedRouter) (app : App) (st : Store) : Store * App :=
  (st, register_routes parse (read st (routes self)) app).

(** ** Document generation *)

Record OpenApiOptions : Type := mkOpenApiOptions {
  title : string;
  version : string;
  basePath : option string;
  info_description : option string
}.

Record OpenApiDocument : Type := mkDocument {
  openapi : string;
  info : Obj.t Json;
  paths : Obj.t Json;
  components : option Schemas
}.

Definition slash : ascii := "/"%char.
Definition colon : ascii := ":"%char.

(** [path.replace(/:([^/]+)/g, '{$1}')], read left to right.  [inParam]
    tells that the scan is inside a match, after its colon and at least one
    further character. *)
Fixpoint replace_params (inParam : bool) (p : string) : string :=
  match p with
  | EmptyString => if inParam then "}" else ""
  | String c rest =>
      if inParam then
        if Ascii.eqb c slash then String "}" (String c (replace_params false rest))
        else String c (replace_params true rest)
      else if Ascii.eqb c colon then
        match rest with
        | EmptyString => String c EmptyString
        | String c' _ =>
            if Ascii.eqb c' slash then String c (replace_params false rest)
            else String "{" (replace_params true rest)
        end
      else String c (replace_params false rest)
  end.

Definition expressPathToOpenApiPath (p : string) : string :=
  replace_params false p.

Definition opt_str (s : option string) : Json :=
  match s with
  | Some x => JStr x
  | None => JUndefined
  end.

(** [String(status)], for a status that a JavaScript number holds exactly
    (see [safe_integer]): its decimal digits.  That [String] turns to the
    exponent notation from [1e21] on is not modelled. *)
Definition status_key (status : Z) : string :=
  NilZero.string_of_int (Z.to_int status).

(** One parameter per entry of the shape, converted without a context. *)
Fixpoint shape_parameters (location : string) (required : bool)
    (shape : list (string * ZodType)) : option (list Json) :=
  match shape with
  | [] => Some []
  | (name, schema) :: rest =>
      match zodToOpenApiSchema schema false false [] with
      | None => None
      | Some (converted, _) =>
          match shape_parameters location required rest with
          | None => None
          | Some ps =>
              Some (JObj [("name", JStr name); ("in", JStr location);
                          ("required", JBool required);
                          ("schema", JObj converted)] :: ps)
          end
      end
  end.

(** [req?.x && req.x instanceof ZodObject], then its shape *)
Definition object_shape (s : option ZodType) : list (string * ZodType) :=
  match s with
  | Some (ZodObject _ shape) => shape
  | _ => []
  end.

Definition buildParameters (req : option RequestSchemas) : option Json :=
  match shape_parameters "path" true (object_shape (field req rs_params)) with
  | None => None
  | Some ps1 =>
      match shape_parameters "query" false (object_shape (field req rs_query)) with
      | None => None
      | Some ps2 =>
          match shape_parameters "header" false
                  (object_shape (field req rs_headers)) with
          | None => None
          | Some ps3 =>
              match (ps1 ++ ps2 ++ ps3)%list with
              | [] => Some JUndefined
              | ps => Some (JArr ps)
              end
          end
      end
  end.

Definition json_content (converted : Obj.t Json) : Json :=
  JObj [("application/json", JObj [("schema", JObj converted)])].

(** The loop over [Object.entries(route.responses)]. *)
Fixpoint build_responses (entries : ResponseSchemas) (acc : Obj.t Json)
    (schemas : Schemas) : option (Obj.t Json * Schemas) :=
  match entries with
  | [] => Some (acc, schemas)
  | (status, schema) :: rest =>
      match zodToOpenApiSchema schema true false schemas with
      | None => None
      | Some (converted, schemas1) =>
          build_responses rest
            (Obj.set acc (status_key status)
               (JObj [("description", JStr "Response");
                      ("content", json_content converted)]))
            schemas1
      end
  end.

(** [(paths[path])[method] = operation] *)
Definition set_operation (paths : Obj.t Json) (path method : string)
    (operation : Json) : Obj.t Json :=
  match Obj.get paths path with
  | Some (JObj item) => Obj.set paths path (JObj (Obj.set item method operation))
  | _ => paths
  end.

(** The body of the loop over the routes. *)
Definition build_route (options : OpenApiOptions) (route : RegisteredRoute)
    (paths : Obj.t Json) (schemas : Schemas)
    : option (Obj.t Json * Schemas) :=
  let expressPath :=
    match str_truthy (basePath options) with
    | Some base => base ++ path route
    | None => path route
    end in
  let apiPath := expressPathToOpenApiPath expressPath in
  let paths1 :=
    if prop_truthy paths apiPath then paths
    else Obj.set paths apiPath (JObj []) in
  match
    match field (request route) rs_body with
    | Some bodySchema =>
        match zodToOpenApiSchema bodySchema true false schemas with
        | None => None
        | Some (converted, schemas1) =>
            Some (JObj [("required", JBool true);
                        ("content", json_content converted)], schemas1)
        end
    | None => Some (JUndefined, schemas)
    end
  with
  | None => None
  | Some (requestBody, schemas1) =>
      match buildParameters (request route) with
      | None => None
      | Some parameters =>
          match build_responses (responses route) [] schemas1 with
          | None => None
          | Some (responseTable, schemas2) =>
              Some (set_operation paths1 apiPath (method_name (method route))
                      (JObj [("summary", opt_str (field (route_meta route) summary));
                             ("description",
                              opt_str (field (route_meta route) description));
                             ("tags",
                              match field (route_meta route) tags with
                              | Some ts => JArr (map JStr ts)
                              | None => JUndefined
                              end);
                             ("requestBody", requestBody);
                             ("parameters", parameters);
                             ("responses", JObj responseTable)]),
                    schemas2)
          end
      end
  end.

Fixpoint build_routes (options : OpenApiOptions) (rs : list RegisteredRoute)
    (paths : Obj.t Json) (schemas : Schemas)
    : option (Obj.t Json * Schemas) :=
  match rs with
  | [] => Some (paths, schemas)
  | r :: rest =>
      match build_route options r paths schemas with
      | None => None
      | Some (paths1, schemas1) => build_routes options rest paths1 schemas1
      end
  end.

(** The document for a given route sequence. *)
Definition build_document (options : OpenApiOptions)
    (rs : list RegisteredRoute) : option OpenApiDocument :=
  match build_routes options rs [] [] with
  | None => None
  | Some (paths, schemas) =>
      Some (mkDocument "3.0.0"
              [("title", JStr (title options));
               ("version", JStr (version options));
               ("description", opt_str (info_description options))]
              paths
              (match schemas with
               | [] => None
               | _ :: _ => Some schemas
               end))
  end.

(** [buildOpenApi(typedRouter, options)] *)
Definition buildOpenApi (typedRouter : TypedRouter) (options : OpenApiOptions)
    (st : Store) : Store * option OpenApiDocument :=
  let (st', copy) := getRoutes typedRouter st in
  (st', build_document options (read st' copy)).

Definition spec_example : ZodType :=
  ZodObject no_meta
    [("id", ZodString no_meta);
     ("age", ZodOptional no_meta (ZodNumber no_meta))].

(** * Vocabulary of the properties *)

(** ** Conversion *)

(** A schema is a wrapper when the loop of [unwrapZodType] goes on from it. *)
Definition is_wrapper (s : ZodType) : bool :=
  match s with
  | ZodOptional _ _ | ZodNullable _ _ | ZodDefault _ _ | ZodEffects _ _ => true
  | _ => false
  end.

(** The schemas on which the [switch] calls the conversion again. *)
Definition callees (baseSchema : ZodType) : list ZodType :=
  match baseSchema with
  | ZodArray _ type => [type]
  | ZodObject _ shape =>
      map (fun kv => u_schema (unwrapZodType (snd kv))) shape
  | ZodUnion _ options => options
  | _ => []
  end.

(** A bound that suffices: two nested calls per level of the schema, one of
    them saved when the call is the one that builds a component. *)
Definition enough (fuel : nat) (s : ZodType) (asComponent : bool) : Prop :=
  2 * size s <= fuel + (if asComponent then 1 else 0).

(** The kinds the [switch] has a case for. *)
Definition supported_kind (s : ZodType) : bool :=
  match s with
  | ZodString _ | ZodNumber _ | ZodBoolean _ | ZodArray _ _ | ZodObject _ _
  | ZodUnion _ _ | ZodLiteral _ _ | ZodEnum _ _ | ZodNativeEnum _ _ => true
  | _ => false
  end.

(** What [decorate] leaves of an empty fragment. *)
Definition annotations (description : option string) (isNullable : bool)
    : Obj.t Json :=
  (match str_truthy description with
   | Some d => [("description", JStr d)]
   | None => []
   end
   ++ if isNullable then [("nullable", JBool true)] else [])%list.

Definition is_required (kv : string * ZodType) : bool :=
  negb (u_isOptional (unwrapZodType (snd kv))).

(** The property emitted for a field: the conversion [r] of its unwrapped
    schema, with the description and nullability found while unwrapping. *)
Definition property_of (field : ZodType) (r : Obj.t Json) : Json :=
  JObj (decorate (u_description (unwrapZodType field))
          (u_isNullable (unwrapZodType field)) r).

(** ** The component table and the document *)

(** Every entry that is there (and truthy) before is there, unchanged,
    after. *)
Definition preserves (sc sc' : Schemas) : Prop :=
  forall k, prop_truthy sc k = true -> Obj.get sc' k = Obj.get sc k.

(** The table has one property per key. *)
Definition well_keyed (sc : Schemas) : Prop := NoDup (Obj.keys sc).

(** What a conversion may do to the table. *)
Definition extends (sc sc' : Schemas) : Prop :=
  preserves sc sc' /\ (well_keyed sc -> well_keyed sc').

(** The reference emitted in place of a named schema. *)
Definition reference (name : string) : Obj.t Json :=
  [("$ref", JStr ("#/components/schemas/" ++ name))].

(** A non-empty reusable name is found on the schema or under its
    wrappers. *)
Definition named (s : ZodType) (name : string) : Prop :=
  str_truthy (u_openApiName (unwrapZodType s)) = Some name.

Definition registered (sc : Schemas) (name : string) : Prop :=
  prop_truthy sc name = true.

(** What is emitted where a schema named [name] is used: the reference,
    with the description and nullability found while unwrapping. *)
Definition use_site (s : ZodType) (name : string) : Obj.t Json :=
  decorate (u_description (unwrapZodType s)) (u_isNullable (unwrapZodType s))
    (reference name).

(** The call emits the schema in full, not as a reference: it is the call
    that builds a component, or no name is found on the schema. *)
Definition emitted_in_full (s : ZodType) (asComponent : bool) : Prop :=
  asComponent = true \/ str_truthy (u_openApiName (unwrapZodType s)) = None.

(** The fragment emitted for a schema refers to the component [name]: the
    schema carries that name, or it carries none and one of the schemas
    nested in it (array element, union option, unwrapped object field), at
    any depth, is emitted with a reference to it. *)
Inductive refers : ZodType -> string -> Prop :=
| refers_by_name s name :
    named s name -> refers s name
| refers_nested s c name :
    str_truthy (u_openApiName (unwrapZodType s)) = None ->
    In c (callees (u_schema (unwrapZodType s))) ->
    refers c name ->
    refers s name.

(** The component built from a schema refers to [name]. *)
Definition body_refers (s : ZodType) (name : string) : Prop :=
  exists c, In c (callees (u_schema (unwrapZodType s))) /\ refers c name.

(** The path under which a route is documented. *)
Definition documented_path (options : OpenApiOptions) (r : RegisteredRoute)
    : string :=
  expressPathToOpenApiPath
    (match str_truthy (basePath options) with
     | Some base => base ++ path r
     | None => path r
     end).

(** Every path item is an object. *)
Definition path_items (paths : Obj.t Json) : Prop :=
  forall k v, Obj.get paths k = Some v -> exists item, v = JObj item.

(** The paths object has an operation for this method under this key. *)
Definition has_operation (paths : Obj.t Json) (p m : string) : Prop :=
  exists item op, Obj.get paths p = Some (JObj item) /\ Obj.get item m = Some op.

(** How many entries of the document's component table carry a name. *)
Definition component_count (doc : OpenApiDocument) (name : string) : nat :=
  match components doc with
  | Some sc => Obj.count sc name
  | None => 0
  end.

(** A route whose response carries a name that every plain object
    inherits. *)
Definition route_answering_toString : RegisteredRoute :=
  mkRoute GET "/text" None
    [(200%Z, withSchemaName (ZodString no_meta) "toString")]
    None
    (fun _ _ r => (Normal JNull, r)).

(** A route whose path parameter carries a reusable name. *)
Definition route_with_named_parameter : RegisteredRoute :=
  mkRoute GET "/users/:id"
    (Some (mkRequestSchemas
             (Some (ZodObject no_meta
                      [("id", withSchemaName (ZodString no_meta) "UserId")]))
             None None None))
    [(200%Z, ZodString no_meta)]
    None
    (fun _ _ r => (Normal JNull, r)).

(** ** Path templates *)





(** ** The router *)

(** What it is for a router operation to append [def] and do nothing else:
    it returns the router itself, the route array is the old one followed
    by [def], and no other array of the store is touched. *)
Definition appends (result : Store * TypedRouter) (self : TypedRouter)
    (st : Store) (def : RouteDefinition) : Prop :=
  snd result = self
  /\ read (fst result) (routes self) = (read st (routes self) ++ [def])%list
  /\ List.length (fst result) = List.length st
  /\ forall a, a <> routes self -> read (fst result) a = read st a.

Local Open Scope Z_scope.

(** ** The wrapper *)

(** The table declares a schema for the status. *)
Definition declared (responses : ResponseSchemas) (k : Z) : Prop :=
  exists s, response_schema responses k = Some s.

Definition is_2xx (k : Z) : Prop := 200 <= k < 300.

(** The lowest declared status of the 2xx range. *)
Definition first_2xx (responses : ResponseSchemas) (k : Z) : Prop :=
  declared responses k /\ is_2xx k
  /\ forall k', declared responses k' -> is_2xx k' -> k <= k'.

(** The choice in the words of the specification: the schema declared for
    the status; failing that, the schema of the first declared 2xx status;
    failing that, whatever is declared for 200. *)
Inductive validates_against (responses : ResponseSchemas) (status : Z)
    : option ZodType -> Prop :=
| matching_status s :
    response_schema responses status = Some s ->
    validates_against responses status (Some s)
| default_first_2xx k s :
    response_schema responses status = None ->
    first_2xx responses k ->
    response_schema responses k = Some s ->
    validates_against responses status (Some s)
| default_200 :
    response_schema responses status = None ->
    (forall k, declared responses k -> ~ is_2xx k) ->
    validates_against responses status (response_schema responses 200).

(** A response table stands for an object: it has one entry per status. *)
Definition distinct_statuses (responses : ResponseSchemas) : Prop :=
  NoDup (map fst responses).

(** The table has no entry for the status. *)
Definition undeclared (responses : ResponseSchemas) (k : Z) : Prop :=
  forall s, ~ In (k, s) responses.

(** The table has no entry for a status of the 2xx range. *)
Definition no_2xx_entry (responses : ResponseSchemas) : Prop :=
  forall k s, In (k, s) responses -> ~ is_2xx k.

(** The choice in the words of the specification, read off the entries of
    the table: the schema of the entry for the status; failing that, the
    schema of the entry with the lowest status of the 2xx range; failing
    that, the schema of the entry for 200; and none when there is no such
    entry either. *)
Inductive chosen_schema (responses : ResponseSchemas) (status : Z)
    : option ZodType -> Prop :=
| chosen_for_status s :
    In (status, s) responses ->
    chosen_schema responses status (Some s)
| chosen_first_2xx k s :
    undeclared responses status ->
    In (k, s) responses -> is_2xx k ->
    (forall k' s', In (k', s') responses -> is_2xx k' -> k <= k') ->
    chosen_schema responses status (Some s)
| chosen_for_200 s :
    undeclared responses status ->
    no_2xx_entry responses ->
    In (200, s) responses ->
    chosen_schema responses status (Some s)
| chosen_none :
    undeclared responses status ->
    no_2xx_entry responses ->
    undeclared responses 200 ->
    chosen_schema responses status None.

(** The response object after a body was written under [status]. *)
Definition sent_under (res1 res' : Response) (status : Z) : Prop :=
  exists v, res' = mkResponse status (sent res1 ++ [(status, v)]).

Inductive Stage : Type := InParams | InQuery | InBody | InHeaders.

(** The order in which the wrapper parses the parts of a request. *)
Definition stage_index (st : Stage) : nat :=
  match st with
  | InParams => 0
  | InQuery => 1
  | InBody => 2
  | InHeaders => 3
  end.

Definition stage_schema (request : option RequestSchemas) (st : Stage)
    : option ZodType :=
  match st with
  | InParams => field request rs_params
  | InQuery => field request rs_query
  | InBody => field request rs_body
  | InHeaders => field request rs_headers
  end.

Definition stage_input (req : Request) (st : Stage) : Json :=
  match st with
  | InParams => req_params req
  | InQuery => req_query req
  | InBody => req_body req
  | InHeaders => req_headers req
  end.

Section WrapperSpec.
Variable parse : ZodType -> Json -> Completion Json.

(** How parsing one part of the request ends. *)
Definition stage_outcome (request : option RequestSchemas) (req : Request)
    (st : Stage) : Completion Json :=
  match stage_schema request st with
  | Some s => parse s (stage_input req st)
  | None => Normal (stage_input req st)
  end.

(** Parsing fails at [st] with [err], every earlier part having parsed. *)
Definition fails_first_at (request : option RequestSchemas) (req : Request)
    (st : Stage) (err : Json) : Prop :=
  (exists s, stage_schema request st = Some s
             /\ parse s (stage_input req st) = Throw err)
  /\ forall st', (stage_index st' < stage_index st)%nat ->
                 exists v, stage_outcome request req st' = Normal v.

(** What the wrapper does once the request has parsed and the handler has
    returned [result], leaving the response object as [res1]: it answers
    under [status], validating against [schema] when there is one. *)
Definition answer (schema : option ZodType) (status : Z)
    (parsed : ParsedRequest) (result : Json) (res1 : Response) (w : World)
    : Completion unit * World :=
  match schema with
  | Some s =>
      match parse s result with
      | Normal parsedResult =>
          (Normal tt,
           mkWorld (mkResponse status (sent res1 ++ [(status, parsedResult)]))
             (trace w ++ [Invoked parsed]))
      | Throw err =>
          (Normal tt,
           mkWorld res1 (trace w ++ [Invoked parsed; Next (Some err)]))
      end
  | None =>
      match result with
      | JUndefined =>
          (Normal tt, mkWorld res1 (trace w ++ [Invoked parsed; Next None]))
      | _ =>
          (Normal tt,
           mkWorld (mkResponse status (sent res1 ++ [(status, result)]))
             (trace w ++ [Invoked parsed]))
      end
  end.

End WrapperSpec.

(** The same route with another handler. *)
Definition with_handler (route : RegisteredRoute) (h : TypedHandler)
    : RegisteredRoute :=
  mkRoute (method route) (path route) (request route) (responses route)
    (route_meta route) h.

(** ** Sample data *)

(** A stand-in for the validation library in the examples: it accepts the
    primitive of the schema's kind and rejects everything else. *)
Definition sample_parse (s : ZodType) (v : Json) : Completion Json :=
  match s, v with
  | ZodString _, JStr _ => Normal v
  | ZodNumber _, JNum _ => Normal v
  | ZodBoolean _, JBool _ => Normal v
  | _, _ => Throw (JStr "ZodError")
  end.

Definition sample_route (h : TypedHandler) : RegisteredRoute :=
  mkRoute POST "/notes"
    (Some (mkRequestSchemas None None (Some (ZodString no_meta)) None))
    [(201, ZodString no_meta); (404, ZodNumber no_meta)]
    None h.

Definition sample_request (body : Json) : Request :=
  mkRequest (JObj []) (JObj []) body (JObj []).

Definition fresh_world : World := mkWorld (mkResponse 200 []) [].

(** A handler that answers [value] after setting the status code. *)
Definition answering (code : Z) (value : Json) : TypedHandler :=
  fun _ _ r => (Normal value, mkResponse code (sent r)).

Local Close Scope Z_scope.

(** ** Unwrapping, described *)

(** The schemas the loop of [unwrapZodType] passes through, from the schema
    it is given down to the one it stops at. *)
Fixpoint wrapper_chain (s : ZodType) : list ZodType :=
  match s with
  | ZodOptional _ i | ZodNullable _ i | ZodDefault _ i | ZodEffects _ i =>
      s :: wrapper_chain i
  | _ => [s]
  end.

Definition is_nullable_wrapper (s : ZodType) : bool :=
  match s with
  | ZodNullable _ _ => true
  | _ => false
  end.

Definition is_optional_wrapper (s : ZodType) : bool :=
  match s with
  | ZodOptional _ _ => true
  | _ => false
  end.

(** The first string of the list that is there and not empty. *)
Fixpoint first_truthy (l : list (option string)) : option string :=
  match l with
  | [] => None
  | x :: rest =>
      match str_truthy x with
      | Some v => Some v
      | None => first_truthy rest
      end
  end.

(** [j[k]] on a value that may or may not be an object. *)
Definition json_get (j : Json) (k : string) : option Json :=
  match j with
  | JObj o => Obj.get o k
  | _ => None
  end.

(** ** Paths and parameters, described *)

Fixpoint has_colon (p : string) : bool :=
  match p with
  | EmptyString => false
  | String c rest => Ascii.eqb c colon || has_colon rest
  end.

(** The names and locations [buildParameters] goes through, in its order:
    the fields of the params object, then of the query object, then of the
    headers object. *)
Definition parameter_slots (req : option RequestSchemas)
    : list (string * string) :=
  (map (fun kv => (fst kv, "path")) (object_shape (field req rs_params))
   ++ map (fun kv => (fst kv, "query")) (object_shape (field req rs_query))
   ++ map (fun kv => (fst kv, "header")) (object_shape (field req rs_headers)))%list.

(** A parameter object for this name and location. *)
Definition is_parameter (slot : string * string) (p : Json) : Prop :=
  json_get p "name" = Some (JStr (fst slot))
  /\ json_get p "in" = Some (JStr (snd slot))
  /\ json_get p "required" = Some (JBool (snd slot =? "path"))
  /\ exists converted, json_get p "schema" = Some (JObj converted).

(** ** The paths object, described *)




(** ** Calls and routers, described *)

Definition is_next (e : Event) : Prop := exists err, e = Next err.

(** [router.route(d1).route(d2)...]: the definitions routed one after the
    other. *)
Definition route_all (self : TypedRouter) (defs : list RouteDefinition)
    (st : Store) : Store :=
  fold_left (fun s def => fst (route self def s)) defs st.

(** ** The example controllers *)

(** A JavaScript [Map] with string keys: entries in insertion order, one
    per key.  [get] and [set] are those of [Obj]. *)
Fixpoint map_delete {A} (m : Obj.t A) (k : string) : Obj.t A :=
  match m with
  | [] => []
  | (k', v) :: rest =>
      if k' =? k then map_delete rest k else (k', v) :: map_delete rest k
  end.

(** [String(n)] for a natural number. *)
Definition string_of_nat (n : nat) : string :=
  NilZero.string_of_uint (Nat.to_uint n).

(** A value that may be missing or [null]. *)
Inductive Nullish (A : Type) : Type :=
| Missing
| Null
| Given (a : A).
Arguments Missing {A}.
Arguments Null {A}.
Arguments Given {A} a.

(** [a ?? b] *)
Definition coalesce {A} (a : Nullish A) (b : A) : A :=
  match a with
  | Given x => x
  | _ => b
  end.

Module AnimalController.

Record AnimalType : Type := mkAnimal {
  id : string;
  name : string;
  species : string;
  age : Z;
  owner : option string
}.

Record CreateAnimalBodyType : Type := mkCreateBody {
  create_name : string;
  create_species : string;
  create_age : Z;
  create_owner : option string
}.

Record UpdateAnimalBodyType : Type := mkUpdateBody {
  update_name : Nullish string;
  update_species : Nullish string;
  update_age : Nullish Z;
  update_owner : Nullish string
}.

(** What a handler returns: an animal, a list of animals, a message, or a
    message with the animal it is about. *)
Inductive Reply : Type :=
| Animal (a : AnimalType)
| Animals (l : list AnimalType)
| Message (message : string)
| MessageWith (message : string) (animal : AnimalType).

(** The module's [animals] map. *)
Definition Animals_map := Obj.t AnimalType.

(** The map as seeded when the module is loaded. *)
Definition seeded : Animals_map :=
  [("1", mkAnimal "1" "Buddy" "dog" 5 (Some "John"));
   ("2", mkAnimal "2" "Whiskers" "cat" 3 (Some "Sarah"));
   ("3", mkAnimal "3" "Tweety" "bird" 2 None)].

(** [getAnimals]: [user] is [req.user], [query_species] is
    [parsed.query.species]. *)
Definition getAnimals (user : option string) (query_species : option string)
    (animals : Animals_map) : Completion Reply :=
  match user with
  | None => Throw (JStr "TypeError")
  | Some userId =>
      let allAnimals := map snd animals in
      match str_truthy query_species with
      | Some wanted =>
          Normal (Animals (filter (fun a => species a =? wanted) allAnimals))
      | None => Normal (Animals allAnimals)
      end
  end.

Definition getAnimalById (params_id : string) (animals : Animals_map) : Reply :=
  match Obj.get animals params_id with
  | None => Message "Animal not found"
  | Some animal => Animal animal
  end.

Definition createAnimal (body : CreateAnimalBodyType) (animals : Animals_map)
    : Reply * Animals_map :=
  let id := string_of_nat (List.length animals + 1) in
  let newAnimal :=
    mkAnimal id (create_name body) (create_species body) (create_age body)
      (create_owner body) in
  (Animal newAnimal, Obj.set animals id newAnimal).

Definition updateAnimal (params_id : string) (body : UpdateAnimalBodyType)
    (animals : Animals_map) : Reply * Animals_map :=
  match Obj.get animals params_id with
  | None => (Message "Animal not found", animals)
  | Some existing =>
      let updated :=
        mkAnimal (id existing)
          (coalesce (update_name body) (name existing))
          (coalesce (update_species body) (species existing))
          (coalesce (update_age body) (age existing))
          (match update_owner body with
           | Given o => Some o
           | _ => owner existing
           end) in
      (Animal updated, Obj.set animals params_id updated)
  end.

Definition deleteAnimal (params_id : string) (animals : Animals_map)
    : Reply * Animals_map :=
  match Obj.get animals params_id with
  | None => (Message "Animal not found", animals)
  | Some animal =>
      (MessageWith "Animal deleted successfully" animal,
       map_delete animals params_id)
  end.

End AnimalController.

Module UserController.

Record UserType : Type := mkUser {
  id : string;
  name : string;
  email : string;
  status : string
}.

Record CreateUserBodyType : Type := mkCreateBody {
  create_name : string;
  create_email : string;
  create_status : Nullish string
}.

Record UpdateUserBodyType : Type := mkUpdateBody {
  update_name : Nullish string;
  update_email : Nullish string;
  update_status : Nullish string
}.

Inductive Reply : Type :=
| User (u : UserType)
| Message (message : string).

Definition Users_map := Obj.t UserType.

Definition getUserById (params_id : string) (users : Users_map) : Reply :=
  match Obj.get users params_id with
  | None => Message "User not found"
  | Some user => User user
  end.

Definition createUser (body : CreateUserBodyType) (users : Users_map)
    : Reply * Users_map :=
  let id := string_of_nat (List.length users + 1) in
  let newUser :=
    mkUser id (create_name body) (create_email body)
      (coalesce (create_status body) "active") in
  (User newUser, Obj.set users id newUser).

Definition updateUser (params_id : string) (body : UpdateUserBodyType)
    (users : Users_map) : Reply * Users_map :=
  match Obj.get users params_id with
  | None => (Message "User not found", users)
  | Some existing =>
      let updated :=
        mkUser (id existing)
          (coalesce (update_name body) (name existing))
          (coalesce (update_email body) (email existing))
          (coalesce (update_status body) (status existing)) in
      (User updated, Obj.set users params_id updated)
  end.

(** A request handled by the controller. *)
Inductive Call : Type :=
| Create (body : CreateUserBodyType)
| Update (params_id : string) (body : UpdateUserBodyType)
| Get (params_id : string).

Definition handle (c : Call) (users : Users_map) : Reply * Users_map :=
  match c with
  | Create body => createUser body users
  | Update params_id body => updateUser params_id body users
  | Get params_id => (getUserById params_id users, users)
  end.

(** The map after a sequence of requests, starting from the empty map the
    module is loaded with. *)
Definition after (calls : list Call) : Users_map :=
  fold_left (fun users c => snd (handle c users)) calls [].

End UserController.

(** ** Status codes and places, described *)

(** The integers that a JavaScript number holds exactly, up to
    [Number.MAX_SAFE_INTEGER]; [String] prints them in plain decimal. *)
Definition safe_integer (n : Z) : Prop :=
  (- (2 ^ 53 - 1) <= n <= 2 ^ 53 - 1)%Z.


(** ** Schemas without names *)

(** No schema in the tree carries a non-empty name. *)
Fixpoint unnamed (s : ZodType) : bool :=
  match str_truthy (openApi_name (meta s)) with
  | Some _ => false
  | None =>
      match s with
      | ZodArray _ t => unnamed t
      | ZodObject _ shape =>
          (fix fields (l : list (string * ZodType)) : bool :=
             match l with
             | [] => true
             | (_, v) :: rest => unnamed v && fields rest
             end) shape
      | ZodUnion _ options =>
          (fix opts (l : list ZodType) : bool :=
             match l with
             | [] => true
             | o :: rest => unnamed o && opts rest
             end) options
      | ZodOptional _ i | ZodNullable _ i | ZodDefault _ i | ZodEffects _ i =>
          unnamed i
      | _ => true
      end
  end.

(** The schemas a route's document entry is built from with the shared
    context: its body schema and its response schemas. *)
Definition documented_schema (r : RegisteredRoute) (s : ZodType) : Prop :=
  field (request r) rs_body = Some s \/ In s (map snd (responses r)).

(** * Properties *)

(** ** Plain objects *)

Section ObjFacts.
Context {A : Type}.
Implicit Types (o : Obj.t A) (k : string) (v : A).

Lemma get_set_same o k v : Obj.get (Obj.set o k v) k = Some v.
Proof.
  induction o as [|[k' v'] o IH]; simpl.
  - now rewrite String.eqb_refl.
  - destruct (k' =? k) eqn:E; simpl; rewrite E; auto.
Qed.

Lemma get_set_other o k k' v :
  k <> k' -> Obj.get (Obj.set o k v) k' = Obj.get o k'.
Proof.
  intros Hne. induction o as [|[k0 v0] o IH]; simpl.
  - destruct (k =? k') eqn:E; auto. apply String.eqb_eq in E. contradiction.
  - destruct (k0 =? k) eqn:E; simpl.
    + apply String.eqb_eq in E. subst k0.
      destruct (k =? k') eqn:E'; auto.
      apply String.eqb_eq in E'. contradiction.
    + now rewrite IH.
Qed.

Lemma keys_set_in o k v : In k (Obj.keys o) -> Obj.keys (Obj.set o k v) = Obj.keys o.
Proof.
  unfold Obj.keys. induction o as [|[k' v'] o IH]; simpl; [tauto|].
  intros [->|Hin].
  - now rewrite String.eqb_refl.
  - destruct (k' =? k) eqn:E; simpl; auto. now rewrite IH.
Qed.

Lemma keys_set_new o k v :
  ~ In k (Obj.keys o) -> Obj.keys (Obj.set o k v) = (Obj.keys o ++ [k])%list.
Proof.
  unfold Obj.keys. induction o as [|[k' v'] o IH]; simpl; auto.
  intros Hn. destruct (k' =? k) eqn:E.
  - apply String.eqb_eq in E. tauto.
  - simpl. rewrite IH; tauto.
Qed.

Lemma keys_set_nodup o k v :
  NoDup (Obj.keys o) -> NoDup (Obj.keys (Obj.set o k v)).
Proof.
  intros Hnd. destruct (in_dec string_dec k (Obj.keys o)) as [Hin|Hn].
  - now rewrite keys_set_in.
  - rewrite keys_set_new by assumption.
    apply NoDup_app; auto.
    + constructor; [simpl; tauto | constructor].
    + intros x Hx [<-|[]]. contradiction.
Qed.

Lemma in_keys_set o k v : In k (Obj.keys (Obj.set o k v)).
Proof.
  destruct (in_dec string_dec k (Obj.keys o)) as [Hin|Hn].
  - now rewrite keys_set_in.
  - rewrite keys_set_new by assumption. apply in_or_app. simpl. tauto.
Qed.

Lemma get_in_keys o k v : Obj.get o k = Some v -> In k (Obj.keys o).
Proof.
  unfold Obj.keys. induction o as [|[k' v'] o IH]; simpl; [discriminate|].
  destruct (k' =? k) eqn:E; auto.
  apply String.eqb_eq in E. auto.
Qed.

Lemma count_absent o k : ~ In k (Obj.keys o) -> Obj.count o k = 0.
Proof.
  unfold Obj.keys, Obj.count. induction o as [|[k' v'] o IH]; simpl; auto.
  intros Hn. destruct (k' =? k) eqn:E.
  - apply String.eqb_eq in E. tauto.
  - apply IH. tauto.
Qed.

Lemma count_nodup o k :
  NoDup (Obj.keys o) -> In k (Obj.keys o) -> Obj.count o k = 1.
Proof.
  unfold Obj.keys, Obj.count. induction o as [|[k' v'] o IH]; simpl; [tauto|].
  intros Hnd Hin. inversion Hnd as [|? ? Hnotin Hnd']; subst.
  destruct (k' =? k) eqn:E.
  - apply String.eqb_eq in E. subst k'. simpl.
    pose proof (count_absent o k Hnotin) as H0.
    unfold Obj.count in H0. now rewrite H0.
  - destruct Hin as [->|Hin]; [now rewrite String.eqb_refl in E|]. auto.
Qed.
End ObjFacts.

Lemma prop_truthy_get o k :
  prop_truthy o k = true -> exists v, Obj.get o k = Some v /\ js_truthy v = true.
Proof.
  unfold prop_truthy. destruct (Obj.get o k); [eauto | discriminate].
Qed.

(** ** Unwrapping descends *)

Lemma unwrap_loop_size s : forall n o d a,
  size (u_schema (unwrap_loop s n o d a)) <= size s.
Proof.
  induction s; intros; simpl; try lia;
    match goal with
    | IH : forall _ _ _ _, _ <= size ?i |- context [unwrap_loop ?i ?n ?o ?d ?a] =>
        specialize (IH n o d a); lia
    end.
Qed.

Lemma unwrap_size s : size (u_schema (unwrapZodType s)) <= size s.
Proof. apply unwrap_loop_size. Qed.

Lemma unwrap_loop_base s : forall n o d a,
  is_wrapper (u_schema (unwrap_loop s n o d a)) = false.
Proof. induction s; intros; simpl; auto. Qed.

Lemma unwrap_loop_strict s : forall n o d a,
  is_wrapper s = true -> size (u_schema (unwrap_loop s n o d a)) < size s.
Proof.
  destruct s; simpl; try discriminate; intros;
    match goal with
    | |- context [unwrap_loop ?i ?n ?o ?d ?a] =>
        pose proof (unwrap_loop_size i n o d a); lia
    end.
Qed.

Lemma callees_smaller b c : In c (callees b) -> size c < size b.
Proof.
  destruct b; simpl; try tauto.
  - intros [<-|[]]. lia.
  - induction shape as [|[k v] shape IH]; simpl; [tauto|].
    intros [<-|Hin].
    + pose proof (unwrap_size v). lia.
    + specialize (IH Hin). lia.
  - induction options as [|o options IH]; simpl; [tauto|].
    intros [<-|Hin]; [lia|]. specialize (IH Hin). lia.
Qed.

(** ** The [switch], for any conversion of the nested schemas *)

Section ConvertFacts.
Implicit Types (rec : ZodType -> Schemas -> option (Obj.t Json * Schemas)).

Lemma convert_shape_ext rec1 rec2 entries :
  (forall kv sc, In kv entries ->
     rec1 (u_schema (unwrapZodType (snd kv))) sc
     = rec2 (u_schema (unwrapZodType (snd kv))) sc) ->
  forall properties required sc,
    convert_shape rec1 entries properties required sc
    = convert_shape rec2 entries properties required sc.
Proof.
  induction entries as [|[k v] entries IH]; intros Hext ps rq sc; simpl; auto.
  pose proof (Hext (k, v) sc (or_introl eq_refl)) as E. simpl in E. rewrite E.
  destruct (rec2 _ sc) as [[r sc1]|]; auto.
  apply IH. intros kv sc' Hin. apply Hext. simpl; auto.
Qed.

Lemma convert_options_ext rec1 rec2 options :
  (forall o sc, In o options -> rec1 o sc = rec2 o sc) ->
  forall sc, convert_options rec1 options sc = convert_options rec2 options sc.
Proof.
  induction options as [|o options IH]; intros Hext sc; simpl; auto.
  rewrite (Hext o sc) by (simpl; auto).
  destruct (rec2 o sc) as [[r sc1]|]; auto.
  rewrite IH; auto. intros o' sc' Hin. apply Hext. simpl; auto.
Qed.

Lemma convert_base_ext rec1 rec2 b sc :
  (forall c sc', In c (callees b) -> rec1 c sc' = rec2 c sc') ->
  convert_base rec1 b sc = convert_base rec2 b sc.
Proof.
  intros Hext. destruct b; simpl in *; auto.
  - rewrite (Hext b sc); auto.
  - rewrite (convert_shape_ext rec1 rec2); auto.
    intros kv sc' Hin. apply Hext.
    apply (in_map (fun kv => u_schema (unwrapZodType (snd kv)))) in Hin. exact Hin.
  - rewrite (convert_options_ext rec1 rec2); auto.
Qed.

Lemma convert_shape_returns rec entries :
  (forall kv sc, In kv entries ->
     rec (u_schema (unwrapZodType (snd kv))) sc <> None) ->
  forall properties required sc,
    convert_shape rec entries properties required sc <> None.
Proof.
  induction entries as [|[k v] entries IH]; intros Hret ps rq sc; simpl.
  - discriminate.
  - destruct (rec (u_schema (unwrapZodType v)) sc) as [[r sc1]|] eqn:E.
    + apply IH. intros kv sc' Hin. apply Hret. simpl; auto.
    + exfalso. apply (Hret (k, v) sc); simpl; auto.
Qed.

Lemma convert_options_returns rec options :
  (forall o sc, In o options -> rec o sc <> None) ->
  forall sc, convert_options rec options sc <> None.
Proof.
  induction options as [|o options IH]; intros Hret sc; simpl.
  - discriminate.
  - destruct (rec o sc) as [[r sc1]|] eqn:E.
    + destruct (convert_options rec options sc1) as [[rs sc2]|] eqn:E'.
      * discriminate.
      * exfalso. apply (IH (fun o' sc' Hin => Hret o' sc' (or_intror Hin)) sc1 E').
    + exfalso. apply (Hret o sc); simpl; auto.
Qed.

Lemma convert_base_returns rec b sc :
  (forall c sc', In c (callees b) -> rec c sc' <> None) ->
  convert_base rec b sc <> None.
Proof.
  intros Hret. destruct b; simpl in *; try discriminate.
  - destruct (rec b sc) as [[r sc1]|] eqn:E; [discriminate|].
    exfalso. apply (Hret b sc); auto.
  - destruct (convert_shape rec shape [] [] sc) as [[[ps rq] sc1]|] eqn:E;
      [discriminate|].
    exfalso. revert E. apply convert_shape_returns.
    intros kv sc' Hin. apply Hret.
    apply (in_map (fun kv => u_schema (unwrapZodType (snd kv)))) in Hin. exact Hin.
  - destruct (convert_options rec options sc) as [[rs sc1]|] eqn:E;
      [discriminate|].
    exfalso. revert E. apply convert_options_returns. auto.
Qed.

(** Whatever every nested conversion does to the component table, as long
    as it composes, the whole [switch] does too. *)
Section Invariant.
Variable R : Schemas -> Schemas -> Prop.
Hypothesis R_refl : forall sc, R sc sc.
Hypothesis R_trans : forall a b c, R a b -> R b c -> R a c.
Variable rec : ZodType -> Schemas -> option (Obj.t Json * Schemas).
Variable among : ZodType -> Prop.
Hypothesis rec_R :
  forall c sc r sc', among c -> rec c sc = Some (r, sc') -> R sc sc'.

Lemma convert_shape_inv entries :
  (forall kv, In kv entries -> among (u_schema (unwrapZodType (snd kv)))) ->
  forall properties required sc ps rq sc',
    convert_shape rec entries properties required sc = Some (ps, rq, sc') ->
    R sc sc'.
Proof.
  induction entries as [|[k v] entries IH]; intros Ham ps0 rq0 sc ps rq sc' H;
    simpl in H.
  - inversion H; subst. apply R_refl.
  - destruct (rec _ sc) as [[r sc1]|] eqn:E; [|discriminate].
    apply R_trans with sc1.
    + eapply rec_R; [|exact E]. apply (Ham (k, v)). simpl; auto.
    + eapply IH; [|exact H]. intros kv Hin. apply Ham. simpl; auto.
Qed.

Lemma convert_options_inv options :
  (forall o, In o options -> among o) ->
  forall sc rs sc',
    convert_options rec options sc = Some (rs, sc') -> R sc sc'.
Proof.
  induction options as [|o options IH]; intros Ham sc rs sc' H; simpl in H.
  - inversion H; subst. apply R_refl.
  - destruct (rec o sc) as [[r sc1]|] eqn:E; [|discriminate].
    destruct (convert_options rec options sc1) as [[rs1 sc2]|] eqn:E';
      [|discriminate].
    inversion H; subst.
    apply R_trans with sc1.
    + eapply rec_R; [|exact E]. apply Ham. simpl; auto.
    + eapply IH; [|exact E']. intros o' Hin. apply Ham. simpl; auto.
Qed.

Lemma convert_base_inv b sc r sc' :
  (forall c, In c (callees b) -> among c) ->
  convert_base rec b sc = Some (r, sc') -> R sc sc'.
Proof.
  intros Ham H. destruct b; simpl in *;
    try (inversion H; subst; apply R_refl).
  - destruct (rec b sc) as [[items sc1]|] eqn:E; [|discriminate].
    inversion H; subst. eapply rec_R; [|exact E]. auto.
  - destruct (convert_shape rec shape [] [] sc) as [[[ps rq] sc1]|] eqn:E;
      [|discriminate].
    inversion H; subst. eapply convert_shape_inv; [|exact E].
    intros kv Hin. apply Ham.
    apply (in_map (fun kv => u_schema (unwrapZodType (snd kv)))) in Hin. exact Hin.
  - destruct (convert_options rec options sc) as [[rs sc1]|] eqn:E;
      [|discriminate].
    inversion H; subst. eapply convert_options_inv; [|exact E]. auto.
Qed.

(** Every nested schema is converted on the way, from a table that comes
    after the one the [switch] started with and before the one it ends
    with. *)
Lemma convert_shape_visits entries :
  (forall kv, In kv entries -> among (u_schema (unwrapZodType (snd kv)))) ->
  forall properties required sc ps rq sc',
    convert_shape rec entries properties required sc = Some (ps, rq, sc') ->
    forall kv, In kv entries ->
      exists sca r scb,
        rec (u_schema (unwrapZodType (snd kv))) sca = Some (r, scb)
        /\ R sc sca /\ R scb sc'.
Proof.
  induction entries as [|[k v] entries IH];
    intros Ham ps0 rq0 sc ps rq sc' H kv Hin; simpl in H.
  - contradiction.
  - destruct (rec _ sc) as [[r sc1]|] eqn:E; [|discriminate].
    assert (Ham' : forall kv', In kv' entries ->
              among (u_schema (unwrapZodType (snd kv')))).
    { intros kv' Hin'. apply Ham. simpl; auto. }
    assert (Hfirst : R sc sc1).
    { eapply rec_R; [|exact E]. apply (Ham (k, v)). simpl; auto. }
    assert (Hrest : R sc1 sc') by (eapply convert_shape_inv; eauto).
    destruct Hin as [<-|Hin].
    + exists sc, r, sc1. simpl. auto.
    + destruct (IH Ham' _ _ _ _ _ _ H kv Hin) as (sca & r' & scb & Hr & Ha & Hb).
      exists sca, r', scb. split; [exact Hr|].
      split; [eapply R_trans; eauto | exact Hb].
Qed.

Lemma convert_options_visits options :
  (forall o, In o options -> among o) ->
  forall sc rs sc',
    convert_options rec options sc = Some (rs, sc') ->
    forall o, In o options ->
      exists sca r scb, rec o sca = Some (r, scb) /\ R sc sca /\ R scb sc'.
Proof.
  induction options as [|o options IH]; intros Ham sc rs sc' H o' Hin;
    simpl in H.
  - contradiction.
  - destruct (rec o sc) as [[r sc1]|] eqn:E; [|discriminate].
    destruct (convert_options rec options sc1) as [[rs1 sc2]|] eqn:E';
      [|discriminate].
    inversion H; subst.
    assert (Ham' : forall o1, In o1 options -> among o1).
    { intros o1 Hin'. apply Ham. simpl; auto. }
    assert (Hfirst : R sc sc1).
    { eapply rec_R; [|exact E]. apply Ham. simpl; auto. }
    assert (Hrest : R sc1 sc') by (eapply convert_options_inv; eauto).
    destruct Hin as [<-|Hin].
    + exists sc, r, sc1. auto.
    + destruct (IH Ham' _ _ _ E' o' Hin) as (sca & r' & scb & Hr & Ha & Hb).
      exists sca, r', scb. split; [exact Hr|].
      split; [eapply R_trans; eauto | exact Hb].
Qed.

Lemma convert_base_visits b sc r sc' :
  (forall c, In c (callees b) -> among c) ->
  convert_base rec b sc = Some (r, sc') ->
  forall c, In c (callees b) ->
    exists sca r' scb, rec c sca = Some (r', scb) /\ R sc sca /\ R scb sc'.
Proof.
  intros Ham H c Hin. destruct b; simpl in *; try contradiction.
  - destruct Hin as [<-|[]].
    destruct (rec b sc) as [[items sc1]|] eqn:E; [|discriminate].
    inversion H; subst. exists sc, items, sc'. auto.
  - destruct (convert_shape rec shape [] [] sc) as [[[ps rq] sc1]|] eqn:E;
      [|discriminate].
    inversion H; subst.
    apply in_map_iff in Hin. destruct Hin as (kv & <- & Hkv).
    eapply convert_shape_visits; [|exact E|exact Hkv].
    intros kv' Hin'. apply Ham.
    apply (in_map (fun kv => u_schema (unwrapZodType (snd kv)))) in Hin'.
    exact Hin'.
  - destruct (convert_options rec options sc) as [[rs sc1]|] eqn:E;
      [|discriminate].
    inversion H; subst. eapply convert_options_visits; eauto.
Qed.
End Invariant.

(** The fragments of a union's options, in their order. *)
Lemma convert_options_spec rec options : forall sc rs sc',
  convert_options rec options sc = Some (rs, sc') ->
  List.length rs = List.length options
  /\ forall i o, nth_error options i = Some o ->
       exists sca r scb,
         rec o sca = Some (r, scb) /\ nth_error rs i = Some (JObj r).
Proof.
  induction options as [|o options IH]; intros sc rs sc' H; simpl in H.
  - inversion H; subst. split; [reflexivity|].
    intros [|i] o' Hi; discriminate.
  - destruct (rec o sc) as [[r sc1]|] eqn:E; [|discriminate].
    destruct (convert_options rec options sc1) as [[rs1 sc2]|] eqn:E';
      [|discriminate].
    inversion H; subst. destruct (IH _ _ _ E') as [Hlen Hnth].
    split; [simpl; now rewrite Hlen|].
    intros [|i] o' Hi; simpl in Hi.
    + inversion Hi; subst. exists sc, r, sc1. auto.
    + simpl. auto.
Qed.
End ConvertFacts.

(** ** The conversion returns *)

Lemma size_pos s : 1 <= size s.
Proof. destruct s; simpl; lia. Qed.

Lemma fuel_step fuel s context asComponent sc :
  zodToOpenApiSchema_fuel (S fuel) s context asComponent sc
  = let unwrapped := unwrapZodType s in
    match context, str_truthy (u_openApiName unwrapped), asComponent with
    | true, Some name, false =>
        match (if entry_truthy sc name then Some sc
               else match zodToOpenApiSchema_fuel fuel s context true sc with
                    | None => None
                    | Some (component, sc1) =>
                        Some (Obj.set sc1 name (JObj component))
                    end) with
        | None => None
        | Some sc2 =>
            Some (decorate (u_description unwrapped) (u_isNullable unwrapped)
                    [("$ref", JStr ("#/components/schemas/" ++ name))], sc2)
        end
    | _, _, _ =>
        match convert_base (fun c => zodToOpenApiSchema_fuel fuel c context false)
                (u_schema unwrapped) sc with
        | None => None
        | Some (result, sc1) =>
            Some (decorate (u_description unwrapped) (u_isNullable unwrapped)
                    result, sc1)
        end
    end.
Proof. reflexivity. Qed.

Lemma fuel_component_step fuel s context sc :
  zodToOpenApiSchema_fuel (S fuel) s context true sc
  = match convert_base (fun c => zodToOpenApiSchema_fuel fuel c context false)
            (u_schema (unwrapZodType s)) sc with
    | None => None
    | Some (result, sc1) =>
        Some (decorate (u_description (unwrapZodType s))
                (u_isNullable (unwrapZodType s)) result, sc1)
    end.
Proof.
  simpl. destruct context; [destruct (str_truthy _)|]; reflexivity.
Qed.

Lemma fuel_returns n : forall s, size s <= n ->
  forall asComponent fuel context sc,
    enough fuel s asComponent ->
    zodToOpenApiSchema_fuel fuel s context asComponent sc <> None.
Proof.
  induction n as [|n IH]; intros s Hs.
  { pose proof (size_pos s). lia. }
  assert (Hsub : forall fuel context sc,
            2 * size s <= fuel + 2 ->
            convert_base (fun c => zodToOpenApiSchema_fuel fuel c context false)
              (u_schema (unwrapZodType s)) sc <> None).
  { intros fuel context sc Hf. apply convert_base_returns.
    intros c sc' Hin. apply callees_smaller in Hin.
    pose proof (unwrap_size s).
    apply IH; [lia | unfold enough; lia]. }
  assert (Hcomp : forall fuel context sc,
            enough fuel s true ->
            zodToOpenApiSchema_fuel fuel s context true sc <> None).
  { intros fuel context sc Hf. unfold enough in Hf.
    pose proof (size_pos s).
    destruct fuel as [|fuel]; [lia|].
    rewrite fuel_component_step.
    specialize (Hsub fuel context sc ltac:(lia)).
    destruct (convert_base _ _ sc) as [[r sc1]|]; [discriminate | contradiction]. }
  intros [|] fuel context sc Hf; [now apply Hcomp|].
  unfold enough in Hf. pose proof (size_pos s).
  destruct fuel as [|fuel]; [lia|]. simpl.
  specialize (Hsub fuel context sc ltac:(lia)).
  specialize (Hcomp fuel context sc ltac:(unfold enough; lia)).
  destruct context; [destruct (str_truthy _) as [name|]|].
  - destruct (entry_truthy sc name); [discriminate|].
    destruct (zodToOpenApiSchema_fuel fuel s true true sc) as [[c sc1]|];
      [discriminate | contradiction].
  - destruct (convert_base _ _ sc) as [[r sc1]|]; [discriminate | contradiction].
  - destruct (convert_base _ _ sc) as [[r sc1]|]; [discriminate | contradiction].
Qed.

Lemma fuel_irrelevant n : forall s, size s <= n ->
  forall asComponent f1 f2 context sc,
    enough f1 s asComponent -> enough f2 s asComponent ->
    zodToOpenApiSchema_fuel f1 s context asComponent sc
    = zodToOpenApiSchema_fuel f2 s context asComponent sc.
Proof.
  induction n as [|n IH]; intros s Hs.
  { pose proof (size_pos s). lia. }
  assert (Hsub : forall f1 f2 context sc,
            2 * size s <= f1 + 2 -> 2 * size s <= f2 + 2 ->
            convert_base (fun c => zodToOpenApiSchema_fuel f1 c context false)
              (u_schema (unwrapZodType s)) sc
            = convert_base (fun c => zodToOpenApiSchema_fuel f2 c context false)
                (u_schema (unwrapZodType s)) sc).
  { intros f1 f2 context sc H1 H2. apply convert_base_ext.
    intros c sc' Hin. apply callees_smaller in Hin.
    pose proof (unwrap_size s).
    apply IH; [lia | unfold enough; lia | unfold enough; lia]. }
  assert (Hcomp : forall f1 f2 context sc,
            enough f1 s true -> enough f2 s true ->
            zodToOpenApiSchema_fuel f1 s context true sc
            = zodToOpenApiSchema_fuel f2 s context true sc).
  { intros f1 f2 context sc H1 H2. unfold enough in H1, H2.
    pose proof (size_pos s).
    destruct f1 as [|f1]; [lia|]. destruct f2 as [|f2]; [lia|].
    rewrite !fuel_component_step.
    now rewrite (Hsub f1 f2 context sc) by lia. }
  intros [|] f1 f2 context sc H1 H2; [now apply Hcomp|].
  unfold enough in H1, H2. pose proof (size_pos s).
  destruct f1 as [|f1]; [lia|]. destruct f2 as [|f2]; [lia|]. simpl.
  rewrite (Hsub f1 f2 context sc) by lia.
  rewrite (Hcomp f1 f2 context sc) by (unfold enough; lia).
  reflexivity.
Qed.

Lemma fuel_enough fuel s context asComponent sc :
  enough fuel s asComponent ->
  zodToOpenApiSchema_fuel fuel s context asComponent sc
  = zodToOpenApiSchema s context asComponent sc.
Proof.
  intros H. unfold zodToOpenApiSchema.
  apply (fuel_irrelevant (size s)); auto.
  unfold enough. destruct asComponent; lia.
Qed.

(** The defining equation of the conversion, free of the bound: this is the
    body of the source function, with its nested calls being calls of the
    function itself. *)
Lemma zodToOpenApiSchema_eq s context asComponent sc :
  zodToOpenApiSchema s context asComponent sc
  = let unwrapped := unwrapZodType s in
    match context, str_truthy (u_openApiName unwrapped), asComponent with
    | true, Some name, false =>
        match (if entry_truthy sc name then Some sc
               else match zodToOpenApiSchema s context true sc with
                    | None => None
                    | Some (component, sc1) =>
                        Some (Obj.set sc1 name (JObj component))
                    end) with
        | None => None
        | Some sc2 =>
            Some (decorate (u_description unwrapped) (u_isNullable unwrapped)
                    [("$ref", JStr ("#/components/schemas/" ++ name))], sc2)
        end
    | _, _, _ =>
        match convert_base (fun c => zodToOpenApiSchema c context false)
                (u_schema unwrapped) sc with
        | None => None
        | Some (result, sc1) =>
            Some (decorate (u_description unwrapped) (u_isNullable unwrapped)
                    result, sc1)
        end
    end.
Proof.
  pose proof (size_pos s) as Hpos.
  assert (Hsub : convert_base
                   (fun c => zodToOpenApiSchema_fuel (2 * size s - 1) c context false)
                   (u_schema (unwrapZodType s)) sc
                 = convert_base (fun c => zodToOpenApiSchema c context false)
                     (u_schema (unwrapZodType s)) sc).
  { apply convert_base_ext. intros c sc' Hin. apply callees_smaller in Hin.
    pose proof (unwrap_size s). apply fuel_enough. unfold enough. lia. }
  pose proof (fuel_enough (2 * size s - 1) s context true sc) as Hcomp.
  unfold zodToOpenApiSchema at 1.
  remember (2 * size s - 1) as f eqn:Ef.
  replace (2 * size s) with (S f) by lia.
  rewrite fuel_step. cbn zeta.
  rewrite Hsub, Hcomp by (unfold enough; lia).
  reflexivity.
Qed.

Lemma conversion_returns s context asComponent sc :
  exists r sc', zodToOpenApiSchema s context asComponent sc = Some (r, sc').
Proof.
  destruct (zodToOpenApiSchema s context asComponent sc) as [[r sc']|] eqn:E.
  - eauto.
  - exfalso. revert E. unfold zodToOpenApiSchema.
    apply (fuel_returns (size s)); auto.
    unfold enough. destruct asComponent; lia.
Qed.

(** C9.  For every schema value (a finite tree), [zodToOpenApiSchema]
    returns a result, whatever the context, the [asComponent] option and the
    state of the component table; any larger bound on the nesting of calls
    gives that same result.  The loop of [unwrapZodType] ends on a schema
    that is no wrapper and no larger than the one it started from, strictly
    smaller if that one is a wrapper, and every schema the [switch] converts
    in turn (array element, unwrapped object field, union option) is
    strictly smaller than the schema being converted. *)
Theorem zodToOpenApiSchema_returns :
  forall (s : ZodType) (context asComponent : bool) (sc : Schemas),
    (exists r sc', zodToOpenApiSchema s context asComponent sc = Some (r, sc'))
    /\ (forall fuel, 2 * size s <= fuel ->
          zodToOpenApiSchema_fuel fuel s context asComponent sc
          = zodToOpenApiSchema s context asComponent sc)
    /\ is_wrapper (u_schema (unwrapZodType s)) = false
    /\ size (u_schema (unwrapZodType s)) <= size s
    /\ (is_wrapper s = true -> size (u_schema (unwrapZodType s)) < size s)
    /\ (forall c, In c (callees (u_schema (unwrapZodType s))) -> size c < size s).
Proof.
  intros s context asComponent sc. repeat split.
  - apply conversion_returns.
  - intros fuel Hf. apply fuel_enough. unfold enough. destruct asComponent; lia.
  - apply unwrap_loop_base.
  - apply unwrap_size.
  - apply unwrap_loop_strict.
  - intros c Hin. apply callees_smaller in Hin.
    pose proof (unwrap_size s). lia.
Qed.

(** ** Unsupported kinds *)

Lemma decorate_empty d n : decorate d n [] = annotations d n.
Proof.
  unfold decorate, annotations.
  destruct (str_truthy d), n; reflexivity.
Qed.

(** C5, as stated, fails: a nullable schema of an unsupported kind converts
    to [{nullable: true}], not to [{}]. *)
Lemma unsupported_kind_not_always_empty :
  ~ (forall s context asComponent sc,
       supported_kind (u_schema (unwrapZodType s)) = false ->
       exists sc', zodToOpenApiSchema s context asComponent sc = Some ([], sc')).
Proof.
  intros H.
  destruct (H (ZodNullable no_meta (ZodOther no_meta ZodAny)) false false []
              eq_refl) as [sc' E].
  vm_compute in E. discriminate.
Qed.

(** C5, amended.  For every schema whose unwrapped kind is not a supported
    one the conversion returns, and never fails: when the schema is emitted
    as a reference (a context is given, a non-empty name was found and the
    call is not the one building the component) the result is the reference;
    otherwise it is the empty fragment with [description] added when a
    non-empty description was found and [nullable: true] added when a
    nullable wrapper was crossed, the component table being left as it was.
    It is [{}] exactly when neither of the two is added. *)
Theorem unsupported_kind_fragment :
  forall (s : ZodType) (context asComponent : bool) (sc : Schemas),
    supported_kind (u_schema (unwrapZodType s)) = false ->
    let u := unwrapZodType s in
    match context, str_truthy (u_openApiName u), asComponent with
    | true, Some name, false =>
        exists sc',
          zodToOpenApiSchema s context asComponent sc
          = Some (decorate (u_description u) (u_isNullable u)
                    [("$ref", JStr ("#/components/schemas/" ++ name))], sc')
    | _, _, _ =>
        zodToOpenApiSchema s context asComponent sc
        = Some (annotations (u_description u) (u_isNullable u), sc)
        /\ (annotations (u_description u) (u_isNullable u) = [] <->
            str_truthy (u_description u) = None /\ u_isNullable u = false)
    end.
Proof.
  intros s context asComponent sc Hk u.
  assert (Hbase : forall rec sc0, convert_base rec (u_schema u) sc0 = Some ([], sc0)).
  { intros rec sc0. subst u.
    pose proof (unwrap_loop_base s false false (def_description (meta s))
                  (openApi_name (meta s))) as Hw.
    fold (unwrapZodType s) in Hw.
    destruct (u_schema (unwrapZodType s)); simpl in *; try discriminate; auto. }
  assert (Hann : annotations (u_description u) (u_isNullable u) = [] <->
                 str_truthy (u_description u) = None /\ u_isNullable u = false).
  { unfold annotations.
    destruct (str_truthy (u_description u)), (u_isNullable u); simpl; split;
      try discriminate; intuition discriminate. }
  assert (Hcomp : forall c, zodToOpenApiSchema s c true sc
            = Some (annotations (u_description u) (u_isNullable u), sc)).
  { intros c. rewrite zodToOpenApiSchema_eq. cbn zeta. fold u.
    rewrite Hbase, decorate_empty.
    destruct c; [destruct (str_truthy (u_openApiName u))|]; reflexivity. }
  destruct context; [destruct (str_truthy (u_openApiName u)) as [name|] eqn:En;
                     [destruct asComponent|]|].
  - split; auto.
  - rewrite zodToOpenApiSchema_eq. cbn zeta. fold u. rewrite En.
    destruct (entry_truthy sc name); [eauto|].
    rewrite Hcomp. eauto.
  - split; auto. rewrite zodToOpenApiSchema_eq. cbn zeta. fold u.
    rewrite En, Hbase, decorate_empty. reflexivity.
  - split; auto. rewrite zodToOpenApiSchema_eq. cbn zeta. fold u.
    rewrite Hbase, decorate_empty. reflexivity.
Qed.

Lemma unsupported_kind_fragment_witness :
  zodToOpenApiSchema (ZodOther no_meta ZodDate) false false [] = Some ([], [])
  /\ (annotations None false = [] <->
      str_truthy None = None /\ false = false).
Proof.
  exact (unsupported_kind_fragment (ZodOther no_meta ZodDate) false false []
           eq_refl).
Defined.

(** ** Objects *)

Lemma convert_shape_spec rec entries :
  forall properties required sc ps rq sc',
    convert_shape rec entries properties required sc = Some (ps, rq, sc') ->
    rq = (required ++ map fst (filter is_required entries))%list
    /\ (forall k, ~ In k (map fst entries) -> Obj.get ps k = Obj.get properties k)
    /\ (forall k, In k (map fst entries) ->
          exists v r sc1 sc2,
            In (k, v) entries
            /\ rec (u_schema (unwrapZodType v)) sc1 = Some (r, sc2)
            /\ Obj.get ps k = Some (property_of v r)).
Proof.
  induction entries as [|[k v] entries IH]; intros ps0 rq0 sc ps rq sc' H;
    simpl in H.
  - inversion H; subst. rewrite app_nil_r. repeat split; auto.
    intros k [].
  - destruct (rec (u_schema (unwrapZodType v)) sc) as [[r sc1]|] eqn:E;
      [|discriminate].
    apply IH in H. destruct H as (Hrq & Hout & Hin).
    split; [|split].
    + rewrite Hrq. simpl. unfold is_required at 2. simpl.
      destruct (u_isOptional (unwrapZodType v)); simpl; auto.
      now rewrite <- app_assoc.
    + intros k' Hn. simpl in Hn. rewrite Hout by tauto.
      apply get_set_other. tauto.
    + intros k' Hk. simpl in Hk.
      destruct (in_dec string_dec k' (map fst entries)) as [Hi|Hni].
      * destruct (Hin k' Hi) as (v' & r' & sc1' & sc2' & Hv & Hr & Hg).
        exists v', r', sc1', sc2'. simpl. auto.
      * destruct Hk as [<-|Hk]; [|contradiction].
        exists v, r, sc, sc1. simpl. repeat split; auto.
        rewrite Hout by assumption. apply get_set_same.
Qed.




(** ** The component table *)

Lemma preserves_refl sc : preserves sc sc.
Proof. intros k _. reflexivity. Qed.

Lemma preserves_truthy sc sc' k :
  preserves sc sc' -> prop_truthy sc k = true -> prop_truthy sc' k = true.
Proof.
  intros Hp Hk. unfold prop_truthy. rewrite (Hp k Hk). exact Hk.
Qed.

Lemma preserves_trans a b c : preserves a b -> preserves b c -> preserves a c.
Proof.
  intros Hab Hbc k Hk. rewrite <- (Hab k Hk).
  apply Hbc. eapply preserves_truthy; eauto.
Qed.

Lemma preserves_set sc sc1 name v :
  prop_truthy sc name = false -> preserves sc sc1 ->
  preserves sc (Obj.set sc1 name v).
Proof.
  intros Hf Hp k Hk. rewrite get_set_other; auto.
  intros ->. congruence.
Qed.

Lemma extends_refl sc : extends sc sc.
Proof. split; [apply preserves_refl | auto]. Qed.

Lemma extends_trans a b c : extends a b -> extends b c -> extends a c.
Proof.
  intros [Hab Hab'] [Hbc Hbc']. split; [eapply preserves_trans; eauto | auto].
Qed.

Lemma extends_set sc sc1 name v :
  prop_truthy sc name = false -> extends sc sc1 ->
  extends sc (Obj.set sc1 name v).
Proof.
  intros Hf [Hp Hk]. split; [now apply preserves_set|].
  unfold well_keyed in *. intros Hw. apply keys_set_nodup. auto.
Qed.

(** The guard of the registration reads an own entry when there is one. *)
Lemma entry_falsy sc name :
  entry_truthy sc name = false -> prop_truthy sc name = false.
Proof.
  unfold entry_truthy, prop_truthy. destruct (Obj.get sc name); auto.
Qed.

Lemma entry_of_own_name sc name :
  inherited name = false -> entry_truthy sc name = prop_truthy sc name.
Proof.
  intros Hown. unfold entry_truthy, prop_truthy.
  destruct (Obj.get sc name); auto.
Qed.

Lemma entry_registered sc name :
  prop_truthy sc name = true -> entry_truthy sc name = true.
Proof.
  unfold entry_truthy, prop_truthy. destruct (Obj.get sc name); auto.
  discriminate.
Qed.

Lemma entry_inherited sc name :
  inherited name = true -> Obj.get sc name = None ->
  entry_truthy sc name = true.
Proof. unfold entry_truthy. now intros -> ->. Qed.

Lemma fuel_extends fuel : forall s context asComponent sc r sc',
  zodToOpenApiSchema_fuel fuel s context asComponent sc = Some (r, sc') ->
  extends sc sc'.
Proof.
  induction fuel as [|fuel IH]; intros s context asComponent sc r sc' H;
    [discriminate|].
  rewrite fuel_step in H. cbn zeta in H.
  assert (Hbase : forall r1 sc1,
            convert_base (fun c => zodToOpenApiSchema_fuel fuel c context false)
              (u_schema (unwrapZodType s)) sc = Some (r1, sc1) ->
            extends sc sc1).
  { intros r1 sc1 E.
    eapply (convert_base_inv extends extends_refl extends_trans _ (fun _ => True));
      [| |exact E]; auto.
    intros c sc0 r0 sc0' _ Hc. cbv beta in Hc. eapply IH; exact Hc. }
  destruct context; [destruct (str_truthy _) as [name|]; [destruct asComponent|]|].
  - destruct (convert_base _ _ sc) as [[r1 sc1]|] eqn:E; [|discriminate].
    inversion H; subst. eauto.
  - destruct (entry_truthy sc name) eqn:Hn.
    + inversion H; subst. apply extends_refl.
    + destruct (zodToOpenApiSchema_fuel fuel s true true sc) as [[c sc1]|] eqn:E;
        [|discriminate].
      inversion H; subst. apply extends_set; eauto using entry_falsy.
  - destruct (convert_base _ _ sc) as [[r1 sc1]|] eqn:E; [|discriminate].
    inversion H; subst. eauto.
  - destruct (convert_base _ _ sc) as [[r1 sc1]|] eqn:E; [|discriminate].
    inversion H; subst. eauto.
Qed.

Lemma conversion_extends s context asComponent sc r sc' :
  zodToOpenApiSchema s context asComponent sc = Some (r, sc') -> extends sc sc'.
Proof. apply fuel_extends. Qed.

Lemma fuel_no_context fuel : forall s asComponent sc r sc',
  zodToOpenApiSchema_fuel fuel s false asComponent sc = Some (r, sc') -> sc' = sc.
Proof.
  induction fuel as [|fuel IH]; intros s asComponent sc r sc' H; [discriminate|].
  rewrite fuel_step in H. cbn zeta in H.
  destruct (convert_base _ _ sc) as [[r1 sc1]|] eqn:E; [|discriminate].
  inversion H; subst. symmetry.
  eapply (convert_base_inv eq (@eq_refl _) (@eq_trans _) _ (fun _ => True));
    [| |exact E]; auto.
  intros c sc0 r0 sc0' _ Hc. cbv beta in Hc. symmetry. eapply IH; exact Hc.
Qed.

Lemma named_conversion s name sc :
  str_truthy (u_openApiName (unwrapZodType s)) = Some name ->
  exists sc',
    zodToOpenApiSchema s true false sc = Some (use_site s name, sc')
    /\ extends sc sc'
    /\ (entry_truthy sc name = true -> sc' = sc)
    /\ (entry_truthy sc name = false ->
        exists component sc1,
          zodToOpenApiSchema s true true sc = Some (component, sc1)
          /\ sc' = Obj.set sc1 name (JObj component))
    /\ (inherited name = false -> prop_truthy sc' name = true).
Proof.
  intros Hname. rewrite zodToOpenApiSchema_eq. cbn zeta. rewrite Hname.
  destruct (entry_truthy sc name) eqn:Hn.
  - exists sc. split; [reflexivity|].
    split; [apply extends_refl|]. split; [reflexivity|].
    split; [discriminate|].
    intros Hown. now rewrite <- (entry_of_own_name sc name Hown).
  - destruct (conversion_returns s true true sc) as (component & sc1 & E).
    rewrite E. exists (Obj.set sc1 name (JObj component)).
    split; [reflexivity|]. split; [|split; [|split]].
    + apply extends_set; [now apply entry_falsy|].
      eapply conversion_extends; eauto.
    + discriminate.
    + eauto.
    + intros _. unfold prop_truthy. now rewrite get_set_same.
Qed.

(** Every component the emitted fragment refers to is in the table once the
    conversion has returned, at whatever depth the reference is. *)
Lemma fuel_registers fuel : forall s asComponent sc r sc' name,
  zodToOpenApiSchema_fuel fuel s true asComponent sc = Some (r, sc') ->
  inherited name = false ->
  (if asComponent then body_refers s name else refers s name) ->
  registered sc' name.
Proof.
  induction fuel as [|fuel IH];
    intros s asComponent sc r sc' name H Hown Href; [discriminate|].
  rewrite fuel_step in H. cbn zeta in H.
  assert (Hbody : forall r1 sc1,
            convert_base (fun c => zodToOpenApiSchema_fuel fuel c true false)
              (u_schema (unwrapZodType s)) sc = Some (r1, sc1) ->
            body_refers s name -> registered sc1 name).
  { intros r1 sc1 E (c & Hc & Hr).
    destruct (convert_base_visits extends extends_refl extends_trans
                (fun c => zodToOpenApiSchema_fuel fuel c true false)
                (fun _ => True)
                (fun c0 sc0 r0 sc0' _ Hc0 => fuel_extends fuel c0 true false sc0 r0 sc0' Hc0)
                _ _ _ _ (fun _ _ => I) E c Hc)
      as (sca & r' & scb & Hrec & _ & Hb).
    eapply preserves_truthy; [apply Hb|].
    eapply (IH c false); eauto. }
  destruct (str_truthy (u_openApiName (unwrapZodType s))) as [name0|] eqn:En;
    [destruct asComponent|].
  - destruct (convert_base _ _ sc) as [[r1 sc1]|] eqn:E; [|discriminate].
    inversion H; subst. eapply Hbody; eauto.
  - inversion Href as [s0 n0 Hn|s0 c n0 Hnone]; subst; [|congruence].
    unfold named in Hn. rewrite En in Hn. inversion Hn; subst name0.
    destruct (entry_truthy sc name) eqn:Ht.
    + inversion H; subst. unfold registered.
      now rewrite <- (entry_of_own_name sc' name Hown).
    + destruct (zodToOpenApiSchema_fuel fuel s true true sc) as [[c sc1]|];
        [|discriminate].
      inversion H; subst. unfold registered, prop_truthy.
      now rewrite get_set_same.
  - destruct (convert_base _ _ sc) as [[r1 sc1]|] eqn:E; [|discriminate].
    inversion H; subst. eapply Hbody; eauto.
    destruct asComponent; [exact Href|].
    inversion Href as [s0 n0 Hn|s0 c n0 Hnone Hc Hr]; subst.
    + unfold named in Hn. congruence.
    + exists c. auto.
Qed.

Lemma conversion_registers s asComponent sc r sc' name :
  zodToOpenApiSchema s true asComponent sc = Some (r, sc') ->
  inherited name = false ->
  (if asComponent then body_refers s name else refers s name) ->
  registered sc' name.
Proof. apply fuel_registers. Qed.

(** Decorating a fragment touches its description and nullability only. *)
Lemma decorate_other d n r k :
  k <> "description" -> k <> "nullable" ->
  Obj.get (decorate d n r) k = Obj.get r k.
Proof.
  intros Hd Hn. unfold decorate.
  destruct (str_truthy d); destruct n;
    rewrite ?get_set_other by congruence; reflexivity.
Qed.

Lemma unique_field (shape : list (string * ZodType)) k v v' :
  NoDup (map fst shape) -> In (k, v) shape -> In (k, v') shape -> v = v'.
Proof.
  induction shape as [|[k0 v0] shape IH]; simpl; [tauto|].
  intros Hnd H H'. inversion Hnd as [|? ? Hnotin Hnd']; subst.
  destruct H as [H|H], H' as [H'|H'].
  - congruence.
  - inversion H; subst. exfalso. apply Hnotin.
    apply (in_map fst) in H'. exact H'.
  - inversion H'; subst. exfalso. apply Hnotin.
    apply (in_map fst) in H. exact H.
  - auto.
Qed.

(** Where a schema is emitted in full, the schemas nested in it are
    converted with the same context, and a named one leaves its
    reference. *)
Lemma nested_use_sites s asComponent sc r sc' :
  emitted_in_full s asComponent ->
  zodToOpenApiSchema s true asComponent sc = Some (r, sc') ->
  match u_schema (unwrapZodType s) with
  | ZodArray _ t =>
      forall name, named t name ->
        Obj.get r "items" = Some (JObj (use_site t name))
  | ZodUnion _ options =>
      exists rs,
        Obj.get r "oneOf" = Some (JArr rs)
        /\ List.length rs = List.length options
        /\ forall i o name,
             nth_error options i = Some o -> named o name ->
             nth_error rs i = Some (JObj (use_site o name))
  | ZodObject _ shape =>
      exists properties,
        Obj.get r "properties" = Some (JObj properties)
        /\ forall k v name,
             NoDup (map fst shape) -> In (k, v) shape ->
             k <> "__proto__" ->
             named (u_schema (unwrapZodType v)) name ->
             Obj.get properties k
             = Some (property_of v
                       (use_site (u_schema (unwrapZodType v)) name))
  | _ => True
  end.
Proof.
  intros Hfull H. rewrite zodToOpenApiSchema_eq in H. cbn zeta in H.
  assert (Hb : exists r1,
            convert_base (fun c => zodToOpenApiSchema c true false)
              (u_schema (unwrapZodType s)) sc = Some (r1, sc')
            /\ r = decorate (u_description (unwrapZodType s))
                     (u_isNullable (unwrapZodType s)) r1).
  { destruct (str_truthy (u_openApiName (unwrapZodType s))) as [name0|] eqn:En.
    - destruct asComponent.
      + destruct (convert_base _ _ sc) as [[r1 sc1]|]; [|discriminate].
        inversion H; subst. eauto.
      + destruct Hfull as [?|?]; congruence.
    - destruct (convert_base _ _ sc) as [[r1 sc1]|]; [|discriminate].
      inversion H; subst. eauto. }
  destruct Hb as (r1 & Hb & ->). clear H.
  assert (Hnamed : forall c name sca rc scb,
            named c name ->
            zodToOpenApiSchema c true false sca = Some (rc, scb) ->
            rc = use_site c name).
  { intros c name sca rc scb Hn Hc.
    destruct (named_conversion c name sca Hn) as (sc2 & E & _).
    congruence. }
  destruct (u_schema (unwrapZodType s)); simpl in Hb; auto.
  - destruct (zodToOpenApiSchema z true false sc) as [[items sc1]|] eqn:E;
      [|discriminate].
    inversion Hb; subst. intros name Hn.
    rewrite decorate_other by discriminate. simpl.
    now rewrite (Hnamed _ _ _ _ _ Hn E).
  - destruct (convert_shape _ shape [] [] sc) as [[[ps rq] sc1]|] eqn:E;
      [|discriminate].
    inversion Hb; subst. exists ps.
    split; [rewrite decorate_other by discriminate; reflexivity|].
    intros k v name Hnd Hin _ Hn.
    pose proof (convert_shape_spec _ _ _ _ _ _ _ _ E) as (_ & _ & Hfields).
    destruct (Hfields k) as (v' & rc & sca & scb & Hin' & Hc & Hget).
    { apply (in_map fst) in Hin. exact Hin. }
    pose proof (unique_field shape k v v' Hnd Hin Hin') as Hv. subst v'.
    rewrite Hget. do 2 f_equal.
    exact (Hnamed _ _ _ _ _ Hn Hc).
  - destruct (convert_options _ options sc) as [[rs sc1]|] eqn:E;
      [|discriminate].
    inversion Hb; subst. exists rs.
    split; [rewrite decorate_other by discriminate; reflexivity|].
    destruct (convert_options_spec _ _ _ _ _ E) as [Hlen Hnth].
    split; [exact Hlen|].
    intros i o name Hi Hn.
    destruct (Hnth i o Hi) as (sca & rc & scb & Hc & Hget).
    rewrite Hget. do 2 f_equal. exact (Hnamed _ _ _ _ _ Hn Hc).
Qed.

(** ** Generation, route by route *)

Lemma conversion_with_context s sc :
  exists r sc',
    zodToOpenApiSchema s true false sc = Some (r, sc')
    /\ extends sc sc'
    /\ (forall name, refers s name -> inherited name = false ->
          registered sc' name).
Proof.
  destruct (conversion_returns s true false sc) as (r & sc' & E).
  exists r, sc'. split; [exact E|]. split; [eapply conversion_extends; eauto|].
  intros name Hn Hown.
  exact (conversion_registers s false sc r sc' name E Hown Hn).
Qed.

Lemma build_responses_spec entries : forall acc sc,
  exists acc' sc',
    build_responses entries acc sc = Some (acc', sc')
    /\ extends sc sc'
    /\ (forall s name, In s (map snd entries) -> refers s name ->
          inherited name = false -> registered sc' name).
Proof.
  induction entries as [|[status schema] entries IH]; intros acc sc; simpl.
  - exists acc, sc. split; [reflexivity|]. split; [apply extends_refl|].
    intros s name [].
  - destruct (conversion_with_context schema sc) as (r & sc1 & E & Hext & Hreg).
    rewrite E.
    destruct (IH (Obj.set acc (status_key status)
                    (JObj [("description", JStr "Response");
                           ("content", json_content r)])) sc1)
      as (acc' & sc' & E' & Hext' & Hreg').
    exists acc', sc'. split; [exact E'|].
    split; [eapply extends_trans; eauto|].
    intros s name [<-|Hin] Hn Hown.
    + eapply preserves_truthy; [apply Hext'|]. apply Hreg; auto.
    + eapply Hreg'; eauto.
Qed.

Lemma shape_parameters_returns location required shape :
  shape_parameters location required shape <> None.
Proof.
  induction shape as [|[name schema] shape IH]; simpl; [discriminate|].
  destruct (conversion_returns schema false false []) as (r & sc' & E).
  rewrite E.
  destruct (shape_parameters location required shape); [discriminate | auto].
Qed.

Lemma buildParameters_returns req : buildParameters req <> None.
Proof.
  unfold buildParameters.
  destruct (shape_parameters "path" true _) as [ps1|] eqn:E1;
    [|now apply shape_parameters_returns in E1].
  destruct (shape_parameters "query" false _) as [ps2|] eqn:E2;
    [|now apply shape_parameters_returns in E2].
  destruct (shape_parameters "header" false _) as [ps3|] eqn:E3;
    [|now apply shape_parameters_returns in E3].
  destruct (ps1 ++ ps2 ++ ps3)%list; discriminate.
Qed.

Lemma set_operation_spec paths p m op :
  path_items paths ->
  let paths' :=
    set_operation
      (if prop_truthy paths p then paths else Obj.set paths p (JObj []))
      p m op in
  path_items paths'
  /\ has_operation paths' p m
  /\ (forall p' m', has_operation paths p' m' -> has_operation paths' p' m')
  /\ (forall k, In k (Obj.keys paths') -> In k (Obj.keys paths) \/ k = p).
Proof.
  intros Hitems paths'.
  assert (Hcur : exists item,
            Obj.get (if prop_truthy paths p then paths
                     else Obj.set paths p (JObj [])) p = Some (JObj item)
            /\ (forall m' op', (exists it, Obj.get paths p = Some (JObj it)
                                  /\ Obj.get it m' = Some op') ->
                               Obj.get item m' = Some op')
            /\ (forall k, In k (Obj.keys (if prop_truthy paths p then paths
                                          else Obj.set paths p (JObj []))) ->
                          In k (Obj.keys paths) \/ k = p)
            /\ (forall k, k <> p ->
                  Obj.get (if prop_truthy paths p then paths
                           else Obj.set paths p (JObj [])) k = Obj.get paths k)).
  { destruct (prop_truthy paths p) eqn:Ht.
    - apply prop_truthy_get in Ht. destruct Ht as (v & Hv & _).
      destruct (Hitems p v Hv) as (item & ->).
      exists item. repeat split; auto.
      intros m' op' (it & Hit & Hop). congruence.
    - exists []. rewrite get_set_same. repeat split; auto.
      + intros m' op' (it & Hit & Hop). exfalso.
        unfold prop_truthy in Ht. rewrite Hit in Ht. discriminate.
      + intros k Hk.
        destruct (in_dec string_dec p (Obj.keys paths)) as [Hi|Hni].
        * rewrite keys_set_in in Hk; auto.
        * rewrite keys_set_new in Hk by assumption.
          apply in_app_or in Hk. simpl in Hk. intuition.
      + intros k Hk. apply get_set_other. auto. }
  destruct Hcur as (item & Hget & Hops & Hkeys & Hother).
  subst paths'. unfold set_operation. rewrite Hget.
  set (paths1 := if prop_truthy paths p then paths else Obj.set paths p (JObj [])) in *.
  split; [|split; [|split]].
  - intros k v Hk. destruct (string_dec p k) as [<-|Hne].
    + rewrite get_set_same in Hk. inversion Hk. eauto.
    + rewrite get_set_other in Hk by assumption.
      rewrite Hother in Hk by auto. eauto.
  - exists (Obj.set item m op), op. rewrite !get_set_same. auto.
  - intros p' m' (it & op' & Hit & Hop).
    destruct (string_dec p p') as [<-|Hne].
    + destruct (string_dec m m') as [<-|Hm].
      * exists (Obj.set item m op), op. rewrite !get_set_same. auto.
      * exists (Obj.set item m op), op'. rewrite get_set_same.
        split; auto. rewrite get_set_other by assumption. apply Hops. eauto.
    + exists it, op'. rewrite get_set_other by assumption.
      rewrite Hother by auto. auto.
  - intros k Hk. rewrite keys_set_in in Hk; auto.
    eapply get_in_keys; eauto.
Qed.

Lemma build_route_spec options r paths sc :
  path_items paths ->
  exists paths' sc',
    build_route options r paths sc = Some (paths', sc')
    /\ extends sc sc'
    /\ (forall s name,
          field (request r) rs_body = Some s \/ In s (map snd (responses r)) ->
          refers s name -> inherited name = false -> registered sc' name)
    /\ path_items paths'
    /\ has_operation paths' (documented_path options r) (method_name (method r))
    /\ (forall p m, has_operation paths p m -> has_operation paths' p m)
    /\ (forall k, In k (Obj.keys paths') ->
          In k (Obj.keys paths) \/ k = documented_path options r).
Proof.
  intros Hitems. unfold build_route. fold (documented_path options r).
  assert (Hbody : exists requestBody sc1,
            match field (request r) rs_body with
            | Some bodySchema =>
                match zodToOpenApiSchema bodySchema true false sc with
                | None => None
                | Some (converted, schemas1) =>
                    Some (JObj [("required", JBool true);
                                ("content", json_content converted)], schemas1)
                end
            | None => Some (JUndefined, sc)
            end = Some (requestBody, sc1)
            /\ extends sc sc1
            /\ (forall s name, field (request r) rs_body = Some s ->
                  refers s name -> inherited name = false ->
                  registered sc1 name)).
  { destruct (field (request r) rs_body) as [bodySchema|].
    - destruct (conversion_with_context bodySchema sc)
        as (c & sc1 & E & Hext & Hreg).
      rewrite E. eexists _, sc1. split; [reflexivity|]. split; auto.
      intros s name Hs. inversion Hs; subst. auto.
    - exists JUndefined, sc. split; [reflexivity|].
      split; [apply extends_refl | discriminate]. }
  destruct Hbody as (requestBody & sc1 & -> & Hext1 & Hreg1).
  destruct (buildParameters (request r)) as [parameters|] eqn:Ep;
    [|now apply buildParameters_returns in Ep].
  destruct (build_responses_spec (responses r) [] sc1)
    as (responseTable & sc2 & -> & Hext2 & Hreg2).
  eexists _, sc2. split; [reflexivity|].
  split; [eapply extends_trans; eauto|].
  split.
  { intros s name [Hb|Hr] Hn Hown.
    - eapply preserves_truthy; [apply Hext2|]. eapply Hreg1; eauto.
    - eapply Hreg2; eauto. }
  apply set_operation_spec. exact Hitems.
Qed.

Lemma build_routes_spec options rs : forall paths sc,
  path_items paths ->
  exists paths' sc',
    build_routes options rs paths sc = Some (paths', sc')
    /\ extends sc sc'
    /\ (forall r s name, In r rs ->
          field (request r) rs_body = Some s \/ In s (map snd (responses r)) ->
          refers s name -> inherited name = false -> registered sc' name)
    /\ (forall r, In r rs ->
          has_operation paths' (documented_path options r)
            (method_name (method r)))
    /\ (forall p m, has_operation paths p m -> has_operation paths' p m)
    /\ (forall k, In k (Obj.keys paths') ->
          In k (Obj.keys paths)
          \/ exists r, In r rs /\ k = documented_path options r).
Proof.
  induction rs as [|r rs IH]; intros paths sc Hitems; simpl.
  - exists paths, sc. split; [reflexivity|]. split; [apply extends_refl|].
    repeat split; auto; intros; contradiction.
  - destruct (build_route_spec options r paths sc Hitems)
      as (paths1 & sc1 & -> & Hext1 & Hreg1 & Hitems1 & Hop1 & Hkeep1 & Hkeys1).
    destruct (IH paths1 sc1 Hitems1)
      as (paths' & sc' & -> & Hext & Hreg & Hop & Hkeep & Hkeys).
    exists paths', sc'. split; [reflexivity|].
    split; [eapply extends_trans; eauto|].
    split; [|split; [|split]].
    + intros r0 s name [<-|Hin] Hs Hn Hown.
      * eapply preserves_truthy; [apply Hext|]. eapply Hreg1; eauto.
      * eapply Hreg; eauto.
    + intros r0 [<-|Hin]; auto.
    + auto.
    + intros k Hk. destruct (Hkeys k Hk) as [Hk1|(r0 & Hin & ->)].
      * destruct (Hkeys1 k Hk1) as [? | ->]; eauto.
      * eauto.
Qed.

Lemma build_document_spec options rs :
  exists doc ps sc,
    build_document options rs = Some doc
    /\ build_routes options rs [] [] = Some (ps, sc)
    /\ paths doc = ps
    /\ components doc = match sc with [] => None | _ :: _ => Some sc end
    /\ well_keyed sc.
Proof.
  unfold build_document.
  destruct (build_routes_spec options rs [] []) as (ps & sc & E & Hext & _).
  { intros k v H. discriminate. }
  rewrite E. eexists _, ps, sc. repeat split.
  apply Hext. constructor.
Qed.

Lemma registered_count sc name :
  well_keyed sc -> registered sc name -> Obj.count sc name = 1.
Proof.
  intros Hw Hr. apply prop_truthy_get in Hr. destruct Hr as (v & Hv & _).
  apply count_nodup; auto. eapply get_in_keys; eauto.
Qed.

(** C4, as stated, fails in two ways.  A schema named with [withSchemaName]
    and used as a path parameter is converted without the context; its use
    site gets the inlined fragment, not a [$ref], and the generated document
    has no component entry for it.  And a schema whose name is a property
    name of [Object.prototype], here [toString], is emitted as a [$ref] for
    which the table never gets an entry: the lookup that guards the
    registration finds the inherited function. *)
Lemma named_schema_without_component :
  (exists doc item op,
     build_document (mkOpenApiOptions "API" "1.0.0" None None)
       [route_with_named_parameter] = Some doc
     /\ named (withSchemaName (ZodString no_meta) "UserId") "UserId"
     /\ component_count doc "UserId" <> 1
     /\ components doc = None
     /\ Obj.get (paths doc) "/users/{id}" = Some (JObj item)
     /\ Obj.get item "get" = Some (JObj op)
     /\ Obj.get op "parameters"
        = Some (JArr [JObj [("name", JStr "id"); ("in", JStr "path");
                            ("required", JBool true);
                            ("schema", JObj [("type", JStr "string")])]]))
  /\ (exists doc item op,
        build_document (mkOpenApiOptions "API" "1.0.0" None None)
          [route_answering_toString] = Some doc
        /\ named (withSchemaName (ZodString no_meta) "toString") "toString"
        /\ component_count doc "toString" <> 1
        /\ components doc = None
        /\ Obj.get (paths doc) "/text" = Some (JObj item)
        /\ Obj.get item "get" = Some (JObj op)
        /\ Obj.get op "responses"
           = Some (JObj [("200",
                          JObj [("description", JStr "Response");
                                ("content",
                                 json_content (reference "toString"))])])).
Proof.
  split; eexists _, _, _; vm_compute; repeat split; discriminate.
Qed.

(** C4, amended.  A schema on which unwrapping finds a non-empty name,
    converted with the shared context, is emitted as
    [{$ref: '#/components/schemas/<name>'}] with its description and
    nullability, whatever the table holds.  Entries present when a
    conversion starts are never overwritten, and a name already registered
    leaves the table as it is.  When the name is none of those a plain
    object inherits, the table then holds exactly one, truthy, entry under
    it; if the name was not registered, that entry is the conversion of this
    very schema as a component, stored after the schemas nested in it have
    been converted, and no later conversion changes it.  When the name is an
    inherited one and the table has no entry of its own for it, nothing is
    registered.

    Where a schema is emitted in full (as a component, or because it has no
    name), the array element, the union options and the unwrapped object
    fields nested in it are converted with the same context, so that a named
    one among them leaves its reference there (under the field's key, which
    is taken not to be [__proto__]: assigning to that key sets no property);
    and every name the emitted fragment refers to, at whatever depth, has
    exactly one entry in the table when the conversion returns, unless it is
    an inherited name.

    So a generated document, of routes whose paths are no inherited names
    themselves, has exactly one component entry for every such name that a
    request body or response schema of its routes refers to, however many
    of them do.  Conversions without a context (path, query and header
    parameters) never touch the table. *)
Theorem named_schema_component :
  (forall s name sc,
     named s name -> well_keyed sc ->
     exists sc',
       zodToOpenApiSchema s true false sc = Some (use_site s name, sc')
       /\ preserves sc sc'
       /\ (registered sc name -> sc' = sc)
       /\ (inherited name = true -> Obj.get sc name = None -> sc' = sc)
       /\ (inherited name = false ->
           Obj.count sc' name = 1
           /\ registered sc' name
           /\ (prop_truthy sc name = false ->
               exists component sc1,
                 zodToOpenApiSchema s true true sc = Some (component, sc1)
                 /\ sc' = Obj.set sc1 name (JObj component)
                 /\ Obj.get sc' name = Some (JObj component))
           /\ (forall s2 context asComponent r2 sc2,
                 zodToOpenApiSchema s2 context asComponent sc' = Some (r2, sc2) ->
                 Obj.get sc2 name = Obj.get sc' name
                 /\ Obj.count sc2 name = 1)))
  /\ (forall s asComponent sc r sc',
        emitted_in_full s asComponent ->
        zodToOpenApiSchema s true asComponent sc = Some (r, sc') ->
        match u_schema (unwrapZodType s) with
        | ZodArray _ t =>
            forall name, named t name ->
              Obj.get r "items" = Some (JObj (use_site t name))
        | ZodUnion _ options =>
            exists rs,
              Obj.get r "oneOf" = Some (JArr rs)
              /\ List.length rs = List.length options
              /\ forall i o name,
                   nth_error options i = Some o -> named o name ->
                   nth_error rs i = Some (JObj (use_site o name))
        | ZodObject _ shape =>
            exists properties,
              Obj.get r "properties" = Some (JObj properties)
              /\ forall k v name,
                   NoDup (map fst shape) -> In (k, v) shape ->
                   k <> "__proto__" ->
                   named (u_schema (unwrapZodType v)) name ->
                   Obj.get properties k
                   = Some (property_of v
                             (use_site (u_schema (unwrapZodType v)) name))
        | _ => True
        end)
  /\ (forall s asComponent sc r sc' name,
        well_keyed sc ->
        zodToOpenApiSchema s true asComponent sc = Some (r, sc') ->
        (if asComponent then body_refers s name else refers s name) ->
        inherited name = false ->
        registered sc' name /\ Obj.count sc' name = 1)
  /\ (forall options rs,
        (forall r, In r rs -> inherited (documented_path options r) = false) ->
        exists doc,
          build_document options rs = Some doc
          /\ forall r s name,
               In r rs ->
               field (request r) rs_body = Some s
               \/ In s (map snd (responses r)) ->
               refers s name -> inherited name = false ->
               component_count doc name = 1
               /\ exists sc, components doc = Some sc /\ registered sc name)
  /\ (forall s asComponent sc r sc',
        zodToOpenApiSchema s false asComponent sc = Some (r, sc') -> sc' = sc).
Proof.
  split; [|split; [|split; [|split]]].
  - intros s name sc Hn Hw.
    destruct (named_conversion s name sc Hn)
      as (sc' & E & [Hpres Hkeys] & Hsame & Hnew & Hreg).
    exists sc'. split; [exact E|].
    assert (Hw' : well_keyed sc') by auto.
    split; [exact Hpres|].
    split; [intros Hr; apply Hsame; now apply entry_registered|].
    split; [intros Hi Hnone; apply Hsame; now apply entry_inherited|].
    intros Hown. specialize (Hreg Hown).
    split; [now apply registered_count|].
    split; [exact Hreg|].
    split.
    + intros Hf. rewrite <- (entry_of_own_name sc name Hown) in Hf.
      destruct (Hnew Hf) as (component & sc1 & Ec & ->).
      exists component, sc1. repeat split; auto. apply get_set_same.
    + intros s2 context asComponent r2 sc2 E2.
      apply conversion_extends in E2. destruct E2 as [Hp2 Hk2].
      split; [apply Hp2; exact Hreg|].
      apply registered_count; auto.
      eapply preserves_truthy; eauto.
  - intros s asComponent sc r sc'. apply nested_use_sites.
  - intros s asComponent sc r sc' name Hw E Href Hown.
    assert (Hreg : registered sc' name)
      by (eapply conversion_registers; eauto).
    split; [exact Hreg|].
    apply registered_count; auto.
    apply conversion_extends in E. now apply E.
  - intros options rs _.
    destruct (build_document_spec options rs)
      as (doc & ps & sc & Edoc & Er & _ & Ecomp & Hw).
    exists doc. split; [exact Edoc|].
    intros r s name Hin Hs Hn Hown.
    destruct (build_routes_spec options rs [] []) as (ps' & sc' & Er' & _ & Hreg & _).
    { intros k v H. discriminate. }
    rewrite Er in Er'. inversion Er'; subst ps' sc'.
    specialize (Hreg r s name Hin Hs Hn Hown).
    assert (Ecomp' : components doc = Some sc).
    { rewrite Ecomp. destruct sc; [discriminate | reflexivity]. }
    unfold component_count. rewrite Ecomp'.
    split; [now apply registered_count | eauto].
  - intros s asComponent sc r sc'. apply fuel_no_context.
Qed.

(** A response that is an array of users: the element is emitted as a
    reference, and the user gets its one entry in the table. *)
Lemma named_schema_component_witness :
  zodToOpenApiSchema (ZodArray no_meta (withSchemaName spec_example "User"))
    true false []
  = Some ([("type", JStr "array"); ("items", JObj (reference "User"))],
          [("User",
            JObj [("type", JStr "object");
                  ("properties",
                   JObj [("id", JObj [("type", JStr "string")]);
                         ("age", JObj [("type", JStr "number")])]);
                  ("required", JArr [JStr "id"])])])
  /\ Obj.get [("type", JStr "array"); ("items", JObj (reference "User"))]
       "items"
     = Some (JObj (use_site (withSchemaName spec_example "User") "User"))
  /\ registered
       [("User",
         JObj [("type", JStr "object");
               ("properties",
                JObj [("id", JObj [("type", JStr "string")]);
                      ("age", JObj [("type", JStr "number")])]);
               ("required", JArr [JStr "id"])])]
       "User"
  /\ Obj.count
       [("User",
         JObj [("type", JStr "object");
               ("properties",
                JObj [("id", JObj [("type", JStr "string")]);
                      ("age", JObj [("type", JStr "number")])]);
               ("required", JArr [JStr "id"])])]
       "User" = 1.
Proof.
  split; [reflexivity|]. split.
  - exact (proj1 (proj2 named_schema_component)
             (ZodArray no_meta (withSchemaName spec_example "User"))
             false [] _ _ (or_intror eq_refl) eq_refl "User" eq_refl).
  - exact (proj1 (proj2 (proj2 named_schema_component))
             (ZodArray no_meta (withSchemaName spec_example "User"))
             false [] _ _ "User" (NoDup_nil string) eq_refl
             (refers_nested
                (ZodArray no_meta (withSchemaName spec_example "User"))
                (withSchemaName spec_example "User") "User" eq_refl
                (or_introl eq_refl)
                (refers_by_name (withSchemaName spec_example "User") "User"
                   eq_refl))
             eq_refl).
Defined.

(** Two routes answer with different schemas that carry the same name: the
    component is the one of the first route. *)
Example first_use_wins :
  option_map components
    (build_document (mkOpenApiOptions "API" "1.0.0" None None)
       [mkRoute GET "/a" None
          [(200%Z, withSchemaName (ZodString no_meta) "Item")] None
          (fun _ _ r => (Normal JNull, r));
        mkRoute GET "/b" None
          [(200%Z, withSchemaName (ZodNumber no_meta) "Item")] None
          (fun _ _ r => (Normal JNull, r))])
  = Some (Some [("Item", JObj [("type", JStr "string")])]).
Proof. reflexivity. Qed.

(** A response that is an array of named objects, each holding a named
    field: both names get their entry, and both use sites their
    reference. *)
Example nested_names_are_registered :
  zodToOpenApiSchema
    (ZodArray no_meta
       (withSchemaName
          (ZodObject no_meta
             [("owner", withSchemaName (ZodString no_meta) "Owner")])
          "Animal"))
    true false []
  = Some ([("type", JStr "array"); ("items", JObj (reference "Animal"))],
          [("Owner", JObj [("type", JStr "string")]);
           ("Animal",
            JObj [("type", JStr "object");
                  ("properties", JObj [("owner", JObj (reference "Owner"))]);
                  ("required", JArr [JStr "owner"])])]).
Proof. reflexivity. Qed.

(** A schema nested in one of the same name is registered while the outer
    component is being built, and replaced when that component is stored. *)
Example nested_same_name :
  zodToOpenApiSchema
    (withSchemaName
       (ZodObject no_meta [("inner", withSchemaName (ZodString no_meta) "N")])
       "N")
    true false []
  = Some (reference "N",
          [("N",
            JObj [("type", JStr "object");
                  ("properties", JObj [("inner", JObj (reference "N"))]);
                  ("required", JArr [JStr "inner"])])]).
Proof. reflexivity. Qed.

(** An object field is converted from its unwrapped schema: a name that
    sits on the wrapper is not seen there, and the field is inlined. *)
Example named_wrapper_field :
  zodToOpenApiSchema
    (ZodObject no_meta
       [("owner",
         withSchemaName (ZodOptional no_meta (ZodString no_meta)) "Owner")])
    true false []
  = Some ([("type", JStr "object");
           ("properties", JObj [("owner", JObj [("type", JStr "string")])])],
          []).
Proof. reflexivity. Qed.

(** ** Path templates *)






Example path_with_parameters :
  expressPathToOpenApiPath "/api/users/:userId/posts/:postId"
  = "/api/users/{userId}/posts/{postId}".
Proof. reflexivity. Qed.

Example path_with_odd_colons :
  expressPathToOpenApiPath "/a/:b:c/:/d:/e" = "/a/{b:c}/:/d:/e".
Proof. reflexivity. Qed.


(** ** The router's route sequence *)

Lemma length_write st : forall a v, List.length (write st a v) = List.length st.
Proof.
  induction st as [|x st IH]; intros [|a] v; simpl; auto.
Qed.

Lemma read_write_same st : forall a v,
  a < List.length st -> read (write st a v) a = v.
Proof.
  unfold read. induction st as [|x st IH]; intros [|a] v H; simpl in *;
    try lia; auto.
  apply IH. lia.
Qed.

Lemma read_write_other st : forall a b v,
  a <> b -> read (write st a v) b = read st b.
Proof.
  unfold read. induction st as [|x st IH]; intros [|a] [|b] v H; simpl;
    auto; contradiction.
Qed.

Lemma read_alloc_old st v a :
  a < List.length st -> read (fst (alloc st v)) a = read st a.
Proof. intros H. unfold read, alloc. simpl. now apply app_nth1. Qed.

Lemma read_alloc_new st v : read (fst (alloc st v)) (snd (alloc st v)) = v.
Proof.
  unfold read, alloc. simpl. rewrite app_nth2 by lia.
  now rewrite Nat.sub_diag.
Qed.

Lemma register_routes_length parse rs : forall app,
  List.length (register_routes parse rs app) = List.length app + List.length rs.
Proof.
  unfold register_routes.
  induction rs as [|r rs IH]; intros app; simpl; [lia|].
  rewrite IH, length_app. simpl. lia.
Qed.

Lemma route_appends self def st :
  routes self < List.length st -> appends (route self def st) self st def.
Proof.
  intros H. unfold appends, route. simpl. repeat split.
  - now apply read_write_same.
  - apply length_write.
  - intros a Ha. apply read_write_other. auto.
Qed.

(** C8.  In a store where the router's array exists: [route] and each of
    [get], [post], [put], [patch] and [delete] append exactly one definition
    at the end of the route sequence, keep every earlier entry in its place,
    and return the router; [register] leaves the store as it is and installs
    one handler per route; [buildOpenApi] leaves the router's sequence as it
    is; [getRoutes] returns a fresh array holding the routes in registration
    order, and whatever is then written into that array, the router's own
    sequence stays the same. *)
Theorem routes_append_only :
  forall (self : TypedRouter) (st : Store),
    routes self < List.length st ->
    (forall def, appends (route self def st) self st def)
    /\ (forall p o,
          appends (get self p o st) self st
            (mkRoute GET p (opt_request o) (opt_responses o) (opt_meta o)
               (opt_handler o))
          /\ appends (post self p o st) self st
               (mkRoute POST p (opt_request o) (opt_responses o) (opt_meta o)
                  (opt_handler o))
          /\ appends (put self p o st) self st
               (mkRoute PUT p (opt_request o) (opt_responses o) (opt_meta o)
                  (opt_handler o))
          /\ appends (patch self p o st) self st
               (mkRoute PATCH p (opt_request o) (opt_responses o) (opt_meta o)
                  (opt_handler o))
          /\ appends (delete self p o st) self st
               (mkRoute DELETE p (opt_request o) (opt_responses o) (opt_meta o)
                  (opt_handler o)))
    /\ (forall def i r,
          nth_error (read st (routes self)) i = Some r ->
          nth_error (read (fst (route self def st)) (routes self)) i = Some r)
    /\ (forall parse app,
          fst (register parse self app st) = st
          /\ List.length (snd (register parse self app st))
             = List.length app + List.length (read st (routes self)))
    /\ (forall options,
          read (fst (buildOpenApi self options st)) (routes self)
          = read st (routes self)
          /\ snd (buildOpenApi self options st)
             = build_document options (read st (routes self)))
    /\ (let (st', copy) := getRoutes self st in
        copy <> routes self
        /\ read st' copy = read st (routes self)
        /\ read st' (routes self) = read st (routes self)
        /\ forall v, read (write st' copy v) (routes self)
                     = read st (routes self)).
Proof.
  intros self st Hvalid.
  split; [|split; [|split; [|split; [|split]]]].
  - intros def. now apply route_appends.
  - intros p o. repeat split; try (apply route_appends; assumption);
      try apply length_write;
      try (apply read_write_same; assumption);
      intros a Ha; apply read_write_other; auto.
  - intros def i r Hi.
    destruct (route_appends self def st Hvalid) as (_ & -> & _).
    rewrite nth_error_app1; auto.
    apply nth_error_Some. congruence.
  - intros parse app. unfold register. simpl.
    split; [reflexivity | apply register_routes_length].
  - intros options. unfold buildOpenApi, getRoutes.
    pose proof (read_alloc_old st (read st (routes self)) (routes self) Hvalid) as Ho.
    pose proof (read_alloc_new st (read st (routes self))) as Hn.
    destruct (alloc st (read st (routes self))) as [st' copy]. simpl in *.
    rewrite Ho, Hn. auto.
  - unfold getRoutes.
    pose proof (read_alloc_old st (read st (routes self)) (routes self) Hvalid) as Ho.
    pose proof (read_alloc_new st (read st (routes self))) as Hn.
    assert (Hc : snd (alloc st (read st (routes self))) <> routes self).
    { unfold alloc. simpl. lia. }
    destruct (alloc st (read st (routes self))) as [st' copy]. simpl in *.
    repeat split; auto.
    intros v. rewrite read_write_other; auto.
Qed.

Lemma routes_append_only_witness :
  appends (route (mkRouter 0) route_with_named_parameter [[]]) (mkRouter 0)
    [[]] route_with_named_parameter
  /\ (let (st', copy) := getRoutes (mkRouter 0) [[route_with_named_parameter]] in
      copy <> 0
      /\ read st' copy = [route_with_named_parameter]
      /\ read st' 0 = [route_with_named_parameter]
      /\ forall v, read (write st' copy v) 0 = [route_with_named_parameter]).
Proof.
  split.
  - exact (proj1 (routes_append_only (mkRouter 0) [[]] (Nat.lt_0_succ 0))
             route_with_named_parameter).
  - exact (proj2 (proj2 (proj2 (proj2 (proj2
             (routes_append_only (mkRouter 0) [[route_with_named_parameter]]
                (Nat.lt_0_succ 0))))))).
Defined.

(** ** Choosing the response schema *)

Local Open Scope Z_scope.

Lemma declared_keys responses k :
  declared responses k <-> In k (map fst responses).
Proof.
  unfold declared. induction responses as [|[k0 s0] responses IH]; simpl.
  - split; [intros [s H]; discriminate | tauto].
  - destruct (k0 =? k) eqn:E.
    + apply Z.eqb_eq in E. subst. split; eauto.
    + apply Z.eqb_neq in E. rewrite IH. split; [tauto|].
      intros [H|H]; [contradiction | auto].
Qed.

Lemma hd_insert_sorted n l :
  hd_error (insert_sorted n l)
  = Some (match hd_error l with
          | Some m => if n <=? m then n else m
          | None => n
          end).
Proof.
  destruct l as [|m l]; simpl; auto.
  destruct (n <=? m); reflexivity.
Qed.

Lemma hd_sort_ascending l :
  match hd_error (sort_ascending l) with
  | Some m => In m l /\ forall x, In x l -> m <= x
  | None => l = []
  end.
Proof.
  induction l as [|a l IH]; simpl; auto.
  rewrite hd_insert_sorted.
  destruct (hd_error (sort_ascending l)) as [m|].
  - destruct IH as [Hin Hmin].
    destruct (a <=? m) eqn:E.
    + apply Z.leb_le in E. split; auto.
      intros x [<-|Hx]; [lia|]. specialize (Hmin x Hx). lia.
    + apply Z.leb_gt in E. split; auto.
      intros x [<-|Hx]; [lia | auto].
  - subst l. split; auto. intros x [<-|[]]. lia.
Qed.

Lemma first2xxSchema_spec responses :
  (exists k, first_2xx responses k
             /\ first2xxSchema responses = response_schema responses k)
  \/ ((forall k, declared responses k -> ~ is_2xx k)
      /\ first2xxSchema responses = None).
Proof.
  unfold first2xxSchema.
  set (l := filter (fun n => (200 <=? n) && (n <? 300)) (map fst responses)).
  assert (Hl : forall k, In k l <-> declared responses k /\ is_2xx k).
  { intros k. subst l. rewrite filter_In, declared_keys. unfold is_2xx.
    rewrite andb_true_iff, Z.leb_le, Z.ltb_lt. tauto. }
  pose proof (hd_sort_ascending l) as H.
  destruct (sort_ascending l) as [|first rest]; simpl in H.
  - right. split; auto. intros k Hd H2.
    assert (Hin : In k l) by (apply Hl; auto).
    rewrite H in Hin. contradiction.
  - left. exists first. split; auto.
    destruct H as [Hin Hmin]. apply Hl in Hin. destruct Hin as [Hd H2].
    repeat split; auto; try apply H2.
    intros k' Hd' H2'. apply Hmin. apply Hl. auto.
Qed.

Lemma first_2xx_unique responses k1 k2 :
  first_2xx responses k1 -> first_2xx responses k2 -> k1 = k2.
Proof.
  intros (Hd1 & H1 & Hm1) (Hd2 & H2 & Hm2).
  specialize (Hm1 k2 Hd2 H2). specialize (Hm2 k1 Hd1 H1). lia.
Qed.

Lemma select_schema_spec responses status :
  validates_against responses status (select_schema responses status).
Proof.
  unfold select_schema, or_else.
  destruct (response_schema responses status) as [s|] eqn:Es.
  - now constructor.
  - destruct (first2xxSchema_spec responses) as [(k & Hk & ->)|[Hno ->]].
    + destruct Hk as [[s Hs] Hrest]. rewrite Hs.
      eapply default_first_2xx; eauto. split; [now exists s | exact Hrest].
    + now apply default_200.
Qed.

Lemma validates_against_unique responses status o :
  validates_against responses status o -> o = select_schema responses status.
Proof.
  intros H. pose proof (select_schema_spec responses status) as H'.
  inversion H as [s Hs|k s Hn Hk Hs|Hn Hno];
    inversion H' as [s' Hs'|k' s' Hn' Hk' Hs'|Hn' Hno']; subst; try congruence.
  - rewrite (first_2xx_unique _ _ _ Hk Hk') in Hs. congruence.
  - exfalso. destruct Hk as (Hd & H2 & _). exact (Hno' k Hd H2).
  - exfalso. destruct Hk' as (Hd & H2 & _). exact (Hno k' Hd H2).
Qed.

(** Without a declared 2xx status there is nothing declared for 200. *)
Lemma no_2xx_no_200 responses :
  (forall k, declared responses k -> ~ is_2xx k) ->
  response_schema responses 200 = None.
Proof.
  intros Hno. destruct (response_schema responses 200) as [s|] eqn:E; auto.
  exfalso. apply (Hno 200); [now exists s | unfold is_2xx; lia].
Qed.

Lemma eventual_status_spec r :
  (is_2xx (statusCode r) -> eventual_status r = statusCode r)
  /\ (~ is_2xx (statusCode r) -> eventual_status r = 200)
  /\ is_2xx (eventual_status r).
Proof.
  unfold eventual_status, is_2xx.
  destruct (statusCode r =? 0) eqn:E0; simpl.
  - apply Z.eqb_eq in E0. repeat split; intros; lia.
  - destruct (200 <=? statusCode r) eqn:E1; simpl.
    + destruct (statusCode r <? 300) eqn:E2.
      * apply Z.leb_le in E1. apply Z.ltb_lt in E2. repeat split; intros; lia.
      * apply Z.ltb_ge in E2. repeat split; intros; lia.
    + apply Z.leb_gt in E1. repeat split; intros; lia.
Qed.

(** ** The validating wrapper *)

Section WrapperFacts.
Variable parse : ZodType -> Json -> Completion Json.

Lemma parse_request_eq request req w :
  parse_request parse request req w
  = match stage_outcome parse request req InParams with
    | Throw e => (Throw e, w)
    | Normal p =>
        match stage_outcome parse request req InQuery with
        | Throw e => (Throw e, w)
        | Normal q =>
            match stage_outcome parse request req InBody with
            | Throw e => (Throw e, w)
            | Normal b =>
                match stage_outcome parse request req InHeaders with
                | Throw e => (Throw e, w)
                | Normal h => (Normal (mkParsed p q b h), w)
                end
            end
        end
    end.
Proof.
  unfold parse_request, stage_outcome, stage_schema, stage_input, bind,
    parse_field, lift, ret.
  destruct (field request rs_params) as [sp|];
    [destruct (parse sp (req_params req))|];
    (destruct (field request rs_query) as [sq|];
       [destruct (parse sq (req_query req))|]);
    (destruct (field request rs_body) as [sb|];
       [destruct (parse sb (req_body req))|]);
    (destruct (field request rs_headers) as [sh|];
       [destruct (parse sh (req_headers req))|]);
    reflexivity.
Qed.

Lemma parse_request_state request req w :
  snd (parse_request parse request req w) = w.
Proof.
  rewrite parse_request_eq.
  destruct (stage_outcome parse request req InParams);
    destruct (stage_outcome parse request req InQuery);
    destruct (stage_outcome parse request req InBody);
    destruct (stage_outcome parse request req InHeaders); reflexivity.
Qed.

(** A failing part makes the whole parse fail, with the error of the first
    part that fails. *)
Lemma parse_request_fails request req w st s err :
  stage_schema request st = Some s ->
  parse s (stage_input req st) = Throw err ->
  exists st' err',
    (stage_index st' <= stage_index st)%nat
    /\ fails_first_at parse request req st' err'
    /\ parse_request parse request req w = (Throw err', w).
Proof.
  intros Hs Hp.
  assert (Hout : stage_outcome parse request req st = Throw err).
  { unfold stage_outcome. now rewrite Hs. }
  assert (Hfail : forall st0 e,
            stage_outcome parse request req st0 = Throw e ->
            exists s0, stage_schema request st0 = Some s0
                       /\ parse s0 (stage_input req st0) = Throw e).
  { intros st0 e. unfold stage_outcome.
    destruct (stage_schema request st0) as [s0|]; [eauto | discriminate]. }
  rewrite parse_request_eq.
  destruct (stage_outcome parse request req InParams) as [p|e0] eqn:E0.
  2:{ exists InParams, e0. split; [simpl; lia|]. split; [|reflexivity].
      split; [now apply Hfail|]. intros st' H. simpl in H. lia. }
  destruct (stage_outcome parse request req InQuery) as [q|e1] eqn:E1.
  2:{ exists InQuery, e1. split; [destruct st; simpl; try lia; congruence|].
      split; [|reflexivity]. split; [now apply Hfail|].
      intros [| | |] H; simpl in H; try lia; eauto. }
  destruct (stage_outcome parse request req InBody) as [b|e2] eqn:E2.
  2:{ exists InBody, e2. split; [destruct st; simpl; try lia; congruence|].
      split; [|reflexivity]. split; [now apply Hfail|].
      intros [| | |] H; simpl in H; try lia; eauto. }
  destruct (stage_outcome parse request req InHeaders) as [h|e3] eqn:E3.
  2:{ exists InHeaders, e3. split; [destruct st; simpl; try lia; congruence|].
      split; [|reflexivity]. split; [now apply Hfail|].
      intros [| | |] H; simpl in H; try lia; eauto. }
  destruct st; congruence.
Qed.

Lemma wrapped_eq route req w :
  wrapped parse route req w
  = match parse_request parse (request route) req w with
    | (Throw err, _) =>
        (Normal tt, mkWorld (res w) (trace w ++ [Next (Some err)]))
    | (Normal parsed, _) =>
        match handler route req parsed (res w) with
        | (Throw err, res1) =>
            (Normal tt,
             mkWorld res1 (trace w ++ [Invoked parsed; Next (Some err)]))
        | (Normal result, res1) =>
            answer parse
              (select_schema (responses route) (eventual_status res1))
              (eventual_status res1) parsed result res1 w
        end
    end.
Proof.
  pose proof (parse_request_state (request route) req w) as Hst.
  unfold wrapped, try_catch, bind at 1.
  destruct (parse_request parse (request route) req w) as [[parsed|err] w1].
  - simpl in Hst. subst w1.
    unfold bind at 1, call_handler.
    destruct (handler route req parsed (res w)) as [[result|err] res1].
    + unfold bind at 1, get_res, answer. cbn [res trace fst snd].
      destruct (select_schema (responses route) (eventual_status res1)) as [s|].
      * unfold bind, lift, res_status, res_json, next, emit.
        destruct (parse s result); cbn; rewrite <- ?app_assoc; reflexivity.
      * destruct result; unfold bind, next, emit, res_status, res_json; cbn;
          rewrite <- ?app_assoc; reflexivity.
    + unfold next, emit. cbn. rewrite <- app_assoc. reflexivity.
  - simpl in Hst. subst w1. reflexivity.
Qed.
End WrapperFacts.

(** C1.  If a schema is declared for the body (or the params, the query,
    the headers) of a route and parsing that part of an incoming request
    fails, the wrapped call does nothing but call [next(err)], [err] being
    the error thrown by the first part, in the order params, query, body,
    headers, whose parsing fails: the handler is not invoked (whatever the
    handler, the call is the same), and the response object is left
    untouched.  When every earlier part parses, [err] is the error of the
    part at hand. *)
Theorem invalid_request_never_reaches_handler :
  forall (parse : ZodType -> Json -> Completion Json) (route : RegisteredRoute)
         (req : Request) (w : World) (st : Stage) (s : ZodType) (err : Json),
    stage_schema (request route) st = Some s ->
    parse s (stage_input req st) = Throw err ->
    exists st' err',
      (stage_index st' <= stage_index st)%nat
      /\ fails_first_at parse (request route) req st' err'
      /\ wrapped parse route req w
         = (Normal tt, mkWorld (res w) (trace w ++ [Next (Some err')]))
      /\ (forall h, wrapped parse (with_handler route h) req w
                    = wrapped parse route req w)
      /\ ((forall st0, (stage_index st0 < stage_index st)%nat ->
             exists v, stage_outcome parse (request route) req st0 = Normal v) ->
          err' = err).
Proof.
  intros parse route req w st s err Hs Hp.
  destruct (parse_request_fails parse (request route) req w st s err Hs Hp)
    as (st' & err' & Hle & Hfirst & Hreq).
  exists st', err'. split; [exact Hle|]. split; [exact Hfirst|].
  assert (Hw : forall h, wrapped parse (with_handler route h) req w
               = (Normal tt, mkWorld (res w) (trace w ++ [Next (Some err')]))).
  { intros h. rewrite wrapped_eq. simpl. now rewrite Hreq. }
  split; [|split].
  - rewrite wrapped_eq. now rewrite Hreq.
  - intros h. rewrite Hw. rewrite wrapped_eq. now rewrite Hreq.
  - intros Hearlier.
    destruct Hfirst as [(s' & Hs' & Hp') _].
    assert (Hidx : stage_index st' = stage_index st).
    { destruct (Nat.eq_dec (stage_index st') (stage_index st)) as [|Hne]; auto.
      destruct (Hearlier st' ltac:(lia)) as (v & Hv).
      unfold stage_outcome in Hv. rewrite Hs', Hp' in Hv. discriminate. }
    assert (st' = st) by (destruct st', st; simpl in Hidx; congruence).
    subst st'. congruence.
Qed.

Lemma invalid_request_never_reaches_handler_witness :
  exists st' err',
    (stage_index st' <= stage_index InBody)%nat
    /\ fails_first_at sample_parse
         (request (sample_route (fun _ _ r => (Normal (JStr "ok"), r))))
         (sample_request (JNum 7)) st' err'
    /\ wrapped sample_parse (sample_route (fun _ _ r => (Normal (JStr "ok"), r)))
         (sample_request (JNum 7)) fresh_world
       = (Normal tt,
          mkWorld (res fresh_world) (trace fresh_world ++ [Next (Some err')]))
    /\ (forall h,
          wrapped sample_parse
            (with_handler (sample_route (fun _ _ r => (Normal (JStr "ok"), r))) h)
            (sample_request (JNum 7)) fresh_world
          = wrapped sample_parse
              (sample_route (fun _ _ r => (Normal (JStr "ok"), r)))
              (sample_request (JNum 7)) fresh_world)
    /\ ((forall st0, (stage_index st0 < stage_index InBody)%nat ->
           exists v,
             stage_outcome sample_parse
               (request (sample_route (fun _ _ r => (Normal (JStr "ok"), r))))
               (sample_request (JNum 7)) st0 = Normal v) ->
        err' = JStr "ZodError").
Proof.
  exact (invalid_request_never_reaches_handler sample_parse
           (sample_route (fun _ _ r => (Normal (JStr "ok"), r)))
           (sample_request (JNum 7)) fresh_world InBody (ZodString no_meta)
           (JStr "ZodError") eq_refl eq_refl).
Defined.

(** C2.  If the request parses, the handler returns, and its return value
    fails to parse against the schema chosen for the response, the wrapped
    call ends by calling [next(err)] with the validation error, and the
    response object is exactly as the handler left it: the wrapper sets no
    status and writes no body. *)
Theorem invalid_result_is_not_sent :
  forall (parse : ZodType -> Json -> Completion Json) (route : RegisteredRoute)
         (req : Request) (w : World) (parsed : ParsedRequest) (result : Json)
         (res1 : Response) (s : ZodType) (err : Json),
    parse_request parse (request route) req w = (Normal parsed, w) ->
    handler route req parsed (res w) = (Normal result, res1) ->
    select_schema (responses route) (eventual_status res1) = Some s ->
    parse s result = Throw err ->
    wrapped parse route req w
    = (Normal tt, mkWorld res1 (trace w ++ [Invoked parsed; Next (Some err)]))
    /\ sent (res (snd (wrapped parse route req w))) = sent res1
    /\ statusCode (res (snd (wrapped parse route req w))) = statusCode res1.
Proof.
  intros parse route req w parsed result res1 s err Hreq Hh Hsel Hp.
  rewrite wrapped_eq, Hreq, Hh. unfold answer. rewrite Hsel, Hp.
  repeat split.
Qed.

Lemma invalid_result_is_not_sent_witness :
  wrapped sample_parse (sample_route (fun _ _ r => (Normal (JNum 3), r)))
    (sample_request (JStr "hello")) fresh_world
  = (Normal tt,
     mkWorld (mkResponse 200 [])
       (trace fresh_world
        ++ [Invoked (mkParsed (JObj []) (JObj []) (JStr "hello") (JObj []));
            Next (Some (JStr "ZodError"))]))
  /\ sent (res (snd (wrapped sample_parse
                       (sample_route (fun _ _ r => (Normal (JNum 3), r)))
                       (sample_request (JStr "hello")) fresh_world))) = []
  /\ statusCode (res (snd (wrapped sample_parse
                             (sample_route (fun _ _ r => (Normal (JNum 3), r)))
                             (sample_request (JStr "hello")) fresh_world)))
     = 200.
Proof.
  exact (invalid_result_is_not_sent sample_parse
           (sample_route (fun _ _ r => (Normal (JNum 3), r)))
           (sample_request (JStr "hello")) fresh_world
           (mkParsed (JObj []) (JObj []) (JStr "hello") (JObj []))
           (JNum 3) (mkResponse 200 []) (ZodString no_meta) (JStr "ZodError")
           eq_refl eq_refl eq_refl eq_refl).
Defined.

Lemma selected_none_iff responses status :
  is_2xx status ->
  (select_schema responses status = None
   <-> forall k, declared responses k -> ~ is_2xx k).
Proof.
  intros H2. pose proof (select_schema_spec responses status) as H.
  split.
  - intros Hnone. rewrite Hnone in H.
    inversion H as [| |Hn Hno E]. exact Hno.
  - intros Hno. apply no_2xx_no_200 in Hno as H200.
    inversion H as [s Hs E|k s Hn Hk Hs E|Hn Hno' E]; auto.
    + exfalso. apply (Hno status); [now exists s | exact H2].
    + exfalso. destruct Hk as (Hd & Hk2 & _). exact (Hno k Hd Hk2).
Qed.

(** *** The choice, read off the entries *)

Lemma response_schema_entry responses k s :
  response_schema responses k = Some s -> In (k, s) responses.
Proof.
  induction responses as [|[k0 s0] responses IH]; simpl; [discriminate|].
  destruct (k0 =? k) eqn:E.
  - apply Z.eqb_eq in E. intros H. inversion H; subst. auto.
  - auto.
Qed.

Lemma entry_response_schema responses k s :
  distinct_statuses responses -> In (k, s) responses ->
  response_schema responses k = Some s.
Proof.
  unfold distinct_statuses.
  induction responses as [|[k0 s0] responses IH]; simpl; [tauto|].
  intros Hnd Hin. inversion Hnd as [|? ? Hnotin Hnd']; subst.
  destruct Hin as [Heq|Hin].
  - inversion Heq; subst. now rewrite Z.eqb_refl.
  - destruct (k0 =? k) eqn:E; auto.
    apply Z.eqb_eq in E. subst k0. exfalso. apply Hnotin.
    apply (in_map fst) in Hin. exact Hin.
Qed.

Lemma response_schema_undeclared responses k :
  response_schema responses k = None <-> undeclared responses k.
Proof.
  unfold undeclared. split.
  - intros Hnone s Hin. apply (in_map fst) in Hin. simpl in Hin.
    apply declared_keys in Hin. destruct Hin as [s' Hs']. congruence.
  - intros Hun. destruct (response_schema responses k) as [s|] eqn:E; auto.
    exfalso. apply (Hun s). now apply response_schema_entry.
Qed.

Lemma entry_declared responses k s : In (k, s) responses -> declared responses k.
Proof.
  intros Hin. apply declared_keys. apply (in_map fst) in Hin. exact Hin.
Qed.

Lemma no_2xx_entry_declared responses :
  no_2xx_entry responses <-> forall k, declared responses k -> ~ is_2xx k.
Proof.
  unfold no_2xx_entry. split.
  - intros H k [s Hs]. apply (H k s). now apply response_schema_entry.
  - intros H k s Hin. apply H. eapply entry_declared; eauto.
Qed.

Lemma select_schema_chosen responses status :
  chosen_schema responses status (select_schema responses status).
Proof.
  pose proof (select_schema_spec responses status) as H.
  inversion H as [s Hs E|k s Hn Hk Hs E|Hn Hno E].
  - apply chosen_for_status. now apply response_schema_entry.
  - destruct Hk as (_ & Hk2 & Hmin).
    apply chosen_first_2xx with k; auto.
    + now apply response_schema_undeclared.
    + now apply response_schema_entry.
    + intros k' s' Hin. apply Hmin. eapply entry_declared; eauto.
  - rewrite (no_2xx_no_200 responses Hno).
    apply chosen_none.
    + now apply response_schema_undeclared.
    + now apply no_2xx_entry_declared.
    + apply response_schema_undeclared. now apply no_2xx_no_200.
Qed.

Lemma chosen_schema_unique responses status schema :
  distinct_statuses responses ->
  chosen_schema responses status schema ->
  schema = select_schema responses status.
Proof.
  intros Hnd H. apply validates_against_unique.
  destruct H as [s Hs|k s Hun Hin Hk Hmin|s Hun Hno Hin|Hun Hno H200].
  - apply matching_status. now apply entry_response_schema.
  - apply default_first_2xx with k.
    + now apply response_schema_undeclared.
    + split; [eapply entry_declared; eauto|]. split; [exact Hk|].
      intros k' [s' Hs']. apply (Hmin k' s'). now apply response_schema_entry.
    + now apply entry_response_schema.
  - exfalso. apply (Hno 200 s Hin). unfold is_2xx. lia.
  - replace (@None ZodType) with (response_schema responses 200)
      by (now apply response_schema_undeclared).
    apply default_200.
    + now apply response_schema_undeclared.
    + now apply no_2xx_entry_declared.
Qed.

Lemma chosen_none_iff responses status schema :
  distinct_statuses responses -> is_2xx status ->
  chosen_schema responses status schema ->
  (schema = None <-> no_2xx_entry responses).
Proof.
  intros Hnd H2 Hc. rewrite (chosen_schema_unique _ _ _ Hnd Hc).
  rewrite no_2xx_entry_declared. now apply selected_none_iff.
Qed.

(** The table of the sample route has no entry for 200: the schema chosen
    for that status is the one of its lowest 2xx entry, 201. *)
Lemma sample_choice h :
  chosen_schema (responses (sample_route h)) 200 (Some (ZodString no_meta)).
Proof.
  apply chosen_first_2xx with 201; simpl.
  - intros s [H|[H|[]]]; discriminate.
  - auto.
  - unfold is_2xx. lia.
  - intros k' s' [H|[H|[]]] H2; inversion H; subst; [lia|].
    unfold is_2xx in H2. lia.
Qed.

Lemma sample_statuses h : distinct_statuses (responses (sample_route h)).
Proof.
  unfold distinct_statuses. simpl.
  repeat constructor; simpl; intuition discriminate.
Qed.

(** C3.  When the request has parsed and the handler has returned a value,
    the wrapper answers under the eventual status, which is the response's
    own status code when that lies in the 2xx range and 200 otherwise, and
    it validates the value against the schema that the specification's rule
    picks among the entries of the response table for that status: the
    schema of the entry for the status; when there is none, the schema of
    the entry with the lowest 2xx status; when there is none either, the
    schema of the entry for 200, of which there is then none, so that the
    value goes out unvalidated.  For a table with one entry per status the
    rule picks one schema only. *)
Theorem response_schema_selection :
  forall (parse : ZodType -> Json -> Completion Json) (route : RegisteredRoute)
         (req : Request) (w : World) (parsed : ParsedRequest) (result : Json)
         (res1 : Response),
    parse_request parse (request route) req w = (Normal parsed, w) ->
    handler route req parsed (res w) = (Normal result, res1) ->
    (exists schema,
       chosen_schema (responses route) (eventual_status res1) schema
       /\ wrapped parse route req w
          = answer parse schema (eventual_status res1) parsed result res1 w)
    /\ (forall schema,
          distinct_statuses (responses route) ->
          chosen_schema (responses route) (eventual_status res1) schema ->
          wrapped parse route req w
          = answer parse schema (eventual_status res1) parsed result res1 w
          /\ (schema = None <-> no_2xx_entry (responses route))
          /\ forall schema',
               chosen_schema (responses route) (eventual_status res1) schema' ->
               schema' = schema)
    /\ is_2xx (eventual_status res1)
    /\ (is_2xx (statusCode res1) -> eventual_status res1 = statusCode res1)
    /\ (~ is_2xx (statusCode res1) -> eventual_status res1 = 200).
Proof.
  intros parse route req w parsed result res1 Hreq Hh.
  destruct (eventual_status_spec res1) as (Hin & Hout & H2).
  assert (Hw : wrapped parse route req w
               = answer parse
                   (select_schema (responses route) (eventual_status res1))
                   (eventual_status res1) parsed result res1 w).
  { now rewrite wrapped_eq, Hreq, Hh. }
  split; [|split; [|split; [|split]]]; auto.
  - eexists. split; [apply select_schema_chosen | exact Hw].
  - intros schema Hnd Hc.
    pose proof (chosen_schema_unique _ _ _ Hnd Hc) as E.
    split; [now rewrite E|].
    split; [now apply (chosen_none_iff _ (eventual_status res1))|].
    intros schema' Hc'.
    rewrite E. now apply chosen_schema_unique.
Qed.

(** The handler answers the number 7 under status 200, for which the table
    has no entry: the value is held against the string schema of the 201
    entry, not against the number schema of the 404 entry, and fails it. *)
Lemma response_schema_selection_witness :
  chosen_schema [(201, ZodString no_meta); (404, ZodNumber no_meta)] 200
    (Some (ZodString no_meta))
  /\ wrapped sample_parse (sample_route (answering 200 (JNum 7)))
       (sample_request (JStr "hello")) fresh_world
     = (Normal tt,
        mkWorld (mkResponse 200 [])
          [Invoked (mkParsed (JObj []) (JObj []) (JStr "hello") (JObj []));
           Next (Some (JStr "ZodError"))]).
Proof.
  split; [exact (sample_choice (answering 200 (JNum 7)))|].
  exact (proj1
           (proj1 (proj2
              (response_schema_selection sample_parse
                 (sample_route (answering 200 (JNum 7)))
                 (sample_request (JStr "hello")) fresh_world
                 (mkParsed (JObj []) (JObj []) (JStr "hello") (JObj []))
                 (JNum 7) (mkResponse 200 []) eq_refl eq_refl))
              (Some (ZodString no_meta))
              (sample_statuses (answering 200 (JNum 7)))
              (sample_choice (answering 200 (JNum 7))))).
Defined.

Example created_is_validated_against_201 :
  select_schema [(201, ZodString no_meta); (404, ZodNumber no_meta)] 200
  = Some (ZodString no_meta).
Proof. reflexivity. Qed.

Lemma select_schema_2xx_only responses responses' status :
  is_2xx status ->
  (forall k, is_2xx k ->
     response_schema responses' k = response_schema responses k) ->
  select_schema responses' status = select_schema responses status.
Proof.
  intros H2 Hagree. symmetry. apply validates_against_unique.
  assert (Hdecl : forall k, is_2xx k ->
            (declared responses' k <-> declared responses k)).
  { intros k Hk. unfold declared. now rewrite Hagree. }
  pose proof (select_schema_spec responses status) as H.
  inversion H as [s Hs E|k s Hn Hk Hs E|Hn Hno E].
  - apply matching_status. now rewrite Hagree.
  - destruct Hk as (Hd & Hk2 & Hmin).
    apply default_first_2xx with k; try (rewrite Hagree; auto).
    split; [apply Hdecl; auto|]. split; auto.
    intros k' Hd' Hk2'. apply Hmin; auto. apply Hdecl; auto.
  - rewrite <- (Hagree 200) by (unfold is_2xx; lia).
    apply default_200; [now rewrite Hagree|].
    intros k Hd Hk2. apply (Hno k); auto. apply Hdecl; auto.
Qed.

Lemma selected_is_2xx responses status s :
  is_2xx status ->
  select_schema responses status = Some s ->
  exists k, is_2xx k /\ response_schema responses k = Some s.
Proof.
  intros H2 Hsel. pose proof (select_schema_spec responses status) as H.
  rewrite Hsel in H.
  inversion H as [s' Hs E|k s' Hn Hk Hs E|Hn Hno E]; subst.
  - eauto.
  - destruct Hk as (_ & Hk2 & _). eauto.
  - exists 200. split; [unfold is_2xx; lia | congruence].
Qed.

Lemma same_entries_same_schema responses responses' k :
  distinct_statuses responses -> distinct_statuses responses' ->
  (forall s, In (k, s) responses' <-> In (k, s) responses) ->
  response_schema responses' k = response_schema responses k.
Proof.
  intros Hnd Hnd' Hsame.
  destruct (response_schema responses k) as [s|] eqn:E.
  - apply entry_response_schema; auto. apply Hsame.
    now apply response_schema_entry.
  - apply response_schema_undeclared. intros s Hin.
    apply response_schema_undeclared in E. apply (E s). now apply Hsame.
Qed.

(** C10, as stated, fails: with a status outside the 2xx range the wrapper
    does not always send a response under status 200.  Here the handler
    sets 404 and returns a number; the value is validated against the
    schema of the 201 entry, a string schema, the error goes to [next], and
    the response is left with status 404 and nothing written. *)
Lemma non_2xx_status_is_not_always_answered :
  ~ (forall (parse : ZodType -> Json -> Completion Json)
            (route : RegisteredRoute) (req : Request) (w : World)
            (parsed : ParsedRequest) (result : Json) (res1 : Response),
       parse_request parse (request route) req w = (Normal parsed, w) ->
       handler route req parsed (res w) = (Normal result, res1) ->
       ~ is_2xx (statusCode res1) ->
       sent_under res1 (res (snd (wrapped parse route req w))) 200).
Proof.
  intros H.
  destruct (H sample_parse (sample_route (answering 404 (JNum 1)))
              (sample_request (JStr "hello")) fresh_world
              (mkParsed (JObj []) (JObj []) (JStr "hello") (JObj []))
              (JNum 1) (mkResponse 404 []) eq_refl eq_refl)
    as [v Hv].
  - unfold is_2xx. simpl. lia.
  - vm_compute in Hv. discriminate.
Qed.

(** C10, amended.  When the request has parsed and the handler returns a
    value having set a status code outside the 2xx range, the wrapper takes
    200 as the status.  The schema it validates against is the one the rule
    picks for 200 among the entries of the table: the schema of the entry
    for 200, or else of the lowest 2xx entry; it is always the schema of a
    2xx entry, and it stays the same however the entries for other statuses
    are changed.  If the value passes that schema, it is sent as parsed
    under status 200, which replaces the handler's status; if there is no
    such schema and the value is not [undefined], the value is sent as it is
    under status 200.  Otherwise nothing is sent and the response keeps the
    handler's status: a value that fails the schema has its error passed to
    [next], and [undefined] without a schema ends in a plain [next()]. *)
Theorem non_2xx_status_is_answered_as_200 :
  forall (parse : ZodType -> Json -> Completion Json) (route : RegisteredRoute)
         (req : Request) (w : World) (parsed : ParsedRequest) (result : Json)
         (res1 : Response),
    distinct_statuses (responses route) ->
    parse_request parse (request route) req w = (Normal parsed, w) ->
    handler route req parsed (res w) = (Normal result, res1) ->
    ~ is_2xx (statusCode res1) ->
    eventual_status res1 = 200
    /\ (exists schema, chosen_schema (responses route) 200 schema)
    /\ forall schema,
         chosen_schema (responses route) 200 schema ->
         (forall s, schema = Some s ->
            exists k, is_2xx k /\ In (k, s) (responses route))
         /\ (forall responses',
               distinct_statuses responses' ->
               (forall k s, is_2xx k ->
                  (In (k, s) responses' <-> In (k, s) (responses route))) ->
               chosen_schema responses' 200 schema)
         /\ (forall s v,
               schema = Some s -> parse s result = Normal v ->
               wrapped parse route req w
               = (Normal tt,
                  mkWorld (mkResponse 200 (sent res1 ++ [(200, v)]))
                    (trace w ++ [Invoked parsed])))
         /\ (forall s err,
               schema = Some s -> parse s result = Throw err ->
               wrapped parse route req w
               = (Normal tt,
                  mkWorld res1 (trace w ++ [Invoked parsed; Next (Some err)])))
         /\ (schema = None -> result <> JUndefined ->
             wrapped parse route req w
             = (Normal tt,
                mkWorld (mkResponse 200 (sent res1 ++ [(200, result)]))
                  (trace w ++ [Invoked parsed])))
         /\ (schema = None -> result = JUndefined ->
             wrapped parse route req w
             = (Normal tt,
                mkWorld res1 (trace w ++ [Invoked parsed; Next None]))).
Proof.
  intros parse route req w parsed result res1 Hnd Hreq Hh Hout.
  destruct (eventual_status_spec res1) as (_ & H200 & _).
  specialize (H200 Hout).
  assert (H2 : is_2xx 200) by (unfold is_2xx; lia).
  split; [exact H200|].
  split; [eexists; apply select_schema_chosen|].
  intros schema Hc.
  pose proof (chosen_schema_unique _ _ _ Hnd Hc) as E.
  assert (Hw : wrapped parse route req w
               = answer parse schema 200 parsed result res1 w).
  { rewrite wrapped_eq, Hreq, Hh, H200, E. reflexivity. }
  split; [|split; [|split; [|split; [|split]]]].
  - intros s Hs. rewrite Hs in E. symmetry in E.
    destruct (selected_is_2xx _ _ _ H2 E) as (k & Hk & Hks).
    exists k. split; [exact Hk | now apply response_schema_entry].
  - intros responses' Hnd' Hsame.
    rewrite E, <- (select_schema_2xx_only (responses route) responses' 200 H2).
    + apply select_schema_chosen.
    + intros k Hk.
      apply same_entries_same_schema; [exact Hnd | exact Hnd' |].
      intros s. now apply Hsame.
  - intros s v -> Hp. rewrite Hw. unfold answer. now rewrite Hp.
  - intros s err -> Hp. rewrite Hw. unfold answer. now rewrite Hp.
  - intros -> Hr. rewrite Hw. unfold answer.
    destruct result; auto. contradiction.
  - intros -> ->. rewrite Hw. reflexivity.
Qed.

Lemma non_2xx_status_is_answered_as_200_witness :
  eventual_status (mkResponse 404 []) = 200
  /\ chosen_schema [(201, ZodString no_meta); (404, ZodNumber no_meta)] 200
       (Some (ZodString no_meta))
  /\ wrapped sample_parse (sample_route (answering 404 (JStr "made")))
       (sample_request (JStr "hello")) fresh_world
     = (Normal tt,
        mkWorld (mkResponse 200 [(200, JStr "made")])
          [Invoked (mkParsed (JObj []) (JObj []) (JStr "hello") (JObj []))]).
Proof.
  pose proof (non_2xx_status_is_answered_as_200 sample_parse
                (sample_route (answering 404 (JStr "made")))
                (sample_request (JStr "hello")) fresh_world
                (mkParsed (JObj []) (JObj []) (JStr "hello") (JObj []))
                (JStr "made") (mkResponse 404 [])
                (sample_statuses (answering 404 (JStr "made")))
                eq_refl eq_refl
                ltac:(unfold is_2xx; simpl; lia)) as (H1 & _ & H3).
  split; [exact H1|].
  split; [exact (sample_choice (answering 404 (JStr "made")))|].
  exact (proj1 (proj2 (proj2
           (H3 (Some (ZodString no_meta))
               (sample_choice (answering 404 (JStr "made"))))))
           (ZodString no_meta) (JStr "made") eq_refl eq_refl).
Defined.

Local Close Scope Z_scope.

(** * Further properties *)

(** ** Unwrapping *)

Lemma unwrap_loop_reads s : forall n o d a,
  let u := unwrap_loop s n o d a in
  u_schema u = last (wrapper_chain s) s
  /\ u_isNullable u = n || existsb is_nullable_wrapper (wrapper_chain s)
  /\ u_isOptional u = o || existsb is_optional_wrapper (wrapper_chain s)
  /\ str_truthy (u_description u)
     = first_truthy
         (d :: map (fun x => def_description (meta x)) (tl (wrapper_chain s)))
  /\ str_truthy (u_openApiName u)
     = first_truthy
         (a :: map (fun x => openApi_name (meta x)) (tl (wrapper_chain s))).
Proof.
  assert (Hdef : forall (l : list ZodType) x y z, last (x :: l) y = last (x :: l) z).
  { induction l as [|c l IHl]; intros x y z; [reflexivity|].
    change (last (c :: l) y = last (c :: l) z). apply IHl. }
  assert (Hlast : forall i x, last (x :: wrapper_chain i) x = last (wrapper_chain i) i).
  { intros i x. destruct (wrapper_chain i) as [|c l] eqn:E.
    - destruct i; discriminate.
    - change (last (c :: l) x = last (c :: l) i). apply Hdef. }
  assert (Hor : forall acc inner rest,
            first_truthy (or_inner acc inner :: rest)
            = first_truthy (acc :: inner :: rest)).
  { intros acc inner rest. unfold or_inner. simpl.
    destruct (str_truthy acc) eqn:E; simpl; [now rewrite E | reflexivity]. }
  assert (Htl : forall i (f : ZodType -> option string),
            f i :: map f (tl (wrapper_chain i)) = map f (wrapper_chain i)).
  { intros i f. destruct i; reflexivity. }
  induction s; intros n o d a; cbn zeta;
    try (cbn; rewrite ?orb_false_r; repeat split;
         destruct (str_truthy d); destruct (str_truthy a); reflexivity).
  all: cbn [unwrap_loop wrapper_chain tl map existsb is_nullable_wrapper
            is_optional_wrapper];
    match goal with
    | IH : forall _ _ _ _, let u := unwrap_loop ?i _ _ _ _ in _
      |- context [unwrap_loop ?i ?n' ?o' ?d' ?a'] =>
        destruct (IH n' o' d' a') as (H1 & H2 & H3 & H4 & H5)
    end;
    rewrite H1, H2, H3, H4, H5, !Hor, Hlast, <- !Htl;
    rewrite ?orb_true_l, ?orb_true_r, ?orb_false_l, ?orb_false_r;
    repeat split; reflexivity.
Qed.

(** X1.  [unwrapZodType] stops at the schema under the last optional,
    nullable, default or effects wrapper, which is no such wrapper itself;
    it reports nullable (optional) exactly when a nullable (optional)
    wrapper was on the way, and the description and the name it reports are,
    when there is a non-empty one at all, the outermost non-empty one. *)
Theorem unwrapZodType_reads_chain :
  forall s : ZodType,
    let u := unwrapZodType s in
    u_schema u = last (wrapper_chain s) s
    /\ is_wrapper (u_schema u) = false
    /\ u_isNullable u = existsb is_nullable_wrapper (wrapper_chain s)
    /\ u_isOptional u = existsb is_optional_wrapper (wrapper_chain s)
    /\ str_truthy (u_description u)
       = first_truthy (map (fun x => def_description (meta x)) (wrapper_chain s))
    /\ str_truthy (u_openApiName u)
       = first_truthy (map (fun x => openApi_name (meta x)) (wrapper_chain s)).
Proof.
  intros s u. subst u. unfold unwrapZodType.
  destruct (unwrap_loop_reads s false false (def_description (meta s))
              (openApi_name (meta s))) as (H1 & H2 & H3 & H4 & H5).
  assert (Htl : forall (f : ZodType -> option string),
            f s :: map f (tl (wrapper_chain s)) = map f (wrapper_chain s)).
  { intros f. destruct s; reflexivity. }
  rewrite (Htl (fun x => def_description (meta x))) in H4.
  rewrite (Htl (fun x => openApi_name (meta x))) in H5.
  repeat split; auto. apply unwrap_loop_base.
Qed.

(** ** Naming a schema *)

Lemma meta_set_meta m s : meta (set_meta m s) = m.
Proof. destruct s; reflexivity. Qed.

Lemma wrapper_chain_set_meta m s :
  tl (wrapper_chain (set_meta m s)) = tl (wrapper_chain s).
Proof. destruct s; reflexivity. Qed.

(** X2.  [withSchemaName] changes nothing of a schema but its name: the
    description and the size stay, and naming twice keeps the second name
    only.  The name found on the result is the given one when it is not
    empty; an empty name names nothing, and the name of a schema further
    down the wrappers, if any, shows through. *)
Theorem withSchemaName_sets_the_name :
  forall (s : ZodType) (a b : string),
    withSchemaName (withSchemaName s a) b = withSchemaName s b
    /\ def_description (meta (withSchemaName s a)) = def_description (meta s)
    /\ size (withSchemaName s a) = size s
    /\ str_truthy (u_openApiName (unwrapZodType (withSchemaName s a)))
       = match str_truthy (Some a) with
         | Some v => Some v
         | None =>
             first_truthy
               (map (fun x => openApi_name (meta x)) (tl (wrapper_chain s)))
         end
    /\ (named (withSchemaName s a) a <-> a <> "").
Proof.
  intros s a b.
  assert (Hname : str_truthy (u_openApiName (unwrapZodType (withSchemaName s a)))
                  = match str_truthy (Some a) with
                    | Some v => Some v
                    | None =>
                        first_truthy
                          (map (fun x => openApi_name (meta x))
                             (tl (wrapper_chain s)))
                    end).
  { unfold unwrapZodType, withSchemaName.
    destruct (unwrap_loop_reads
                (set_meta (mkMeta (def_description (meta s)) (Some a)) s)
                false false
                (def_description
                   (meta (set_meta (mkMeta (def_description (meta s)) (Some a)) s)))
                (openApi_name
                   (meta (set_meta (mkMeta (def_description (meta s)) (Some a)) s))))
      as (_ & _ & _ & _ & H5).
    rewrite H5, meta_set_meta, wrapper_chain_set_meta. reflexivity. }
  split; [|split; [|split; [|split]]].
  - unfold withSchemaName. rewrite meta_set_meta. destruct s; reflexivity.
  - unfold withSchemaName. now rewrite meta_set_meta.
  - unfold withSchemaName. destruct s; reflexivity.
  - exact Hname.
  - unfold named. rewrite Hname. simpl.
    destruct (a =? "") eqn:E.
    + apply String.eqb_eq in E. subst a. split; [|congruence].
      intros H. exfalso.
      assert (Hne : forall l, first_truthy l <> Some "").
      { induction l as [|x l IHl]; simpl; [discriminate|].
        destruct x as [x|]; simpl; auto.
        destruct (x =? "") eqn:Ex; auto.
        intros Hx. inversion Hx; subst. discriminate. }
      exact (Hne _ H).
    + apply String.eqb_neq in E. split; auto.
Qed.

Lemma unwrap_loop_name_irrelevant s : forall n o d a a',
  let u := unwrap_loop s n o d a in
  let u' := unwrap_loop s n o d a' in
  u_schema u' = u_schema u /\ u_isNullable u' = u_isNullable u
  /\ u_isOptional u' = u_isOptional u /\ u_description u' = u_description u.
Proof.
  induction s; intros n o d a a'; cbn zeta; simpl; auto.
Qed.

Lemma convert_base_set_meta rec m s sc :
  convert_base rec (set_meta m s) sc = convert_base rec s sc.
Proof. destruct s; reflexivity. Qed.

Lemma unwrap_renamed s m' :
  def_description m' = def_description (meta s) ->
  u_isNullable (unwrapZodType (set_meta m' s)) = u_isNullable (unwrapZodType s)
  /\ u_description (unwrapZodType (set_meta m' s))
     = u_description (unwrapZodType s)
  /\ forall rec sc,
       convert_base rec (u_schema (unwrapZodType (set_meta m' s))) sc
       = convert_base rec (u_schema (unwrapZodType s)) sc.
Proof.
  intros Hd. unfold unwrapZodType.
  destruct s; simpl in *; rewrite Hd; auto;
    match goal with
    | |- context [unwrap_loop ?i ?n ?o ?d (or_inner (openApi_name m') ?x)] =>
        destruct (unwrap_loop_name_irrelevant i n o d
                    (or_inner (openApi_name m) x)
                    (or_inner (openApi_name m') x)) as (H1 & H2 & H3 & H4);
        rewrite H1, H2, H4; auto
    end.
Qed.

(** X3.  Without a context, and when a schema is converted as a component,
    the name given by [withSchemaName] plays no part: the schema converts
    exactly as the unnamed one does. *)
Theorem name_is_ignored_without_context :
  forall (s : ZodType) (name : string) (context asComponent : bool)
         (sc : Schemas),
    context = false \/ asComponent = true ->
    zodToOpenApiSchema (withSchemaName s name) context asComponent sc
    = zodToOpenApiSchema s context asComponent sc.
Proof.
  intros s name context asComponent sc H.
  destruct (unwrap_renamed s (mkMeta (def_description (meta s)) (Some name))
              eq_refl) as (Hn & Hd & Hb).
  rewrite (zodToOpenApiSchema_eq (withSchemaName s name)).
  rewrite (zodToOpenApiSchema_eq s). cbn zeta.
  unfold withSchemaName. rewrite Hn, Hd, Hb.
  destruct H as [-> | ->].
  - reflexivity.
  - destruct context; [|reflexivity].
    destruct (str_truthy (u_openApiName (unwrapZodType (set_meta _ s))));
      destruct (str_truthy (u_openApiName (unwrapZodType s))); reflexivity.
Qed.

Lemma name_is_ignored_without_context_witness :
  zodToOpenApiSchema (withSchemaName spec_example "User") false false []
  = zodToOpenApiSchema spec_example false false [].
Proof.
  exact (name_is_ignored_without_context spec_example "User" false false []
           (or_introl eq_refl)).
Defined.

(** ** Description and nullability *)

Lemma decorate_get d n r :
  Obj.get r "description" = None -> Obj.get r "nullable" = None ->
  Obj.get (decorate d n r) "description" = option_map JStr (str_truthy d)
  /\ Obj.get (decorate d n r) "nullable"
     = if n then Some (JBool true) else None.
Proof.
  intros Hd Hn. unfold decorate.
  destruct (str_truthy d) as [x|]; destruct n; simpl;
    rewrite ?get_set_same, ?get_set_other, ?get_set_same by discriminate;
    auto.
Qed.

Lemma convert_base_plain rec b sc r sc' :
  convert_base rec b sc = Some (r, sc') ->
  Obj.get r "description" = None /\ Obj.get r "nullable" = None.
Proof.
  intros H. destruct b; simpl in H;
    try (inversion H; subst; split; reflexivity).
  - destruct (rec b sc) as [[items sc1]|]; [|discriminate].
    inversion H; subst. split; reflexivity.
  - destruct (convert_shape rec shape [] [] sc) as [[[ps rq] sc1]|];
      [|discriminate].
    inversion H; subst. destruct rq; split; reflexivity.
  - destruct (convert_options rec options sc) as [[rs sc1]|]; [|discriminate].
    inversion H; subst. split; reflexivity.
Qed.

(** X4.  Whatever the kind of a schema and however it is converted, inline
    or as a reference, the fragment carries [nullable: true] exactly when a
    nullable wrapper was unwrapped, and carries as [description] the
    non-empty description found while unwrapping, and none otherwise. *)
Theorem annotations_survive_conversion :
  forall (s : ZodType) (context asComponent : bool) (sc : Schemas),
    exists r sc',
      zodToOpenApiSchema s context asComponent sc = Some (r, sc')
      /\ Obj.get r "nullable"
         = (if u_isNullable (unwrapZodType s) then Some (JBool true) else None)
      /\ Obj.get r "description"
         = option_map JStr (str_truthy (u_description (unwrapZodType s))).
Proof.
  intros s context asComponent sc.
  destruct (conversion_returns s context asComponent sc) as (r & sc' & E).
  exists r, sc'. split; [exact E|].
  rewrite zodToOpenApiSchema_eq in E. cbn zeta in E.
  assert (Hplain : forall r0 sc0,
            match convert_base (fun c => zodToOpenApiSchema c context false)
                    (u_schema (unwrapZodType s)) sc with
            | Some (result, sc1) =>
                Some (decorate (u_description (unwrapZodType s))
                        (u_isNullable (unwrapZodType s)) result, sc1)
            | None => None
            end = Some (r0, sc0) ->
            Obj.get r0 "nullable"
            = (if u_isNullable (unwrapZodType s) then Some (JBool true) else None)
            /\ Obj.get r0 "description"
               = option_map JStr (str_truthy (u_description (unwrapZodType s)))).
  { intros r0 sc0 H.
    destruct (convert_base _ _ sc) as [[result sc1]|] eqn:Eb; [|discriminate].
    inversion H; subst.
    destruct (convert_base_plain _ _ _ _ _ Eb) as [Hd Hn].
    destruct (decorate_get (u_description (unwrapZodType s))
                (u_isNullable (unwrapZodType s)) result Hd Hn); auto. }
  destruct context; [destruct (str_truthy (u_openApiName _)) as [name|];
                     [destruct asComponent|]|]; try (now apply Hplain in E).
  assert (Href :
            Obj.get (decorate (u_description (unwrapZodType s))
                       (u_isNullable (unwrapZodType s))
                       [("$ref", JStr ("#/components/schemas/" ++ name))])
              "nullable"
            = (if u_isNullable (unwrapZodType s) then Some (JBool true) else None)
            /\ Obj.get (decorate (u_description (unwrapZodType s))
                          (u_isNullable (unwrapZodType s))
                          [("$ref", JStr ("#/components/schemas/" ++ name))])
                 "description"
               = option_map JStr (str_truthy (u_description (unwrapZodType s)))).
  { destruct (decorate_get (u_description (unwrapZodType s))
                (u_isNullable (unwrapZodType s))
                [("$ref", JStr ("#/components/schemas/" ++ name))]
                eq_refl eq_refl); auto. }
  destruct (entry_truthy sc name).
  - inversion E; subst. exact Href.
  - destruct (zodToOpenApiSchema s true true sc) as [[c sc1]|]; [|discriminate].
    inversion E; subst. exact Href.
Qed.

(** ** Path templates, composed *)

Lemma replace_params_slash a b : forall inParam,
  replace_params inParam (a ++ String slash b)
  = replace_params inParam a ++ String slash (replace_params false b).
Proof.
  induction a as [|c a IH]; intros inParam.
  - destruct inParam; reflexivity.
  - cbn [append replace_params]. destruct inParam.
    + destruct (Ascii.eqb c slash); cbn [append]; now rewrite IH.
    + destruct (Ascii.eqb c colon).
      * destruct a as [|c1 a1].
        -- reflexivity.
        -- cbn [append]. destruct (Ascii.eqb c1 slash).
           ++ cbn [append]. now rewrite <- (IH false).
           ++ cbn [append]. now rewrite <- (IH true).
      * cbn [append]. now rewrite IH.
Qed.

(** X5.  Rewriting a path commutes with joining at a slash: a base path and
    a route path that starts with a slash are rewritten each on its own, so
    a parameter never runs across the join. *)
Theorem rewriting_splits_at_slashes :
  forall a b : string,
    expressPathToOpenApiPath (a ++ String slash b)
    = expressPathToOpenApiPath a ++ String slash (expressPathToOpenApiPath b).
Proof. intros a b. apply replace_params_slash. Qed.

(** X6.  A path without a colon is documented as it is. *)
Theorem path_without_colon_is_kept :
  forall p : string, has_colon p = false -> expressPathToOpenApiPath p = p.
Proof.
  unfold expressPathToOpenApiPath.
  induction p as [|c p IH]; intros H; [reflexivity|].
  simpl in H. apply orb_false_iff in H. destruct H as [Hc Hp].
  cbn [replace_params]. rewrite Hc. now rewrite IH.
Qed.

Lemma path_without_colon_is_kept_witness :
  expressPathToOpenApiPath "/api/animals" = "/api/animals".
Proof. exact (path_without_colon_is_kept "/api/animals" eq_refl). Defined.

(** ** Parameters *)

Lemma shape_parameters_spec location required shape :
  exists ps,
    shape_parameters location required shape = Some ps
    /\ Forall2 (fun kv p =>
                  json_get p "name" = Some (JStr (fst kv))
                  /\ json_get p "in" = Some (JStr location)
                  /\ json_get p "required" = Some (JBool required)
                  /\ exists converted, json_get p "schema" = Some (JObj converted))
         shape ps.
Proof.
  induction shape as [|[name schema] shape IH]; simpl.
  - exists []. split; [reflexivity | constructor].
  - destruct (conversion_returns schema false false []) as (r & sc1 & E).
    rewrite E. destruct IH as (ps & -> & Hps).
    eexists. split; [reflexivity|].
    constructor; [|exact Hps]. simpl. repeat split; eauto.
Qed.

(** X7.  [buildParameters] yields one parameter per field of the params,
    query and headers object schemas, in that order, each under the field's
    name with a converted schema; path parameters are marked required, query
    and header parameters never are, whatever their schema.  It yields
    [undefined] exactly when there is no such field: a part that is missing,
    or whose schema is not an object schema itself, contributes nothing. *)
Theorem buildParameters_lists_the_fields :
  forall req : option RequestSchemas,
    exists ps,
      Forall2 is_parameter (parameter_slots req) ps
      /\ buildParameters req
         = Some (match ps with
                 | [] => JUndefined
                 | _ :: _ => JArr ps
                 end)
      /\ (buildParameters req = Some JUndefined <-> parameter_slots req = []).
Proof.
  intros req. unfold buildParameters, parameter_slots.
  destruct (shape_parameters_spec "path" true (object_shape (field req rs_params)))
    as (ps1 & -> & H1).
  destruct (shape_parameters_spec "query" false (object_shape (field req rs_query)))
    as (ps2 & -> & H2).
  destruct (shape_parameters_spec "header" false
              (object_shape (field req rs_headers))) as (ps3 & -> & H3).
  exists (ps1 ++ ps2 ++ ps3)%list.
  assert (Hall : Forall2 is_parameter
            (map (fun kv => (fst kv, "path")) (object_shape (field req rs_params))
             ++ map (fun kv => (fst kv, "query")) (object_shape (field req rs_query))
             ++ map (fun kv => (fst kv, "header"))
                  (object_shape (field req rs_headers)))%list
            (ps1 ++ ps2 ++ ps3)%list).
  { repeat apply Forall2_app.
    - clear -H1. induction H1; simpl; constructor; auto.
    - clear -H2. induction H2; simpl; constructor; auto.
    - clear -H3. induction H3; simpl; constructor; auto. }
  split; [exact Hall|]. split.
  - destruct (ps1 ++ ps2 ++ ps3)%list; reflexivity.
  - apply Forall2_length in Hall.
    destruct (ps1 ++ ps2 ++ ps3)%list as [|p ps];
      destruct (_ ++ _ ++ _)%list as [|x xs]; simpl in Hall;
      try discriminate; split; intros H; try reflexivity; discriminate.
Qed.

(** ** The paths object *)

Lemma keys_set_iff {A} (o : Obj.t A) k v x :
  In x (Obj.keys (Obj.set o k v)) <-> In x (Obj.keys o) \/ x = k.
Proof.
  destruct (in_dec string_dec k (Obj.keys o)) as [Hin|Hn].
  - rewrite keys_set_in by assumption. split; [tauto|].
    intros [H| ->]; assumption.
  - rewrite keys_set_new by assumption. rewrite in_app_iff. simpl.
    split; intros [H|H]; auto; destruct H as [H|[]]; auto.
Qed.







(** ** Responses of an operation *)

Lemma status_key_injective a b : status_key a = status_key b -> a = b.
Proof.
  unfold status_key. intros H.
  assert (Hint : forall z, NilZero.int_of_string
                             (NilZero.string_of_int (Z.to_int z))
                           = Some (Z.to_int z)).
  { intros z. apply NilZero.isi; destruct z; simpl; try discriminate;
      intros E; inversion E as [E'];
      exact (DecimalPos.Unsigned.to_uint_nonnil _ E'). }
  pose proof (Hint a) as Ha. rewrite H, Hint in Ha. inversion Ha as [E].
  rewrite <- (DecimalZ.of_to a), <- (DecimalZ.of_to b). now rewrite E.
Qed.

Lemma build_responses_table entries : forall acc sc table sc',
  build_responses entries acc sc = Some (table, sc') ->
  NoDup (map fst entries) ->
  (forall s, In s (map fst entries) -> ~ In (status_key s) (Obj.keys acc)) ->
  Obj.keys table = (Obj.keys acc ++ map status_key (map fst entries))%list
  /\ (forall k, ~ In k (map status_key (map fst entries)) ->
        Obj.get table k = Obj.get acc k)
  /\ (forall status schema, In (status, schema) entries ->
        exists converted sc1 sc2,
          zodToOpenApiSchema schema true false sc1 = Some (converted, sc2)
          /\ Obj.get table (status_key status)
             = Some (JObj [("description", JStr "Response");
                           ("content", json_content converted)])).
Proof.
  induction entries as [|[status schema] entries IH];
    intros acc sc table sc' H Hnd Hfresh; simpl in H.
  - inversion H; subst. simpl. rewrite app_nil_r. repeat split; auto.
    intros status schema [].
  - destruct (zodToOpenApiSchema schema true false sc) as [[converted sc1]|] eqn:E;
      [|discriminate].
    simpl in Hnd. inversion Hnd as [|? ? Hnotin Hnd']; subst.
    apply IH in H; auto.
    + destruct H as (Hkeys & Hout & Hin).
      assert (Hsk : ~ In (status_key status) (map status_key (map fst entries))).
      { intros Hi. apply in_map_iff in Hi. destruct Hi as (s' & Hs' & Hi).
        apply status_key_injective in Hs'. subst s'. contradiction. }
      split; [|split].
      * rewrite Hkeys. rewrite keys_set_new by (apply Hfresh; simpl; auto).
        simpl. now rewrite <- app_assoc.
      * intros k Hk. simpl in Hk. rewrite Hout by tauto.
        apply get_set_other. tauto.
      * intros status' schema' [Heq|Hi].
        -- inversion Heq; subst status' schema'.
           exists converted, sc, sc1. split; [exact E|].
           rewrite Hout by assumption. apply get_set_same.
        -- eapply Hin; eauto.
    + intros s Hs Hk. apply keys_set_iff in Hk. destruct Hk as [Hk|Hk].
      * apply (Hfresh s); simpl; auto.
      * apply status_key_injective in Hk. subst s. contradiction.
Qed.

(** X9.  For a response table whose statuses are distinct and are integers
    that a JavaScript number holds exactly, the responses object of an
    operation has exactly one entry per declared status, keyed by the status
    written in decimal and in the table's order; each entry has the
    description [Response] and, as its JSON schema, the conversion of the
    declared schema with the shared context. *)
Theorem one_response_per_status :
  forall (entries : ResponseSchemas) (sc : Schemas),
    NoDup (map fst entries) ->
    (forall status, In status (map fst entries) -> safe_integer status) ->
    exists table sc',
      build_responses entries [] sc = Some (table, sc')
      /\ Obj.keys table = map status_key (map fst entries)
      /\ forall status schema, In (status, schema) entries ->
           exists converted sc1 sc2,
             zodToOpenApiSchema schema true false sc1 = Some (converted, sc2)
             /\ Obj.get table (status_key status)
                = Some (JObj [("description", JStr "Response");
                              ("content", json_content converted)]).
Proof.
  intros entries sc Hnd _.
  destruct (build_responses_spec entries [] sc) as (table & sc' & E & _).
  exists table, sc'. split; [exact E|].
  destruct (build_responses_table entries [] sc table sc' E Hnd)
    as (Hkeys & _ & Hin).
  { intros s _ []. }
  split; [exact Hkeys | exact Hin].
Qed.

Lemma one_response_per_status_witness :
  exists table sc',
    build_responses [(200%Z, ZodString no_meta); (404%Z, ZodNumber no_meta)]
      [] [] = Some (table, sc')
    /\ Obj.keys table = ["200"; "404"]
    /\ forall status schema,
         In (status, schema)
           [(200%Z, ZodString no_meta); (404%Z, ZodNumber no_meta)] ->
         exists converted sc1 sc2,
           zodToOpenApiSchema schema true false sc1 = Some (converted, sc2)
           /\ Obj.get table (status_key status)
              = Some (JObj [("description", JStr "Response");
                            ("content", json_content converted)]).
Proof.
  refine (one_response_per_status
            [(200%Z, ZodString no_meta); (404%Z, ZodNumber no_meta)] [] _ _).
  - repeat constructor; simpl; intuition discriminate.
  - intros status [<-|[<-|[]]]; unfold safe_integer; simpl; lia.
Defined.

(** ** The last route documented in a place *)





(** ** Every wrapped call *)

Local Open Scope list_scope.

(** X11.  When the request parses and the handler throws (or its promise
    rejects), the wrapper forwards that very error to [next] and writes
    nothing: the response object is as the handler left it when it threw. *)
Theorem handler_error_is_forwarded :
  forall (parse : ZodType -> Json -> Completion Json) (route : RegisteredRoute)
         (req : Request) (w : World) (parsed : ParsedRequest) (err : Json)
         (res1 : Response),
    parse_request parse (request route) req w = (Normal parsed, w) ->
    handler route req parsed (res w) = (Throw err, res1) ->
    wrapped parse route req w
    = (Normal tt, mkWorld res1 (trace w ++ [Invoked parsed; Next (Some err)])).
Proof.
  intros parse route req w parsed err res1 Hreq Hh.
  now rewrite wrapped_eq, Hreq, Hh.
Qed.

Lemma handler_error_is_forwarded_witness :
  wrapped sample_parse
    (sample_route (fun _ _ r => (Throw (JStr "boom"), mkResponse 500 (sent r))))
    (sample_request (JStr "hello")) fresh_world
  = (Normal tt,
     mkWorld (mkResponse 500 [])
       (trace fresh_world
        ++ [Invoked (mkParsed (JObj []) (JObj []) (JStr "hello") (JObj []));
            Next (Some (JStr "boom"))])).
Proof.
  exact (handler_error_is_forwarded sample_parse
           (sample_route
              (fun _ _ r => (Throw (JStr "boom"), mkResponse 500 (sent r))))
           (sample_request (JStr "hello")) fresh_world
           (mkParsed (JObj []) (JObj []) (JStr "hello") (JObj []))
           (JStr "boom") (mkResponse 500 []) eq_refl eq_refl).
Defined.

(** X12.  A wrapped call never throws, invokes the handler at most once,
    and ends in exactly one of two ways: it calls [next] once and writes
    nothing, or it writes one JSON body, under a status of the 2xx range,
    and does not call [next]. *)
Theorem wrapped_call_ends_once :
  forall (parse : ZodType -> Json -> Completion Json) (route : RegisteredRoute)
         (req : Request) (w : World),
    exists w',
      wrapped parse route req w = (Normal tt, w')
      /\ ((exists err,
             trace w' = trace w ++ [Next (Some err)] /\ res w' = res w)
          \/ exists parsed c res1,
               handler route req parsed (res w) = (c, res1)
               /\ ((exists o,
                      trace w' = trace w ++ [Invoked parsed; Next o]
                      /\ res w' = res1)
                   \/ (exists status v,
                         trace w' = trace w ++ [Invoked parsed]
                         /\ is_2xx status
                         /\ res w'
                            = mkResponse status (sent res1 ++ [(status, v)])))).
Proof.
  intros parse route req w. rewrite wrapped_eq.
  destruct (parse_request parse (request route) req w) as [[parsed|err] w1].
  - destruct (handler route req parsed (res w)) as [[result|err] res1] eqn:Hh.
    + destruct (eventual_status_spec res1) as (_ & _ & H2).
      unfold answer.
      destruct (select_schema (responses route) (eventual_status res1)) as [s|].
      * destruct (parse s result) as [v|e]; eexists; (split; [reflexivity|]);
          right; exists parsed, (Normal result), res1; (split; [exact Hh|]).
        -- right. exists (eventual_status res1), v. simpl. auto.
        -- left. exists (Some e). simpl. auto.
      * destruct result; eexists; (split; [reflexivity|]);
          right; eexists parsed, _, res1; (split; [exact Hh|]);
          try (right; eexists (eventual_status res1), _; simpl;
               repeat split; auto; apply H2).
        left. exists None. simpl. auto.
    + eexists. split; [reflexivity|]. right.
      exists parsed, (Throw err), res1. split; [exact Hh|].
      left. exists (Some err). simpl. auto.
  - eexists. split; [reflexivity|]. left. exists err. simpl. auto.
Qed.

(** X13.  When every part of the request parses, the handler is invoked
    exactly once, and what it receives for each part is the value the
    part's schema parsed it to, or the part as it came in when no schema is
    declared for it. *)
Theorem handler_receives_parsed_values :
  forall (parse : ZodType -> Json -> Completion Json) (route : RegisteredRoute)
         (req : Request) (w : World),
    (forall st, exists v, stage_outcome parse (request route) req st = Normal v) ->
    exists parsed rest,
      stage_outcome parse (request route) req InParams = Normal (params parsed)
      /\ stage_outcome parse (request route) req InQuery = Normal (query parsed)
      /\ stage_outcome parse (request route) req InBody = Normal (body parsed)
      /\ stage_outcome parse (request route) req InHeaders
         = Normal (headers parsed)
      /\ (forall st, stage_schema (request route) st = None ->
            stage_outcome parse (request route) req st
            = Normal (stage_input req st))
      /\ trace (snd (wrapped parse route req w))
         = trace w ++ Invoked parsed :: rest
      /\ Forall is_next rest.
Proof.
  intros parse route req w Hall.
  destruct (Hall InParams) as (p & Hp). destruct (Hall InQuery) as (q & Hq).
  destruct (Hall InBody) as (b & Hb). destruct (Hall InHeaders) as (h & Hh).
  assert (Hreq : parse_request parse (request route) req w
                 = (Normal (mkParsed p q b h), w)).
  { rewrite parse_request_eq, Hp, Hq, Hb, Hh. reflexivity. }
  assert (Hraw : forall st, stage_schema (request route) st = None ->
            stage_outcome parse (request route) req st
            = Normal (stage_input req st)).
  { intros st Hs. unfold stage_outcome. now rewrite Hs. }
  exists (mkParsed p q b h).
  rewrite wrapped_eq, Hreq.
  destruct (handler route req (mkParsed p q b h) (res w)) as [[result|err] res1].
  - unfold answer.
    destruct (select_schema (responses route) (eventual_status res1)) as [s|].
    + destruct (parse s result) as [v|e]; eexists; simpl;
        repeat split; auto; repeat constructor; eexists; reflexivity.
    + destruct result; eexists; simpl; repeat split; auto;
        repeat constructor; eexists; reflexivity.
  - eexists; simpl; repeat split; auto; repeat constructor;
      eexists; reflexivity.
Qed.

Lemma handler_receives_parsed_values_witness :
  exists parsed rest,
    stage_outcome sample_parse
      (request (sample_route (fun _ _ r => (Normal (JStr "ok"), r))))
      (sample_request (JStr "hello")) InParams = Normal (params parsed)
    /\ stage_outcome sample_parse
         (request (sample_route (fun _ _ r => (Normal (JStr "ok"), r))))
         (sample_request (JStr "hello")) InQuery = Normal (query parsed)
    /\ stage_outcome sample_parse
         (request (sample_route (fun _ _ r => (Normal (JStr "ok"), r))))
         (sample_request (JStr "hello")) InBody = Normal (body parsed)
    /\ stage_outcome sample_parse
         (request (sample_route (fun _ _ r => (Normal (JStr "ok"), r))))
         (sample_request (JStr "hello")) InHeaders = Normal (headers parsed)
    /\ (forall st,
          stage_schema
            (request (sample_route (fun _ _ r => (Normal (JStr "ok"), r)))) st
          = None ->
          stage_outcome sample_parse
            (request (sample_route (fun _ _ r => (Normal (JStr "ok"), r))))
            (sample_request (JStr "hello")) st
          = Normal (stage_input (sample_request (JStr "hello")) st))
    /\ trace (snd (wrapped sample_parse
                     (sample_route (fun _ _ r => (Normal (JStr "ok"), r)))
                     (sample_request (JStr "hello")) fresh_world))
       = trace fresh_world ++ Invoked parsed :: rest
    /\ Forall is_next rest.
Proof.
  refine (handler_receives_parsed_values sample_parse
            (sample_route (fun _ _ r => (Normal (JStr "ok"), r)))
            (sample_request (JStr "hello")) fresh_world _).
  intros [| | |]; eexists; reflexivity.
Defined.

(** ** Registration *)

(** X14.  [register] keeps the handlers the application already has and
    installs after them, in registration order, one handler per route: the
    route's wrapper, under the route's method and its path as declared. *)
Theorem register_installs_in_order :
  forall (parse : ZodType -> Json -> Completion Json) (self : TypedRouter)
         (app : App) (st : Store),
    snd (register parse self app st)
    = app ++ map (fun r => (method r, path r, wrapped parse r))
               (read st (routes self)).
Proof.
  intros parse self app st. unfold register, register_routes. simpl.
  generalize (read st (routes self)) as rs. intros rs. revert app.
  induction rs as [|r rs IH]; intros app; simpl.
  - now rewrite app_nil_r.
  - rewrite IH, <- app_assoc. reflexivity.
Qed.

Lemma route_all_spec self defs : forall st,
  routes self < List.length st ->
  List.length (route_all self defs st) = List.length st
  /\ read (route_all self defs st) (routes self)
     = read st (routes self) ++ defs
  /\ forall a, a <> routes self -> read (route_all self defs st) a = read st a.
Proof.
  induction defs as [|d defs IH]; intros st Hv.
  - unfold route_all. simpl. rewrite app_nil_r. auto.
  - change (route_all self (d :: defs) st)
      with (route_all self defs (fst (route self d st))).
    destruct (route_appends self d st Hv) as (_ & Hr & Hl & Ho).
    destruct (IH (fst (route self d st))) as (Hl' & Hr' & Ho').
    { now rewrite Hl. }
    rewrite Hl', Hr', Hr, Hl, <- app_assoc. repeat split; auto.
    intros a Ha. rewrite Ho', Ho; auto.
Qed.

(** X15.  A new router starts with no route and leaves the arrays already
    in the store alone; after routing a list of definitions through it,
    [getRoutes] returns exactly those definitions, in the order they were
    routed. *)
Theorem routed_definitions_are_listed :
  forall (st : Store) (defs : list RouteDefinition),
    let (st1, router) := new_router st in
    let st2 := route_all router defs st1 in
    let (st3, copy) := getRoutes router st2 in
    read st1 (routes router) = []
    /\ read st3 copy = defs
    /\ read st3 (routes router) = defs
    /\ forall a, a < List.length st -> read st3 a = read st a.
Proof.
  intros st defs. unfold new_router, alloc.
  remember (mkRouter (List.length st)) as router eqn:Erouter.
  assert (Href : routes router = List.length st) by now subst router.
  assert (Hnew : read (st ++ [[]]) (routes router) = []).
  { unfold read. rewrite Href, app_nth2 by lia. now rewrite Nat.sub_diag. }
  destruct (route_all_spec router defs (st ++ [[]])) as (Hl & Hr & Ho).
  { rewrite length_app, Href. simpl. lia. }
  rewrite Hnew in Hr. change ([] ++ defs) with defs in Hr.
  unfold getRoutes, alloc.
  remember (route_all router defs (st ++ [[]])) as st2 eqn:Est2.
  assert (Hlen : List.length st2 = S (List.length st)).
  { rewrite Hl, length_app. simpl. lia. }
  cbv iota beta zeta.
  split; [exact Hnew|]. split; [|split].
  - rewrite Hr. unfold read. rewrite app_nth2 by lia. now rewrite Nat.sub_diag.
  - unfold read. rewrite app_nth1 by lia. exact Hr.
  - intros a Ha. unfold read at 1. rewrite app_nth1 by lia.
    fold (read st2 a). rewrite Ho by lia.
    unfold read. now rewrite app_nth1.
Qed.

Local Open Scope string_scope.

(** ** The example controllers *)

Local Open Scope list_scope.

Lemma get_delete_same {A} (m : Obj.t A) k : Obj.get (map_delete m k) k = None.
Proof.
  induction m as [|[k' v] m IH]; simpl; auto.
  destruct (k' =? k)%string eqn:E; simpl; auto. now rewrite E.
Qed.

Lemma get_delete_other {A} (m : Obj.t A) k k' :
  k <> k' -> Obj.get (map_delete m k) k' = Obj.get m k'.
Proof.
  intros Hne. induction m as [|[k0 v] m IH]; simpl; auto.
  destruct (k0 =? k)%string eqn:E; simpl.
  - apply String.eqb_eq in E. subst k0.
    destruct (k =? k')%string eqn:E'; auto.
    apply String.eqb_eq in E'. contradiction.
  - now rewrite IH.
Qed.

Lemma length_delete {A} (m : Obj.t A) k v :
  NoDup (Obj.keys m) -> Obj.get m k = Some v ->
  S (List.length (map_delete m k)) = List.length m.
Proof.
  unfold Obj.keys. induction m as [|[k' v'] m IH]; simpl; [discriminate|].
  intros Hnd Hg. inversion Hnd as [|? ? Hnotin Hnd']; subst.
  destruct (k' =? k)%string eqn:E.
  - apply String.eqb_eq in E. subst k'. f_equal.
    clear -Hnotin. induction m as [|[k0 v0] m IH]; simpl in *; auto.
    destruct (k0 =? k)%string eqn:E.
    + apply String.eqb_eq in E. tauto.
    + simpl. f_equal. apply IH. tauto.
  - simpl. f_equal. auto.
Qed.

Lemma length_set_present {A} (m : Obj.t A) k v :
  In k (Obj.keys m) -> List.length (Obj.set m k v) = List.length m.
Proof.
  intros H. rewrite <- (length_map fst (Obj.set m k v)).
  fold (Obj.keys (Obj.set m k v)). rewrite keys_set_in by assumption.
  apply length_map.
Qed.

Lemma length_set_absent {A} (m : Obj.t A) k v :
  ~ In k (Obj.keys m) -> List.length (Obj.set m k v) = S (List.length m).
Proof.
  intros H. rewrite <- (length_map fst (Obj.set m k v)).
  fold (Obj.keys (Obj.set m k v)). rewrite keys_set_new by assumption.
  rewrite length_app. unfold Obj.keys. rewrite length_map. simpl. lia.
Qed.

Lemma string_of_nat_injective n m :
  string_of_nat n = string_of_nat m -> n = m.
Proof.
  unfold string_of_nat. intros H.
  assert (Hnonnil : forall k, Nat.to_uint k <> Decimal.Nil).
  { intros k E.
    pose proof (DecimalNat.Unsigned.of_to k) as Hk. rewrite E in Hk.
    simpl in Hk. subst k. discriminate. }
  pose proof (NilZero.usu (Nat.to_uint n) (Hnonnil n)) as Hn.
  rewrite H, (NilZero.usu (Nat.to_uint m) (Hnonnil m)) in Hn.
  inversion Hn as [E]. symmetry. now apply DecimalNat.Unsigned.to_uint_inj.
Qed.

(** X16.  [createAnimal] answers with the animal it stores, under the
    identifier [String(size + 1)]; looking that identifier up afterwards
    gives the same answer, and every other identifier is answered as
    before. *)
Theorem created_animal_can_be_fetched :
  forall (body : AnimalController.CreateAnimalBodyType)
         (animals : AnimalController.Animals_map),
    let (reply, animals') := AnimalController.createAnimal body animals in
    let newAnimal :=
      AnimalController.mkAnimal
        (string_of_nat (List.length animals + 1))
        (AnimalController.create_name body)
        (AnimalController.create_species body)
        (AnimalController.create_age body)
        (AnimalController.create_owner body) in
    reply = AnimalController.Animal newAnimal
    /\ AnimalController.getAnimalById
         (string_of_nat (List.length animals + 1)) animals' = reply
    /\ forall k, k <> string_of_nat (List.length animals + 1) ->
         AnimalController.getAnimalById k animals'
         = AnimalController.getAnimalById k animals.
Proof.
  intros body animals. unfold AnimalController.createAnimal.
  cbv zeta. unfold AnimalController.getAnimalById.
  split; [reflexivity|]. split.
  - now rewrite get_set_same.
  - intros k Hk. rewrite get_set_other by auto. reflexivity.
Qed.

(** X17.  The identifier [createAnimal] picks depends on the size of the
    map only: when an animal is already stored under [String(size + 1)],
    as happens after a deletion, that animal is replaced by the new one and
    the number of animals does not grow. *)
Theorem created_animal_can_replace_another :
  forall (body : AnimalController.CreateAnimalBodyType)
         (animals : AnimalController.Animals_map)
         (old : AnimalController.AnimalType),
    Obj.get animals (string_of_nat (List.length animals + 1)) = Some old ->
    let animals' := snd (AnimalController.createAnimal body animals) in
    List.length animals' = List.length animals
    /\ Obj.get animals' (string_of_nat (List.length animals + 1))
       = Some (AnimalController.mkAnimal
                 (string_of_nat (List.length animals + 1))
                 (AnimalController.create_name body)
                 (AnimalController.create_species body)
                 (AnimalController.create_age body)
                 (AnimalController.create_owner body)).
Proof.
  intros body animals old Hold. unfold AnimalController.createAnimal. simpl.
  split.
  - apply length_set_present. eapply get_in_keys; eauto.
  - apply get_set_same.
Qed.

Lemma created_animal_can_replace_another_witness :
  let animals := snd (AnimalController.deleteAnimal "1" AnimalController.seeded) in
  let body := AnimalController.mkCreateBody "Rex" "dog" 1 None in
  Obj.get animals "3"
  = Some (AnimalController.mkAnimal "3" "Tweety" "bird" 2 None)
  /\ List.length (snd (AnimalController.createAnimal body animals)) = 2
  /\ Obj.get (snd (AnimalController.createAnimal body animals)) "3"
     = Some (AnimalController.mkAnimal "3" "Rex" "dog" 1 None).
Proof.
  split; [reflexivity|].
  exact (created_animal_can_replace_another
           (AnimalController.mkCreateBody "Rex" "dog" 1 None)
           (snd (AnimalController.deleteAnimal "1" AnimalController.seeded))
           (AnimalController.mkAnimal "3" "Tweety" "bird" 2 None) eq_refl).
Defined.

(** X18.  [deleteAnimal] on an identifier that is stored answers with the
    animal it removes; afterwards that identifier is not found, and the map
    has one animal less.  On an identifier that is not stored it answers
    [Animal not found] and leaves the map as it is.  Either way every other
    identifier is answered as before. *)
Theorem deleted_animal_is_gone :
  forall (k : string) (animals : AnimalController.Animals_map),
    let (reply, animals') := AnimalController.deleteAnimal k animals in
    (forall a, Obj.get animals k = Some a ->
       reply = AnimalController.MessageWith "Animal deleted successfully" a
       /\ AnimalController.getAnimalById k animals'
          = AnimalController.Message "Animal not found"
       /\ (NoDup (Obj.keys animals) ->
           S (List.length animals') = List.length animals))
    /\ (Obj.get animals k = None ->
        reply = AnimalController.Message "Animal not found"
        /\ animals' = animals)
    /\ forall k', k' <> k ->
         AnimalController.getAnimalById k' animals'
         = AnimalController.getAnimalById k' animals.
Proof.
  intros k animals. unfold AnimalController.deleteAnimal.
  destruct (Obj.get animals k) as [animal|] eqn:E.
  - split; [|split].
    + intros a Ha. inversion Ha; subst a. split; [reflexivity|]. split.
      * unfold AnimalController.getAnimalById. now rewrite get_delete_same.
      * intros Hnd. eapply length_delete; eauto.
    + discriminate.
    + intros k' Hk. unfold AnimalController.getAnimalById.
      rewrite get_delete_other by auto. reflexivity.
  - split; [|split]; auto. discriminate.
Qed.

(** X19.  [updateAnimal] on an identifier that is stored keeps the animal's
    identifier, replaces exactly the fields the body gives and keeps the
    others; a [null] owner counts as not given, so an owner can be changed
    but never removed.  The updated animal is what a lookup then returns,
    the number of animals stays, and other identifiers are answered as
    before.  On an identifier that is not stored nothing changes. *)
Theorem updated_animal_keeps_what_is_not_given :
  forall (k : string) (body : AnimalController.UpdateAnimalBodyType)
         (animals : AnimalController.Animals_map),
    let (reply, animals') := AnimalController.updateAnimal k body animals in
    (forall existing, Obj.get animals k = Some existing ->
       exists updated,
         reply = AnimalController.Animal updated
         /\ AnimalController.getAnimalById k animals' = reply
         /\ AnimalController.id updated = AnimalController.id existing
         /\ AnimalController.name updated
            = coalesce (AnimalController.update_name body)
                (AnimalController.name existing)
         /\ AnimalController.species updated
            = coalesce (AnimalController.update_species body)
                (AnimalController.species existing)
         /\ AnimalController.age updated
            = coalesce (AnimalController.update_age body)
                (AnimalController.age existing)
         /\ (forall o, AnimalController.update_owner body = Given o ->
               AnimalController.owner updated = Some o)
         /\ (AnimalController.update_owner body = Null
             \/ AnimalController.update_owner body = Missing ->
             AnimalController.owner updated = AnimalController.owner existing)
         /\ List.length animals' = List.length animals)
    /\ (Obj.get animals k = None ->
        reply = AnimalController.Message "Animal not found"
        /\ animals' = animals)
    /\ forall k', k' <> k ->
         AnimalController.getAnimalById k' animals'
         = AnimalController.getAnimalById k' animals.
Proof.
  intros k body animals. unfold AnimalController.updateAnimal.
  destruct (Obj.get animals k) as [existing|] eqn:E.
  - split; [|split].
    + intros e He. inversion He; subst e. eexists. split; [reflexivity|].
      split; [unfold AnimalController.getAnimalById; now rewrite get_set_same|].
      simpl. repeat split; auto.
      * intros o Ho. now rewrite Ho.
      * intros [Ho|Ho]; now rewrite Ho.
      * apply length_set_present. eapply get_in_keys; eauto.
    + discriminate.
    + intros k' Hk. unfold AnimalController.getAnimalById.
      rewrite get_set_other by auto. reflexivity.
  - split; [|split]; auto. discriminate.
Qed.

(** X20.  [getAnimals] reads [req.user.id] first, so it throws when the
    request carries no user, whatever the query.  With a user it answers
    with all animals in insertion order when no species (or an empty one)
    is asked for, and otherwise with the animals of exactly that species,
    in insertion order. *)
Theorem animals_are_listed_for_a_user :
  forall (user : option string) (query_species : option string)
         (animals : AnimalController.Animals_map),
    (user = None ->
     exists err,
       AnimalController.getAnimals user query_species animals = Throw err)
    /\ (user <> None ->
        exists l,
          AnimalController.getAnimals user query_species animals
          = Normal (AnimalController.Animals l)
          /\ (str_truthy query_species = None -> l = map snd animals)
          /\ (forall wanted, str_truthy query_species = Some wanted ->
                l = filter (fun a => (AnimalController.species a =? wanted)%string)
                      (map snd animals)
                /\ forall a, In a l <->
                     In a (map snd animals)
                     /\ AnimalController.species a = wanted)).
Proof.
  intros user query_species animals. unfold AnimalController.getAnimals.
  split.
  - intros ->. eauto.
  - intros Hu. destruct user as [userId|]; [|contradiction].
    destruct (str_truthy query_species) as [wanted|]; eexists;
      (split; [reflexivity|]); split; try discriminate; auto.
    intros w Hw. inversion Hw; subst w. split; [reflexivity|].
    intros a. rewrite filter_In, String.eqb_eq. reflexivity.
Qed.

(** *** Users *)

Lemma users_are_numbered calls :
  Obj.keys (UserController.after calls)
  = map string_of_nat (seq 1 (List.length (UserController.after calls))).
Proof.
  unfold UserController.after.
  assert (Hgen : forall users,
            Obj.keys users = map string_of_nat (seq 1 (List.length users)) ->
            Obj.keys (fold_left (fun u c => snd (UserController.handle c u))
                        calls users)
            = map string_of_nat
                (seq 1 (List.length
                          (fold_left
                             (fun u c => snd (UserController.handle c u))
                             calls users)))).
  { induction calls as [|c calls IH]; intros users Hinv; simpl; auto.
    apply IH. destruct c as [body|k body|k]; simpl; auto.
    - unfold UserController.createUser. simpl.
      assert (Hfresh : ~ In (string_of_nat (List.length users + 1))
                         (Obj.keys users)).
      { rewrite Hinv. intros Hin. apply in_map_iff in Hin.
        destruct Hin as (n & Hn & Hin). apply string_of_nat_injective in Hn.
        apply in_seq in Hin. lia. }
      rewrite keys_set_new, length_set_absent by assumption.
      rewrite Hinv at 1. rewrite seq_S, map_app. simpl.
      now rewrite Nat.add_comm.
    - unfold UserController.updateUser.
      destruct (Obj.get users k) as [existing|] eqn:E; simpl; auto.
      assert (Hin : In k (Obj.keys users)) by (eapply get_in_keys; eauto).
      now rewrite keys_set_in, length_set_present. }
  apply Hgen. reflexivity.
Qed.

(** X21.  Users are never removed, so after any sequence of requests the
    identifier [createUser] picks is a new one: no user is stored under it
    yet, the map grows by one, the new user can be fetched under it (with
    status [active] unless one is given), and every user stored before is
    still fetched as before. *)
Theorem created_user_is_new :
  forall (calls : list UserController.Call)
         (body : UserController.CreateUserBodyType),
    let users := UserController.after calls in
    let (reply, users') := UserController.createUser body users in
    let newUser :=
      UserController.mkUser (string_of_nat (List.length users + 1))
        (UserController.create_name body) (UserController.create_email body)
        (coalesce (UserController.create_status body) "active"%string) in
    Obj.get users (string_of_nat (List.length users + 1)) = None
    /\ reply = UserController.User newUser
    /\ List.length users' = S (List.length users)
    /\ UserController.getUserById (string_of_nat (List.length users + 1)) users'
       = reply
    /\ forall k u, Obj.get users k = Some u ->
         UserController.getUserById k users' = UserController.User u.
Proof.
  intros calls body. cbv zeta.
  pose proof (users_are_numbered calls) as Hinv.
  set (users := UserController.after calls) in *.
  assert (Hfresh : ~ In (string_of_nat (List.length users + 1))
                     (Obj.keys users)).
  { rewrite Hinv. intros Hin. apply in_map_iff in Hin.
    destruct Hin as (n & Hn & Hin). apply string_of_nat_injective in Hn.
    apply in_seq in Hin. lia. }
  unfold UserController.createUser, UserController.getUserById. simpl.
  split; [|split; [|split; [|split]]].
  - destruct (Obj.get users _) as [u|] eqn:E; auto.
    exfalso. apply Hfresh. eapply get_in_keys; eauto.
  - reflexivity.
  - now apply length_set_absent.
  - now rewrite get_set_same.
  - intros k u Hk. rewrite get_set_other, Hk; auto.
    intros <-. apply Hfresh. eapply get_in_keys; eauto.
Qed.

Local Open Scope string_scope.

(** ** Schemas without names *)

Lemma unnamed_meta s :
  unnamed s = true -> str_truthy (openApi_name (meta s)) = None.
Proof.
  destruct s; simpl; destruct (str_truthy (openApi_name m)); auto; discriminate.
Qed.

Lemma unnamed_inner s :
  unnamed s = true ->
  match s with
  | ZodArray _ t => unnamed t = true
  | ZodObject _ shape => forall kv, In kv shape -> unnamed (snd kv) = true
  | ZodUnion _ options => forall o, In o options -> unnamed o = true
  | ZodOptional _ i | ZodNullable _ i | ZodDefault _ i | ZodEffects _ i =>
      unnamed i = true
  | _ => True
  end.
Proof.
  destruct s; simpl; auto; destruct (str_truthy (openApi_name m));
    try discriminate; auto.
  - induction shape as [|[k v] shape IH]; intros H kv Hin; [contradiction|].
    apply andb_true_iff in H. destruct H as [Hv Hrest].
    destruct Hin as [<-|Hin]; auto.
  - induction options as [|o options IH]; intros H o' Hin; [contradiction|].
    apply andb_true_iff in H. destruct H as [Ho Hrest].
    destruct Hin as [<-|Hin]; auto.
Qed.

Lemma unwrap_loop_unnamed s : forall n o d a,
  unnamed s = true -> str_truthy a = None ->
  str_truthy (u_openApiName (unwrap_loop s n o d a)) = None
  /\ unnamed (u_schema (unwrap_loop s n o d a)) = true.
Proof.
  induction s; intros n o d a Hu Ha;
    try (simpl; split; [exact Ha | exact Hu]);
    pose proof (unnamed_inner _ Hu) as Hi; simpl in Hi;
    cbn [unwrap_loop]; apply IHs; auto;
    unfold or_inner; rewrite Ha; now apply unnamed_meta.
Qed.

Lemma unwrap_unnamed s :
  unnamed s = true ->
  str_truthy (u_openApiName (unwrapZodType s)) = None
  /\ unnamed (u_schema (unwrapZodType s)) = true.
Proof.
  intros H. apply unwrap_loop_unnamed; auto. now apply unnamed_meta.
Qed.

Lemma callees_unnamed b c :
  unnamed b = true -> In c (callees b) -> unnamed c = true.
Proof.
  intros Hb Hin. pose proof (unnamed_inner _ Hb) as Hi.
  destruct b; simpl in *; try contradiction.
  - destruct Hin as [<-|[]]. exact Hi.
  - apply in_map_iff in Hin. destruct Hin as (kv & <- & Hkv).
    apply unwrap_unnamed. auto.
  - auto.
Qed.

Lemma context_irrelevant n : forall s, size s <= n -> unnamed s = true ->
  forall asComponent sc,
    zodToOpenApiSchema s true asComponent sc
    = zodToOpenApiSchema s false asComponent sc.
Proof.
  induction n as [|n IH]; intros s Hs Hu asComponent sc.
  { pose proof (size_pos s). lia. }
  destruct (unwrap_unnamed s Hu) as [Hname Hbase].
  rewrite (zodToOpenApiSchema_eq s true), (zodToOpenApiSchema_eq s false).
  cbn zeta. rewrite Hname.
  rewrite (convert_base_ext (fun c => zodToOpenApiSchema c true false)
             (fun c => zodToOpenApiSchema c false false)); [reflexivity|].
  intros c sc1 Hin. apply IH.
  - apply callees_smaller in Hin. pose proof (unwrap_size s). lia.
  - eapply callees_unnamed; eauto.
Qed.

(** X22.  For a schema in which nothing is named, the context plays no
    part: the conversion with the shared context is the conversion without
    it, and it leaves the component table as it is. *)
Theorem unnamed_schema_ignores_context :
  forall (s : ZodType) (asComponent : bool) (sc : Schemas),
    unnamed s = true ->
    zodToOpenApiSchema s true asComponent sc
    = zodToOpenApiSchema s false asComponent sc
    /\ exists r, zodToOpenApiSchema s true asComponent sc = Some (r, sc).
Proof.
  intros s asComponent sc Hu.
  pose proof (context_irrelevant (size s) s (le_n _) Hu asComponent sc) as E.
  split; [exact E|]. rewrite E.
  destruct (conversion_returns s false asComponent sc) as (r & sc' & Er).
  exists r. rewrite Er. f_equal. f_equal.
  eapply fuel_no_context. exact Er.
Qed.

Lemma unnamed_schema_ignores_context_witness :
  zodToOpenApiSchema spec_example true false []
  = zodToOpenApiSchema spec_example false false []
  /\ exists r, zodToOpenApiSchema spec_example true false [] = Some (r, []).
Proof.
  exact (unnamed_schema_ignores_context spec_example false [] eq_refl).
Defined.

Lemma build_responses_unnamed entries : forall acc,
  (forall s, In s (map snd entries) -> unnamed s = true) ->
  exists table, build_responses entries acc [] = Some (table, []).
Proof.
  induction entries as [|[status schema] entries IH]; intros acc Hu; simpl.
  - eauto.
  - destruct (conversion_returns schema true false []) as (r & sc' & E).
    rewrite E.
    assert (sc' = []).
    { rewrite (context_irrelevant (size schema) schema (le_n _)
                 (Hu schema (or_introl eq_refl))) in E.
      eapply fuel_no_context. exact E. }
    subst sc'. apply IH. intros s Hin. apply Hu. simpl. auto.
Qed.

Lemma build_routes_unnamed options rs : forall paths,
  (forall r s, In r rs -> documented_schema r s -> unnamed s = true) ->
  exists paths', build_routes options rs paths [] = Some (paths', []).
Proof.
  induction rs as [|r rs IH]; intros paths Hu; simpl; [eauto|].
  assert (Hr : exists paths1, build_route options r paths [] = Some (paths1, [])).
  { assert (Hresp : exists table,
              build_responses (responses r) [] [] = Some (table, [])).
    { apply build_responses_unnamed.
      intros s Hin. apply (Hu r); [simpl; auto | right; exact Hin]. }
    destruct Hresp as (table & Hresp).
    unfold build_route.
    destruct (buildParameters (request r)) as [parameters|] eqn:Ep;
      [|now apply buildParameters_returns in Ep].
    destruct (field (request r) rs_body) as [bodySchema|] eqn:Eb.
    - destruct (conversion_returns bodySchema true false []) as (c & sc' & E).
      assert (sc' = []).
      { rewrite (context_irrelevant (size bodySchema) bodySchema (le_n _))
          in E.
        - eapply fuel_no_context. exact E.
        - apply (Hu r); [simpl; auto | left; exact Eb]. }
      subst sc'. rewrite E, Hresp. eauto.
    - rewrite Hresp. eauto. }
  destruct Hr as (paths1 & ->). apply IH.
  intros r' s Hin. apply Hu. simpl. auto.
Qed.

(** X23.  When no body or response schema of any route has a name anywhere
    in it, the generated document has no [components] entry at all. *)
Theorem document_without_names_has_no_components :
  forall (options : OpenApiOptions) (rs : list RegisteredRoute),
    (forall r s, In r rs -> documented_schema r s -> unnamed s = true) ->
    exists doc,
      build_document options rs = Some doc /\ components doc = None.
Proof.
  intros options rs Hu. unfold build_document.
  destruct (build_routes_unnamed options rs [] Hu) as (paths' & ->).
  eexists. split; reflexivity.
Qed.

Lemma document_without_names_has_no_components_witness :
  exists doc,
    build_document (mkOpenApiOptions "API" "1.0.0" None None)
      [route_with_named_parameter] = Some doc
    /\ components doc = None.
Proof.
  refine (document_without_names_has_no_components
            (mkOpenApiOptions "API" "1.0.0" None None)
            [route_with_named_parameter] _).
  intros r s Hr Hs. destruct Hr as [<-|[]].
  destruct Hs as [H|H]; cbv in H; [discriminate|].
  destruct H as [<-|[]]. reflexivity.
Defined.

(** ** A status borrowed from the handler, a schema from the table *)

Local Open Scope list_scope.

(** X24.  When the handler leaves a 2xx status for which no schema is
    declared, its return value is validated against the schema of the
    lowest declared 2xx status, and a valid value goes out, as parsed by
    that schema, under the status the handler left. *)
Theorem undeclared_2xx_status_borrows_a_schema :
  forall (parse : ZodType -> Json -> Completion Json) (route : RegisteredRoute)
         (req : Request) (w : World) (parsed : ParsedRequest) (result : Json)
         (res1 : Response) (k : Z) (s : ZodType) (v : Json),
    parse_request parse (request route) req w = (Normal parsed, w) ->
    handler route req parsed (res w) = (Normal result, res1) ->
    is_2xx (statusCode res1) ->
    response_schema (responses route) (statusCode res1) = None ->
    first_2xx (responses route) k ->
    response_schema (responses route) k = Some s ->
    parse s result = Normal v ->
    wrapped parse route req w
    = (Normal tt,
       mkWorld (mkResponse (statusCode res1)
                  (sent res1 ++ [(statusCode res1, v)]))
         (trace w ++ [Invoked parsed])).
Proof.
  intros parse route req w parsed result res1 k s v Hreq Hh H2 Hnone Hk Hs Hp.
  destruct (eventual_status_spec res1) as (Hin & _ & _).
  rewrite wrapped_eq, Hreq, Hh, (Hin H2).
  rewrite <- (validates_against_unique (responses route) (statusCode res1)
                (Some s)).
  - unfold answer. now rewrite Hp.
  - eapply default_first_2xx; eauto.
Qed.

Lemma undeclared_2xx_status_borrows_a_schema_witness :
  wrapped sample_parse
    (sample_route (fun _ _ r => (Normal (JStr "ok"), mkResponse 204 (sent r))))
    (sample_request (JStr "hello")) fresh_world
  = (Normal tt,
     mkWorld (mkResponse 204 ([] ++ [(204%Z, JStr "ok")]))
       (trace fresh_world
        ++ [Invoked (mkParsed (JObj []) (JObj []) (JStr "hello") (JObj []))])).
Proof.
  refine (undeclared_2xx_status_borrows_a_schema sample_parse
            (sample_route
               (fun _ _ r => (Normal (JStr "ok"), mkResponse 204 (sent r))))
            (sample_request (JStr "hello")) fresh_world
            (mkParsed (JObj []) (JObj []) (JStr "hello") (JObj []))
            (JStr "ok") (mkResponse 204 []) 201%Z (ZodString no_meta)
            (JStr "ok") eq_refl eq_refl _ eq_refl _ eq_refl eq_refl).
  - unfold is_2xx. simpl. lia.
  - split; [exists (ZodString no_meta); reflexivity|].
    split; [unfold is_2xx; lia|].
    intros k' Hd _. apply declared_keys in Hd.
    destruct Hd as [<-|[<-|[]]]; simpl; lia.
Defined.

Local Open Scope string_scope.
